(** * FlowchartConnector: a shallow embedding of [src/js/flowchart.js]

    The class [FlowchartConnector] draws arrows between the boxes of a
    flowchart on a canvas laid over them.  Its methods are embedded as
    functions over an explicit connector state; the host (document,
    layout, root style, canvas, timers) is a record of the answers the
    code asks it for.

    Conventions.
    - JavaScript numbers are real numbers; NaN, infinities and signed
      zeros are left out.  Where the code turns a computed number into an
      integer (the size of the buffer) the result depends on the last bit,
      so the product is rounded to a binary64 [double] as the code rounds
      it; coordinates and angles, which only reach the bitmap as numbers,
      are kept exact.
    - Strings are sequences of code units below 256.
    - An exception is a [Throw]; the only one the class can raise is a
      [TypeError] (a property read on [null] or [undefined]). *)

From Stdlib Require Import Reals Lra Lia ZArith List Bool String Ascii.
Import ListNotations.

Local Open Scope R_scope.
Local Open Scope string_scope.

(** ** Completions *)

Inductive JsError : Type := TypeError.

Inductive Completion (A : Type) : Type :=
| Normal (a : A)
| Throw (e : JsError).

Arguments Normal {A} a.
Arguments Throw {A} e.

Definition bind {A B : Type} (m : Completion A) (k : A -> Completion B)
  : Completion B :=
  match m with
  | Normal a => k a
  | Throw e => Throw e
  end.

Notation "x <- m ;; k" := (bind m (fun x => k))
  (at level 61, m at next level, right associativity).

Definition completes {A : Type} (m : Completion A) : Prop :=
  exists a, m = Normal a.

(** ** Numbers *)

(** The binary exponent of [x]: [2^(mag x) <= |x| < 2^(mag x + 1)]. *)
Definition mag (x : R) : Z := Zfloor (ln (Rabs x) / ln 2).

(** The integer nearest to [y], the even one of the two when [y] is half
    way between them. *)
Definition nearestEven (y : R) : Z :=
  let f := Zfloor y in
  if Rlt_dec (y - IZR f) (1 / 2) then f
  else if Rlt_dec (1 / 2) (y - IZR f) then (f + 1)%Z
  else if Z.even f then f else (f + 1)%Z.

(** The result of an arithmetic operation whose exact value is [x]: the
    nearest number with a significand of 53 bits, ties to even (IEEE 754
    binary64, round to nearest; the exponent is not bounded, so overflow
    and subnormal numbers, far from any layout size, are left out). *)
Definition double (x : R) : R :=
  if Req_dec_T x 0 then 0
  else
    let ulp := powerRZ 2 (mag x - 52) in
    IZR (nearestEven (x / ulp)) * ulp.

(** ** The canvas of the host *)

(** Path points are kept in buffer (device) coordinates: the canvas
    applies the current transform to a point when it enters the path. *)
Inductive PathCmd : Type :=
| MoveTo (x y : R)
| LineTo (x y : R)
| ClosePath.

(** What has been done to the bitmap, oldest first. *)
Inductive Paint : Type :=
| Stroked (p : list PathCmd) (style : string) (width : R)
          (cap join : string) (sx sy : R)
| Filled (p : list PathCmd) (style : string)
| Cleared (x0 y0 x1 y1 : R).

Record Context2D : Type := mkContext {
  scaleX : R;
  scaleY : R;
  lineCap : string;
  lineJoin : string;
  strokeStyle : string;
  fillStyle : string;
  ctxLineWidth : R;
  path : list PathCmd;
  bitmap : list Paint
}.

(** The state of a context after a reset: identity transform, default
    styles, no path, transparent bitmap. *)
Definition defaultContext : Context2D :=
  {| scaleX := 1; scaleY := 1;
     lineCap := "butt"; lineJoin := "miter";
     strokeStyle := "#000000"; fillStyle := "#000000";
     ctxLineWidth := 1; path := []; bitmap := [] |}.

Inductive CssLength : Type := px (v : R).

Record Canvas : Type := mkCanvas {
  canvasWidth : Z;
  canvasHeight : Z;
  styleWidth : option CssLength;
  styleHeight : option CssLength;
  context : Context2D
}.

(** [canvas.width = v]: the attribute is an [unsigned long], so [v] is
    truncated towards zero and reduced modulo 2^32; a value above
    2^31 - 1 gives the default size.  Setting either dimension, even to
    the value it has, resets the context and blanks the bitmap. *)
Definition Rtrunc (x : R) : Z :=
  if Rle_dec 0 x then Zfloor x else Zceil x.

Definition toUnsignedLong (default : Z) (v : R) : Z :=
  let n := (Rtrunc v mod 4294967296)%Z in
  if (n >? 2147483647)%Z then default else n.

Definition set_width (v : R) (c : Canvas) : Canvas :=
  {| canvasWidth := toUnsignedLong 300 v;
     canvasHeight := canvasHeight c;
     styleWidth := styleWidth c;
     styleHeight := styleHeight c;
     context := defaultContext |}.

Definition set_height (v : R) (c : Canvas) : Canvas :=
  {| canvasWidth := canvasWidth c;
     canvasHeight := toUnsignedLong 150 v;
     styleWidth := styleWidth c;
     styleHeight := styleHeight c;
     context := defaultContext |}.

Definition set_style_width (l : CssLength) (c : Canvas) : Canvas :=
  {| canvasWidth := canvasWidth c;
     canvasHeight := canvasHeight c;
     styleWidth := Some l;
     styleHeight := styleHeight c;
     context := context c |}.

Definition set_style_height (l : CssLength) (c : Canvas) : Canvas :=
  {| canvasWidth := canvasWidth c;
     canvasHeight := canvasHeight c;
     styleWidth := styleWidth c;
     styleHeight := Some l;
     context := context c |}.

Definition with_context (f : Context2D -> Context2D) (c : Canvas) : Canvas :=
  {| canvasWidth := canvasWidth c;
     canvasHeight := canvasHeight c;
     styleWidth := styleWidth c;
     styleHeight := styleHeight c;
     context := f (context c) |}.

(** The context's methods and property setters the class uses. *)
Module Ctx.

Definition scale (a b : R) (g : Context2D) : Context2D :=
  mkContext (scaleX g * a) (scaleY g * b) (lineCap g) (lineJoin g)
            (strokeStyle g) (fillStyle g) (ctxLineWidth g) (path g) (bitmap g).

Definition setLineCap (v : string) (g : Context2D) : Context2D :=
  mkContext (scaleX g) (scaleY g) v (lineJoin g)
            (strokeStyle g) (fillStyle g) (ctxLineWidth g) (path g) (bitmap g).

Definition setLineJoin (v : string) (g : Context2D) : Context2D :=
  mkContext (scaleX g) (scaleY g) (lineCap g) v
            (strokeStyle g) (fillStyle g) (ctxLineWidth g) (path g) (bitmap g).

(** A string that is not a CSS colour leaves the style as it was. *)
Definition setStrokeStyle (valid : string -> bool) (v : string)
           (g : Context2D) : Context2D :=
  if valid v then
    mkContext (scaleX g) (scaleY g) (lineCap g) (lineJoin g)
              v (fillStyle g) (ctxLineWidth g) (path g) (bitmap g)
  else g.

Definition setFillStyle (valid : string -> bool) (v : string)
           (g : Context2D) : Context2D :=
  if valid v then
    mkContext (scaleX g) (scaleY g) (lineCap g) (lineJoin g)
              (strokeStyle g) v (ctxLineWidth g) (path g) (bitmap g)
  else g.

(** A width that is not positive leaves the width as it was. *)
Definition setLineWidth (v : R) (g : Context2D) : Context2D :=
  if Rlt_dec 0 v then
    mkContext (scaleX g) (scaleY g) (lineCap g) (lineJoin g)
              (strokeStyle g) (fillStyle g) v (path g) (bitmap g)
  else g.

Definition setPath (p : list PathCmd) (g : Context2D) : Context2D :=
  mkContext (scaleX g) (scaleY g) (lineCap g) (lineJoin g)
            (strokeStyle g) (fillStyle g) (ctxLineWidth g) p (bitmap g).

Definition paint (d : Paint) (g : Context2D) : Context2D :=
  mkContext (scaleX g) (scaleY g) (lineCap g) (lineJoin g)
            (strokeStyle g) (fillStyle g) (ctxLineWidth g) (path g)
            (bitmap g ++ [d]).

Definition beginPath (g : Context2D) : Context2D := setPath [] g.

Definition moveTo (x y : R) (g : Context2D) : Context2D :=
  setPath (path g ++ [MoveTo (scaleX g * x) (scaleY g * y)]) g.

(** On an empty path [lineTo] only starts a subpath at the point. *)
Definition lineTo (x y : R) (g : Context2D) : Context2D :=
  match path g with
  | [] => setPath [MoveTo (scaleX g * x) (scaleY g * y)] g
  | _ => setPath (path g ++ [LineTo (scaleX g * x) (scaleY g * y)]) g
  end.

Definition closePath (g : Context2D) : Context2D :=
  match path g with
  | [] => g
  | _ => setPath (path g ++ [ClosePath]) g
  end.

Definition stroke (g : Context2D) : Context2D :=
  paint (Stroked (path g) (strokeStyle g) (ctxLineWidth g)
                 (lineCap g) (lineJoin g) (scaleX g) (scaleY g)) g.

Definition fill (g : Context2D) : Context2D :=
  paint (Filled (path g) (fillStyle g)) g.

(** The rectangle is given in user space; what is blanked is its image
    under the current transform. *)
Definition clearRect (x y w h : R) (g : Context2D) : Context2D :=
  paint (Cleared (scaleX g * x) (scaleY g * y)
                 (scaleX g * (x + w)) (scaleY g * (y + h))) g.

End Ctx.

(** ** The document, its layout and its root style *)

Record DOMRect : Type := mkRect {
  rectLeft : R;
  rectTop : R;
  rectWidth : R;
  rectHeight : R
}.

(** A layout box has a width and a height that are not negative, so its
    bottom edge is its top edge plus its height. *)
Definition rectBottom (r : DOMRect) : R := rectTop r + rectHeight r.

Definition emptyRect : DOMRect := mkRect 0 0 0 0.

(** A node of the document: its box, and its canvas state when it is a
    [<canvas>] element. *)
Record Element : Type := mkElement {
  boundingClientRect : DOMRect;
  asCanvas : option Canvas
}.

Record Host : Type := mkHost {
  getElementById : string -> option Element;
  devicePixelRatio : option R;
  (** [getComputedStyle(document.documentElement).getPropertyValue] *)
  getPropertyValue : string -> string;
  (** whether a string parses as a CSS colour *)
  validColor : string -> bool
}.

(** A reference to a node is the identifier it was found under; a node
    that has left the document has an empty box. *)
Definition getBoundingClientRect (h : Host) (node : string) : DOMRect :=
  match getElementById h node with
  | Some e => boundingClientRect e
  | None => emptyRect
  end.

(** ** Strings *)

(** [strip_prefix p s] is what follows [p] in [s], when [s] starts with [p]. *)
Fixpoint strip_prefix (p s : string) : option string :=
  match p with
  | EmptyString => Some s
  | String a p' =>
      match s with
      | EmptyString => None
      | String b s' => if Ascii.eqb a b then strip_prefix p' s' else None
      end
  end.

Definition startsWith (p s : string) : bool :=
  match strip_prefix p s with
  | Some _ => true
  | None => false
  end.

(** The characters before the first closing parenthesis, if there is one. *)
Fixpoint until_paren (s : string) : option string :=
  match s with
  | EmptyString => None
  | String c r =>
      if Ascii.eqb c ")" then Some EmptyString
      else option_map (String c) (until_paren r)
  end.

(** [/var\((--[^)]+)\)/] tried at the first character of [s]: the captured
    group.  The class [[^)]+] is greedy and has to stop at a closing
    parenthesis, so it takes everything up to the first one and fails when
    that is nothing. *)
Definition match_var_here (s : string) : option string :=
  match strip_prefix "var(--" s with
  | Some rest =>
      match until_paren rest with
      | Some EmptyString => None
      | Some name => Some ("--" ++ name)
      | None => None
      end
  | None => None
  end.

(** [s.match(/var\((--[^)]+)\)/)]: the group of the leftmost match, [None]
    for [null]. *)
Fixpoint match_var (s : string) : option string :=
  match match_var_here s with
  | Some g => Some g
  | None =>
      match s with
      | EmptyString => None
      | String _ r => match_var r
      end
  end.

Definition is_space (c : ascii) : bool :=
  let n := nat_of_ascii c in
  ((9 <=? n) && (n <=? 13) || (n =? 32) || (n =? 160))%nat.

Fixpoint trim_start (s : string) : string :=
  match s with
  | EmptyString => EmptyString
  | String c r => if is_space c then trim_start r else s
  end.

Fixpoint trim_end (s : string) : string :=
  match s with
  | EmptyString => EmptyString
  | String c r =>
      match trim_end r with
      | EmptyString => if is_space c then EmptyString else String c EmptyString
      | r' => String c r'
      end
  end.

Definition trim (s : string) : string := trim_end (trim_start s).

(** ** The class *)

Record Point : Type := mkPoint { pos_x : R; pos_y : R }.

(** The properties of a connector whose constructor went past the canvas
    test.  [this.ctx] is the context of [canvas]; [flowchart] is the node
    [getElementById] gave, [None] for [null]. *)
Record Fields : Type := mkFields {
  canvas : Canvas;
  flowchart : option string;
  connectionType : string;
  lineColor : string;
  lineWidth : R;
  arrowSize : R
}.

(** [Unbound] is the object the constructor leaves when the canvas is not
    found: [this.canvas] is [null] and nothing else is assigned. *)
Inductive FlowchartConnector : Type :=
| Unbound
| Ready (f : Fields).

Definition with_canvas (c : Canvas) (f : Fields) : Fields :=
  mkFields c (flowchart f) (connectionType f) (lineColor f)
           (lineWidth f) (arrowSize f).

Definition on_ctx (k : Context2D -> Context2D) (f : Fields) : Fields :=
  with_canvas (with_context k (canvas f)) f.

(** [this.flowchart.getBoundingClientRect()] *)
Definition flowchartRect (h : Host) (this : FlowchartConnector)
  : Completion DOMRect :=
  match this with
  | Unbound => Throw TypeError
  | Ready f =>
      match flowchart f with
      | None => Throw TypeError
      | Some node => Normal (getBoundingClientRect h node)
      end
  end.

(** A parameter left out takes [this.lineColor], which is [undefined] on
    an unbound connector. *)
Definition colorOrLineColor (this : FlowchartConnector) (color : option string)
  : option string :=
  match color with
  | Some c => Some c
  | None =>
      match this with
      | Unbound => None
      | Ready f => Some (lineColor f)
      end
  end.

Definition resolveColor (h : Host) (color : option string)
  : Completion string :=
  match color with
  | None => Throw TypeError
  | Some color =>
      if startsWith "var(" color then
        match match_var color with
        | None => Throw TypeError
        | Some varName => Normal (trim (getPropertyValue h varName))
        end
      else Normal color
  end.

(** [window.devicePixelRatio || 1] *)
Definition pixelRatioOf (h : Host) : R :=
  match devicePixelRatio h with
  | Some r => if Req_dec_T r 0 then 1 else r
  | None => 1
  end.

Definition resizeCanvas (h : Host) (this : FlowchartConnector)
  : Completion FlowchartConnector :=
  rect <- flowchartRect h this ;;
  match this with
  | Unbound => Throw TypeError
  | Ready f =>
      let pixelRatio := pixelRatioOf h in
      let c := set_width (double (rectWidth rect * pixelRatio)) (canvas f) in
      let c := set_height (double (rectHeight rect * pixelRatio)) c in
      let c := set_style_width (px (rectWidth rect)) c in
      let c := set_style_height (px (rectHeight rect)) c in
      let c := with_context (Ctx.scale pixelRatio pixelRatio) c in
      let c := with_context (Ctx.setLineCap "round") c in
      let c := with_context (Ctx.setLineJoin "round") c in
      Normal (Ready (with_canvas c f))
  end.

Definition getElementCenter (h : Host) (this : FlowchartConnector)
           (elementId : string) : Completion (option Point) :=
  match getElementById h elementId with
  | None => Normal None
  | Some element =>
      flowchartRect <- flowchartRect h this ;;
      let elementRect := boundingClientRect element in
      Normal (Some
        {| pos_x := rectLeft elementRect + rectWidth elementRect / 2
                    - rectLeft flowchartRect;
           pos_y := rectTop elementRect + rectHeight elementRect / 2
                    - rectTop flowchartRect |})
  end.

Definition getElementBottom (h : Host) (this : FlowchartConnector)
           (elementId : string) : Completion (option Point) :=
  match getElementById h elementId with
  | None => Normal None
  | Some element =>
      flowchartRect <- flowchartRect h this ;;
      let elementRect := boundingClientRect element in
      Normal (Some
        {| pos_x := rectLeft elementRect + rectWidth elementRect / 2
                    - rectLeft flowchartRect;
           pos_y := rectBottom elementRect - rectTop flowchartRect |})
  end.

Definition getElementTop (h : Host) (this : FlowchartConnector)
           (elementId : string) : Completion (option Point) :=
  match getElementById h elementId with
  | None => Normal None
  | Some element =>
      flowchartRect <- flowchartRect h this ;;
      let elementRect := boundingClientRect element in
      Normal (Some
        {| pos_x := rectLeft elementRect + rectWidth elementRect / 2
                    - rectLeft flowchartRect;
           pos_y := rectTop elementRect - rectTop flowchartRect |})
  end.

(** [Math.atan2(y, x)]: the angle of the vector [(x, y)], in (-PI, PI],
    and 0 for the null vector. *)
Definition atan2 (y x : R) : R :=
  if Rlt_dec 0 x then atan (y / x)
  else if Rlt_dec x 0 then
    if Rle_dec 0 y then atan (y / x) + PI else atan (y / x) - PI
  else if Rlt_dec 0 y then PI / 2
  else if Rlt_dec y 0 then - (PI / 2)
  else 0.

(** The statements of [drawArrow] after the colour is resolved: each
    acts on [this.ctx]. *)
Definition paintArrow (valid : string -> bool) (resolvedColor : string)
           (lineWidth arrowSize fromX fromY toX toY : R) (ctx : Context2D)
  : Context2D :=
  let ctx := Ctx.setStrokeStyle valid resolvedColor ctx in
  let ctx := Ctx.setFillStyle valid resolvedColor ctx in
  let ctx := Ctx.setLineWidth lineWidth ctx in
  let ctx := Ctx.beginPath ctx in
  let ctx := Ctx.moveTo fromX fromY ctx in
  let ctx := Ctx.lineTo toX toY ctx in
  let ctx := Ctx.stroke ctx in
  let angle := atan2 (toY - fromY) (toX - fromX) in
  let ctx := Ctx.beginPath ctx in
  let ctx := Ctx.moveTo toX toY ctx in
  let ctx := Ctx.lineTo (toX - arrowSize * cos (angle - PI / 6))
                        (toY - arrowSize * sin (angle - PI / 6)) ctx in
  let ctx := Ctx.lineTo (toX - arrowSize * cos (angle + PI / 6))
                        (toY - arrowSize * sin (angle + PI / 6)) ctx in
  let ctx := Ctx.closePath ctx in
  Ctx.fill ctx.

Definition drawArrow (h : Host) (this : FlowchartConnector)
           (fromX fromY toX toY : R) (color : option string)
  : Completion FlowchartConnector :=
  resolvedColor <- resolveColor h (colorOrLineColor this color) ;;
  match this with
  | Unbound => Throw TypeError
  | Ready f =>
      Normal (Ready (on_ctx (paintArrow (validColor h) resolvedColor
                                        (lineWidth f) (arrowSize f)
                                        fromX fromY toX toY) f))
  end.

Definition drawConnection (h : Host) (this : FlowchartConnector)
           (fromElementId toElementId : string) (color : option string)
  : Completion FlowchartConnector :=
  let color := colorOrLineColor this color in
  fromPos <- getElementBottom h this fromElementId ;;
  toPos <- getElementTop h this toElementId ;;
  match fromPos, toPos with
  | Some fromPos, Some toPos =>
      drawArrow h this (pos_x fromPos) (pos_y fromPos)
                (pos_x toPos) (pos_y toPos) color
  | _, _ => Normal this
  end.

(** An entry of a connection table: [{ from, to, color }]. *)
Record Connection : Type := mkConnection {
  conn_from : string;
  conn_to : string;
  conn_color : string
}.

(** The table of the return flowchart. *)
Definition connections_hachzarah : list Connection :=
  [ mkConnection "question1c" "q1c-yes" "var(--category-gradient-start)";
    mkConnection "question1c" "q1c-no" "var(--category-error-start)";
    mkConnection "question2c" "q2c-yes" "var(--category-gradient-start)";
    mkConnection "question2c" "q2c-no" "var(--link-color)";
    mkConnection "question3c" "q3c-yes" "var(--category-gradient-start)";
    mkConnection "question3c" "q3c-no" "var(--category-error-start)";
    mkConnection "question4c" "q4c-yes" "var(--category-gradient-start)";
    mkConnection "question4c" "q4c-no" "var(--category-error-start)";
    mkConnection "question5c" "q5c-yes" "var(--category-gradient-start)";
    mkConnection "question5c" "q5c-no" "var(--category-error-start)";
    mkConnection "question6c" "q6c-yes" "var(--category-gradient-start)";
    mkConnection "question6c" "q6c-maybe" "#ed8936" ].

(** The table of the delay flowchart, used for every other type. *)
Definition connections_default : list Connection :=
  [ mkConnection "question1" "q1-yes" "var(--category-gradient-start)";
    mkConnection "question1" "q1-no" "var(--category-error-start)";
    mkConnection "question2" "q2-yes" "var(--category-gradient-start)";
    mkConnection "question2" "q2-no" "var(--category-error-start)";
    mkConnection "question3" "q3-yes" "var(--category-gradient-start)";
    mkConnection "question3" "q3-no" "var(--category-error-start)" ].

(** [connections.forEach(conn => this.drawConnection(...))]: an exception
    leaves the loop. *)
Fixpoint forEachConnection (h : Host) (connections : list Connection)
         (this : FlowchartConnector) : Completion FlowchartConnector :=
  match connections with
  | [] => Normal this
  | conn :: rest =>
      this' <- drawConnection h this (conn_from conn) (conn_to conn)
                              (Some (conn_color conn)) ;;
      forEachConnection h rest this'
  end.

(** The table [drawConnections] walks for a connection type. *)
Definition connectionsOf (type : string) : list Connection :=
  if String.eqb type "hachzarah" then connections_hachzarah
  else connections_default.

Definition clearCanvas (f : Fields) : Fields :=
  on_ctx (Ctx.clearRect 0 0 (IZR (canvasWidth (canvas f)))
                        (IZR (canvasHeight (canvas f)))) f.

Definition drawConnections (h : Host) (this : FlowchartConnector)
  : Completion FlowchartConnector :=
  match this with
  | Unbound => Throw TypeError
  | Ready f =>
      forEachConnection h (connectionsOf (connectionType f))
                        (Ready (clearCanvas f))
  end.

(** The body of the timer callback of [init]. *)
Definition resizeAndRedraw (h : Host) (this : FlowchartConnector)
  : Completion FlowchartConnector :=
  this <- resizeCanvas h this ;;
  drawConnections h this.

(** What a construction leaves behind: the object, and whether [init]
    reached [window.addEventListener('resize', ...)]. *)
Record Instance : Type := mkInstance {
  self : FlowchartConnector;
  listening : bool
}.

Definition init (h : Host) (this : FlowchartConnector) : Completion Instance :=
  this <- resizeCanvas h this ;;
  this <- drawConnections h this ;;
  Normal (mkInstance this true).

(** [new FlowchartConnector(canvasId, flowchartId, connectionType)];
    [getContext] is not a function on a node that is not a canvas. *)
Definition constructor (h : Host) (canvasId flowchartId : string)
           (type : option string) : Completion Instance :=
  match getElementById h canvasId with
  | None => Normal (mkInstance Unbound false)
  | Some node =>
      match asCanvas node with
      | None => Throw TypeError
      | Some cv =>
          let found :=
            match getElementById h flowchartId with
            | Some _ => Some flowchartId
            | None => None
            end in
          let type :=
            match type with
            | Some t => t
            | None => "default"
            end in
          let color := trim (getPropertyValue h "--primary-color") in
          init h (Ready (mkFields cv found type color 3 8))
      end
  end.

(** ** The window: resize events and timers

    Time is counted in milliseconds.  A timer set at [now] with delay [d]
    is due at [now + d] and runs when the clock reaches that time.  When a
    resize event comes at the very time a timer is due, the host may run
    either first: [eager] says that the timer goes first. *)

Record Timer : Type := mkTimer { timer_id : nat; timer_due : nat }.

Record Window : Type := mkWindow {
  instance : Instance;
  (** the variable [resizeTimeout] of the closure of [init] *)
  resizeTimeout : option nat;
  (** the timers of the host that wait, in the order they were set *)
  timers : list Timer;
  nextTimerId : nat;
  (** the times at which the timer callback has run, oldest first *)
  redraws : list nat
}.

Definition open (i : Instance) : Window := mkWindow i None [] 1 [].

Definition clearTimeout (id : option nat) (w : Window) : Window :=
  match id with
  | None => w
  | Some n =>
      mkWindow (instance w) (resizeTimeout w)
               (filter (fun t => negb (Nat.eqb (timer_id t) n)) (timers w))
               (nextTimerId w) (redraws w)
  end.

Definition setTimeout (now delay : nat) (w : Window) : nat * Window :=
  let id := nextTimerId w in
  (id, mkWindow (instance w) (resizeTimeout w)
                (timers w ++ [mkTimer id (now + delay)])
                (S id) (redraws w)).

(** The listener [init] registers. *)
Definition resizeListener (now : nat) (w : Window) : Window :=
  let w := clearTimeout (resizeTimeout w) w in
  let (id, w) := setTimeout now 100 w in
  mkWindow (instance w) (Some id) (timers w) (nextTimerId w) (redraws w).

Definition dispatchResize (now : nat) (w : Window) : Window :=
  if listening (instance w) then resizeListener now w else w.

(** A timer runs: [resizeCanvas] then [drawConnections].  A callback that
    throws is reported by the host and the window goes on; the connectors
    a construction returns never throw there. *)
Definition runCallback (layout : nat -> Host) (w : Window) (t : Timer)
  : Window :=
  let this := self (instance w) in
  let this' :=
    match resizeAndRedraw (layout (timer_due t)) this with
    | Normal s => s
    | Throw _ => this
    end in
  mkWindow (mkInstance this' (listening (instance w)))
           (resizeTimeout w) (timers w) (nextTimerId w)
           (redraws w ++ [timer_due t]).

Definition isDue (eager : bool) (now : nat) (t : Timer) : bool :=
  if eager then Nat.leb (timer_due t) now else Nat.ltb (timer_due t) now.

(** The clock reaches [now]: the timers due leave the table and run, in the
    order they were set. *)
Definition advance (layout : nat -> Host) (eager : bool) (now : nat)
           (w : Window) : Window :=
  let due := filter (isDue eager now) (timers w) in
  let waiting := filter (fun t => negb (isDue eager now t)) (timers w) in
  fold_left (runCallback layout) due
            (mkWindow (instance w) (resizeTimeout w) waiting
                      (nextTimerId w) (redraws w)).

(** Resize events at the given times, one after the other. *)
Fixpoint runResizes (layout : nat -> Host) (eager : bool)
         (events : list nat) (w : Window) : Window :=
  match events with
  | [] => w
  | now :: rest =>
      runResizes layout eager rest
                 (dispatchResize now (advance layout eager now w))
  end.

(** Event times that never go back. *)
Fixpoint ascending (events : list nat) : Prop :=
  match events with
  | [] => True
  | t :: rest =>
      match rest with
      | [] => True
      | u :: _ => (t <= u)%nat /\ ascending rest
      end
  end.

(** * Properties *)

(** ** Completions *)

Lemma bind_Normal {A B : Type} (a : A) (k : A -> Completion B) :
  bind (Normal a) k = k a.
Proof. reflexivity. Qed.

Lemma bind_Throw {A B : Type} (e : JsError) (k : A -> Completion B) :
  bind (Throw e) k = Throw e.
Proof. reflexivity. Qed.

Lemma flowchartRect_ready (h : Host) (f : Fields) (node : string) :
  flowchart f = Some node ->
  flowchartRect h (Ready f) = Normal (getBoundingClientRect h node).
Proof. intros E; unfold flowchartRect; now rewrite E. Qed.

(** ** Rounding to a double *)

Ltac powers_of_two :=
  repeat match goal with
    | |- context [powerRZ 2 ?z] =>
        let z' := eval vm_compute in z in
        let n := eval vm_compute in (Z.abs_nat z') in
        match z' with
        | Z0 => change (powerRZ 2 z) with 1
        | Zpos _ => change (powerRZ 2 z) with (2 ^ n)
        | Zneg _ => change (powerRZ 2 z) with (/ 2 ^ n)
        end
    end;
  cbv [pow].

Lemma ln_powerRZ_2 (e : Z) : ln (powerRZ 2 e) = IZR e * ln 2.
Proof.
  rewrite powerRZ_Rpower by lra. apply ln_Rpower.
Qed.

Lemma ln_2_pos : 0 < ln 2.
Proof. pose proof ln_lt_2. lra. Qed.

Lemma mag_unique (x : R) (e : Z) :
  powerRZ 2 e <= Rabs x < powerRZ 2 (e + 1) -> mag x = e.
Proof.
  intros [L U]. unfold mag.
  pose proof ln_2_pos as P.
  pose proof (powerRZ_lt 2 e ltac:(lra)) as Pe.
  apply Zfloor_eq. split.
  - apply Rmult_le_reg_r with (ln 2); [exact P | ].
    unfold Rdiv. rewrite Rmult_assoc, Rinv_l, Rmult_1_r by lra.
    rewrite <- ln_powerRZ_2.
    destruct L as [L | L]; [left; apply ln_increasing; assumption | right; now rewrite L].
  - apply Rmult_lt_reg_r with (ln 2); [exact P | ].
    unfold Rdiv. rewrite Rmult_assoc, Rinv_l, Rmult_1_r by lra.
    rewrite <- plus_IZR, <- ln_powerRZ_2.
    apply ln_increasing; lra.
Qed.

Lemma nearestEven_whole (m : Z) : nearestEven (IZR m) = m.
Proof.
  unfold nearestEven. rewrite ZfloorZ.
  destruct (Rlt_dec (IZR m - IZR m) (1 / 2)) as [_ | N]; [reflexivity | ].
  exfalso. apply N. lra.
Qed.

Lemma nearestEven_half_odd (m : Z) :
  Z.even m = false -> nearestEven (IZR m + 1 / 2) = (m + 1)%Z.
Proof.
  intros O. unfold nearestEven.
  assert (F : Zfloor (IZR m + 1 / 2) = m) by (apply Zfloor_eq; lra).
  rewrite F.
  destruct (Rlt_dec _ _) as [L | _]; [lra | ].
  destruct (Rlt_dec _ _) as [L | _]; [lra | ].
  now rewrite O.
Qed.

(** A number with a 53-bit significand is a double: rounding leaves it. *)
Lemma double_representable (m e : Z) :
  (4503599627370496 <= Z.abs m < 9007199254740992)%Z ->
  double (IZR m * powerRZ 2 e) = IZR m * powerRZ 2 e.
Proof.
  intros [L U].
  pose proof (powerRZ_lt 2 e ltac:(lra)) as Pe.
  assert (A : Rabs (IZR m * powerRZ 2 e) = IZR (Z.abs m) * powerRZ 2 e).
  { rewrite Rabs_mult, <- abs_IZR, (Rabs_pos_eq (powerRZ 2 e)) by lra. reflexivity. }
  assert (M : mag (IZR m * powerRZ 2 e) = (52 + e)%Z).
  { apply mag_unique. rewrite A.
    replace (52 + e + 1)%Z with (53 + e)%Z by lia.
    rewrite !powerRZ_add by lra.
    apply IZR_le in L. apply IZR_lt in U.
    change (powerRZ 2 52) with (2 ^ 52). change (powerRZ 2 53) with (2 ^ 53).
    split.
    - apply Rmult_le_compat_r; [lra | ]. simpl; lra.
    - apply Rmult_lt_compat_r; [lra | ]. simpl; lra. }
  unfold double.
  destruct (Req_dec_T _ _) as [Z0 | _].
  - exfalso. apply Rmult_integral in Z0. destruct Z0 as [Z0 | Z0]; [ | lra].
    apply eq_IZR in Z0. lia.
  - cbv zeta. rewrite M. replace (52 + e - 52)%Z with e by lia.
    replace (IZR m * powerRZ 2 e / powerRZ 2 e) with (IZR m) by (field; lra).
    now rewrite nearestEven_whole.
Qed.


Lemma powerRZ_2_nonneg (s : Z) : (0 <= s)%Z -> powerRZ 2 s = IZR (2 ^ s).
Proof.
  intros S. rewrite <- (Z2Nat.id s S) at 1. rewrite <- pow_powerRZ.
  rewrite <- (Z2Nat.id s S) at 2. now rewrite <- pow_IZR.
Qed.

(** So is every number with fewer bits: [n * 2^e] with [|n| < 2^53]. *)
Lemma double_dyadic (n e : Z) :
  (Z.abs n < 9007199254740992)%Z ->
  double (IZR n * powerRZ 2 e) = IZR n * powerRZ 2 e.
Proof.
  intros U.
  destruct (Z.eq_dec n 0) as [-> | N].
  { rewrite Rmult_0_l. unfold double.
    destruct (Req_dec_T 0 0) as [_ | F]; [reflexivity | now elim F]. }
  pose proof (Z.log2_spec (Z.abs n) ltac:(lia)) as [L1 L2].
  assert (B : (Z.log2 (Z.abs n) < 53)%Z).
  { apply Z.log2_lt_pow2; [lia | exact U]. }
  pose proof (Z.log2_nonneg (Z.abs n)) as L0.
  set (s := (52 - Z.log2 (Z.abs n))%Z).
  assert (S : (0 <= s)%Z) by (unfold s; lia).
  replace (IZR n * powerRZ 2 e) with (IZR (n * 2 ^ s) * powerRZ 2 (e - s)).
  - apply double_representable.
    rewrite Z.abs_mul, (Z.abs_eq (2 ^ s)) by (apply Z.pow_nonneg; lia).
    change 4503599627370496%Z with (2 ^ 52)%Z.
    change 9007199254740992%Z with (2 ^ 53)%Z.
    replace 52%Z with (Z.log2 (Z.abs n) + s)%Z by (unfold s; lia).
    replace 53%Z with (Z.succ (Z.log2 (Z.abs n)) + s)%Z by (unfold s; lia).
    rewrite !Z.pow_add_r by lia.
    assert (0 < 2 ^ s)%Z by (apply Z.pow_pos_nonneg; lia).
    split; nia.
  - rewrite mult_IZR, <- powerRZ_2_nonneg by exact S.
    rewrite Rmult_assoc, <- powerRZ_add by lra.
    now replace (s + (e - s))%Z with e by lia.
Qed.

Lemma double_whole (n : Z) :
  (Z.abs n < 9007199254740992)%Z -> double (IZR n) = IZR n.
Proof.
  intros U. pose proof (double_dyadic n 0 U) as D.
  now rewrite powerRZ_O, Rmult_1_r in D.
Qed.

Lemma double_halves (n : Z) :
  (Z.abs n < 9007199254740992)%Z -> double (IZR n / 2) = IZR n / 2.
Proof.
  intros U. pose proof (double_dyadic n (-1) U) as D.
  replace (powerRZ 2 (-1)) with (/ 2) in D by (powers_of_two; lra).
  exact D.
Qed.

(** 10 * 0.7 in doubles: 0.7 is the double 6305039478318694 * 2^-53, the
    exact product lies half way between two doubles and goes to the even
    one, which is 7. *)
Lemma double_ten_times_0_7 :
  double (10 * (6305039478318694 / 9007199254740992)) = 7.
Proof.
  set (x := 10 * (6305039478318694 / 9007199254740992)).
  assert (M : mag x = 2%Z).
  { apply mag_unique. unfold x. rewrite Rabs_pos_eq by lra.
    powers_of_two. lra. }
  unfold double. destruct (Req_dec_T x 0) as [Z0 | _]; [unfold x in Z0; lra | ].
  cbv zeta. rewrite M.
  replace (x / powerRZ 2 (2 - 52)) with (IZR 7881299347898367 + 1 / 2).
  2:{ unfold x. powers_of_two. lra. }
  rewrite nearestEven_half_odd by reflexivity.
  rewrite plus_IZR. powers_of_two. lra.
Qed.

Lemma powerRZ_2_exp (e : Z) : powerRZ 2 e = exp (IZR e * ln 2).
Proof. rewrite powerRZ_Rpower by lra. reflexivity. Qed.

(** [mag x] is the binary exponent of [x]. *)
Lemma mag_spec (x : R) :
  x <> 0 -> powerRZ 2 (mag x) <= Rabs x < powerRZ 2 (mag x + 1).
Proof.
  intros N. pose proof ln_2_pos as P.
  pose proof (Rabs_pos_lt x N) as A.
  pose proof (Zfloor_bound (ln (Rabs x) / ln 2)) as [L U].
  fold (mag x) in L, U.
  assert (E : ln (Rabs x) = ln (Rabs x) / ln 2 * ln 2) by (field; lra).
  rewrite !powerRZ_2_exp, plus_IZR, <- (exp_ln (Rabs x) A) at 1.
  rewrite <- (exp_ln (Rabs x) A) at 2.
  split.
  - destruct L as [L | L].
    + left. apply exp_increasing. rewrite E at 1. apply Rmult_lt_compat_r; lra.
    + right. f_equal. rewrite L. field; lra.
  - apply exp_increasing. rewrite E at 1. apply Rmult_lt_compat_r; lra.
Qed.

Lemma powerRZ_2_le (a b : Z) : (a <= b)%Z -> powerRZ 2 a <= powerRZ 2 b.
Proof.
  intros L. replace b with (a + (b - a))%Z by lia.
  rewrite powerRZ_add by lra.
  pose proof (powerRZ_lt 2 a ltac:(lra)).
  rewrite (powerRZ_2_nonneg (b - a)) by lia.
  assert (1 <= 2 ^ (b - a))%Z.
  { assert (0 < 2 ^ (b - a))%Z by (apply Z.pow_pos_nonneg; lia). lia. }
  apply IZR_le in H0. nra.
Qed.

Lemma mag_below_53 (x : R) :
  x <> 0 -> Rabs x < 9007199254740992 -> (mag x <= 52)%Z.
Proof.
  intros N U. destruct (mag_spec x N) as [L _].
  destruct (Z_le_gt_dec (mag x) 52) as [? | G]; [assumption | exfalso].
  pose proof (powerRZ_2_le 53 (mag x) ltac:(lia)) as M.
  rewrite (powerRZ_2_nonneg 53) in M by lia.
  change (2 ^ 53)%Z with 9007199254740992%Z in M. lra.
Qed.

Lemma nearestEven_ge (y : R) (a : Z) : IZR a <= y -> (a <= nearestEven y)%Z.
Proof.
  intros L. pose proof (Zfloor_lub a y L). unfold nearestEven.
  repeat destruct (Rlt_dec _ _); try destruct (Z.even _); lia.
Qed.

Lemma nearestEven_le (y : R) (b : Z) : y <= IZR b -> (nearestEven y <= b)%Z.
Proof.
  intros U. destruct (Zfloor_bound y) as [F1 F2].
  assert (Zfloor y <= b)%Z by (apply le_IZR; lra).
  assert (IZR (Zfloor y) < y -> (Zfloor y + 1 <= b)%Z).
  { intros S. assert (Zfloor y < b)%Z by (apply lt_IZR; lra). lia. }
  unfold nearestEven.
  destruct (Rlt_dec _ _) as [? | N1]; [assumption | ].
  destruct (Rlt_dec _ _) as [? | N2]; [apply H0; lra | ].
  destruct (Z.even _); [assumption | apply H0; lra].
Qed.

(** Rounding never crosses a whole number: below 2^53 every whole number
    is a double, so a double product lies between the whole numbers around
    the exact one. *)
Lemma double_between_wholes (x : R) (a b : Z) :
  Rabs x < 9007199254740992 ->
  IZR a <= x <= IZR b -> IZR a <= double x <= IZR b.
Proof.
  intros B [L U]. unfold double.
  destruct (Req_dec_T x 0) as [-> | N]; [split; assumption | ].
  cbv zeta.
  pose proof (mag_below_53 x N B) as M.
  set (s := (52 - mag x)%Z).
  assert (S : (0 <= s)%Z) by (unfold s; lia).
  pose proof (powerRZ_lt 2 (mag x - 52) ltac:(lra)) as P.
  assert (I : / powerRZ 2 (mag x - 52) = IZR (2 ^ s)).
  { rewrite <- powerRZ_neg', <- powerRZ_2_nonneg by exact S.
    f_equal. unfold s. lia. }
  assert (P2 : 0 < IZR (2 ^ s)) by (rewrite <- I; apply Rinv_0_lt_compat, P).
  unfold Rdiv. rewrite I.
  assert (E : forall c : Z, IZR c = IZR (c * 2 ^ s) * powerRZ 2 (mag x - 52)).
  { intros c. rewrite mult_IZR, <- I. field. lra. }
  split.
  - rewrite (E a). apply Rmult_le_compat_r; [lra | ].
    apply IZR_le, nearestEven_ge. rewrite mult_IZR. nra.
  - rewrite (E b). apply Rmult_le_compat_r; [lra | ].
    apply IZR_le, nearestEven_le. rewrite mult_IZR. nra.
Qed.

Lemma Zfloor_double (x : R) :
  Rabs x < 9007199254740992 ->
  (Zfloor x <= Zfloor (double x) <= Zceil x)%Z.
Proof.
  intros B.
  destruct (double_between_wholes x (Zfloor x) (Zceil x) B) as [L U].
  { pose proof (Zfloor_bound x). pose proof (Zceil_bound x). lra. }
  split.
  - apply Zfloor_lub, L.
  - apply le_IZR. pose proof (Zfloor_bound (double x)). lra.
Qed.

(** ** The size of the buffer *)

Lemma Rtrunc_nonneg (x : R) : 0 <= x -> Rtrunc x = Zfloor x.
Proof.
  intros Hx; unfold Rtrunc.
  destruct (Rle_dec 0 x) as [_ | N]; [reflexivity | contradiction].
Qed.

Lemma Zfloor_range (x : R) (n : Z) :
  0 <= x < IZR n -> (0 <= Zfloor x < n)%Z.
Proof.
  intros [H0 Hn]; split.
  - apply Zfloor_lub; exact H0.
  - apply lt_IZR. destruct (Zfloor_bound x) as [Hl _]; lra.
Qed.

(** In the range of layout sizes the attribute keeps the integer part. *)
Lemma toUnsignedLong_floor (d : Z) (x : R) :
  0 <= x < 2147483648 -> toUnsignedLong d x = Zfloor x.
Proof.
  intros Hx; unfold toUnsignedLong.
  rewrite Rtrunc_nonneg by lra.
  pose proof (Zfloor_range x 2147483648 Hx) as Hr.
  rewrite Z.mod_small by lia.
  destruct (Z.gtb_spec (Zfloor x) 2147483647); [lia | reflexivity].
Qed.

Lemma Zfloor_Zceil_whole (x : R) : x = IZR (Zfloor x) -> Zceil x = Zfloor x.
Proof.
  intros E; apply Zceil_eq; rewrite <- E; lra.
Qed.

(** What [resizeCanvas] leaves, read off its definition. *)
Lemma resizeCanvas_ready (h : Host) (f : Fields) (node : string) :
  flowchart f = Some node ->
  let rect := getBoundingClientRect h node in
  let r := pixelRatioOf h in
  resizeCanvas h (Ready f) =
  Normal (Ready (with_canvas
    (mkCanvas (toUnsignedLong 300 (double (rectWidth rect * r)))
              (toUnsignedLong 150 (double (rectHeight rect * r)))
              (Some (px (rectWidth rect))) (Some (px (rectHeight rect)))
              (mkContext (1 * r) (1 * r) "round" "round"
                         "#000000" "#000000" 1 [] [])) f)).
Proof.
  intros E; unfold resizeCanvas; rewrite (flowchartRect_ready h f node E).
  reflexivity.
Qed.

(** A container 101 by 50 pixels on a screen of ratio 3/2. *)
Definition wideHost : Host :=
  mkHost (fun id => if String.eqb id "flowchart"
                    then Some (mkElement (mkRect 0 0 101 50) None)
                    else None)
         (Some (3 / 2)) (fun _ => "") (fun _ => true).

Definition blankCanvas : Canvas := mkCanvas 300 150 None None defaultContext.

Definition plainFields : Fields :=
  mkFields blankCanvas (Some "flowchart") "default" "" 3 8.

(** C2 as the specification words it: buffer [ceil(w*r)] by [ceil(h*r)],
    display size [w] by [h]. *)
Definition resize_rounds_up (h : Host) (f : Fields) (node : string) : Prop :=
  let rect := getBoundingClientRect h node in
  let r := pixelRatioOf h in
  exists f',
    resizeCanvas h (Ready f) = Normal (Ready f') /\
    canvasWidth (canvas f') = Zceil (rectWidth rect * r) /\
    canvasHeight (canvas f') = Zceil (rectHeight rect * r) /\
    styleWidth (canvas f') = Some (px (rectWidth rect)) /\
    styleHeight (canvas f') = Some (px (rectHeight rect)).

Lemma pixelRatioOf_wideHost : pixelRatioOf wideHost = 3 / 2.
Proof.
  unfold pixelRatioOf; simpl.
  destruct (Req_dec_T (3 / 2) 0) as [E | _]; [lra | reflexivity].
Qed.

(** 101 * 1.5 and 50 * 1.5 are doubles: the code computes them exactly. *)
Lemma double_wide : double (101 * (3 / 2)) = 303 / 2.
Proof.
  replace (101 * (3 / 2)) with (303 / 2) by lra.
  apply double_halves. cbn; lia.
Qed.

Lemma double_high : double (50 * (3 / 2)) = 75.
Proof.
  replace (50 * (3 / 2)) with 75 by lra.
  apply double_whole. cbn; lia.
Qed.

(** A container 10 by 10 pixels at the ratio the literal [0.7] denotes,
    the double 6305039478318694 * 2^-53. *)
Definition zoomedHost : Host :=
  mkHost (fun id => if String.eqb id "flowchart"
                    then Some (mkElement (mkRect 0 0 10 10) None)
                    else None)
         (Some (6305039478318694 / 9007199254740992))
         (fun _ => "") (fun _ => true).

Lemma pixelRatioOf_zoomedHost :
  pixelRatioOf zoomedHost = 6305039478318694 / 9007199254740992.
Proof.
  unfold pixelRatioOf; simpl.
  destruct (Req_dec_T _ 0) as [E | _]; [lra | reflexivity].
Qed.

(** C2, counterexample: a container 101 pixels wide at ratio 3/2 gets a
    buffer 151 pixels wide, and the ceiling of 151.5 is 152. *)
Lemma resize_rounds_up_fails :
  ~ resize_rounds_up wideHost plainFields "flowchart".
Proof.
  unfold resize_rounds_up.
  intros (f' & Hr & Hw & _).
  rewrite (resizeCanvas_ready wideHost plainFields "flowchart" eq_refl) in Hr.
  injection Hr as <-.
  cbn [canvas with_canvas canvasWidth] in Hw.
  rewrite pixelRatioOf_wideHost in Hw.
  change (rectWidth (getBoundingClientRect wideHost "flowchart")) with 101 in Hw.
  rewrite double_wide in Hw.
  rewrite toUnsignedLong_floor in Hw by lra.
  assert (Hf : Zfloor (303 / 2) = 151%Z) by (apply Zfloor_eq; lra).
  assert (Hc : Zceil (101 * (3 / 2)) = 152%Z) by (apply Zceil_eq; lra).
  rewrite Hf, Hc in Hw; discriminate.
Qed.

(** The buffer dimension a product in the range of layout sizes gives:
    the integer part of the double product, which is the integer part of
    the exact product or the whole number above it. *)
Lemma toUnsignedLong_double (d : Z) (x : R) :
  0 <= x <= 2147483647 ->
  toUnsignedLong d (double x) = Zfloor (double x) /\
  (Zfloor x <= Zfloor (double x) <= Zceil x)%Z.
Proof.
  intros [L U].
  assert (B : Rabs x < 9007199254740992) by (rewrite Rabs_pos_eq; lra).
  destruct (double_between_wholes x 0 2147483647 B) as [L' U']; [lra | ].
  split; [apply toUnsignedLong_floor; lra | apply Zfloor_double, B].
Qed.

(** C2, amended: for a container [w] by [h] and a pixel ratio [r] with
    products in the range of layout sizes, [resizeCanvas] returns; the
    products are assigned as the code computes them, with no rounding up,
    and the canvas keeps their integer part: the buffer is
    [floor(double(w*r))] by [floor(double(h*r))], which lies between
    [floor] and [ceil] of the exact product and is the product itself when
    that is whole; the display size is [w] by [h] pixels. *)
Theorem resizeCanvas_sets_size (h : Host) (f : Fields) (node : string) :
  flowchart f = Some node ->
  let rect := getBoundingClientRect h node in
  let r := pixelRatioOf h in
  0 <= rectWidth rect * r <= 2147483647 ->
  0 <= rectHeight rect * r <= 2147483647 ->
  exists f',
    resizeCanvas h (Ready f) = Normal (Ready f') /\
    canvasWidth (canvas f') = Zfloor (double (rectWidth rect * r)) /\
    canvasHeight (canvas f') = Zfloor (double (rectHeight rect * r)) /\
    (Zfloor (rectWidth rect * r) <= canvasWidth (canvas f')
       <= Zceil (rectWidth rect * r))%Z /\
    (Zfloor (rectHeight rect * r) <= canvasHeight (canvas f')
       <= Zceil (rectHeight rect * r))%Z /\
    (rectWidth rect * r = IZR (Zfloor (rectWidth rect * r)) ->
     canvasWidth (canvas f') = Zceil (rectWidth rect * r)) /\
    (rectHeight rect * r = IZR (Zfloor (rectHeight rect * r)) ->
     canvasHeight (canvas f') = Zceil (rectHeight rect * r)) /\
    styleWidth (canvas f') = Some (px (rectWidth rect)) /\
    styleHeight (canvas f') = Some (px (rectHeight rect)).
Proof.
  intros E rect r Hw Hh.
  eexists; split; [apply (resizeCanvas_ready h f node E) | ].
  cbn [canvas with_canvas canvasWidth canvasHeight styleWidth styleHeight].
  fold rect; fold r.
  destruct (toUnsignedLong_double 300 _ Hw) as [-> Bw].
  destruct (toUnsignedLong_double 150 _ Hh) as [-> Bh].
  split; [reflexivity | ].
  split; [reflexivity | ].
  split; [exact Bw | ].
  split; [exact Bh | ].
  split; [ | split; [ | split; reflexivity]].
  - intros W. apply Zfloor_Zceil_whole in W. lia.
  - intros W. apply Zfloor_Zceil_whole in W. lia.
Qed.

(** At 101 by 50 pixels and ratio 3/2 the buffer is 151 by 75; at 10 by 10
    pixels and ratio 0.7 the double product is 7, and so is the buffer,
    one more than the integer part of the exact product. *)
Lemma resizeCanvas_sets_size_witness :
  (exists f',
    resizeCanvas wideHost (Ready plainFields) = Normal (Ready f') /\
    canvasWidth (canvas f') = 151%Z /\
    canvasHeight (canvas f') = 75%Z /\
    styleWidth (canvas f') = Some (px 101) /\
    styleHeight (canvas f') = Some (px 50)) /\
  (exists f',
    resizeCanvas zoomedHost (Ready plainFields) = Normal (Ready f') /\
    canvasWidth (canvas f') = 7%Z /\
    canvasHeight (canvas f') = 7%Z /\
    Zfloor (10 * (6305039478318694 / 9007199254740992)) = 6%Z).
Proof.
  split.
  - assert (Hw : Zfloor (303 / 2) = 151%Z) by (apply Zfloor_eq; lra).
    assert (Hh : Zfloor 75 = 75%Z) by (apply Zfloor_eq; lra).
    destruct (resizeCanvas_sets_size wideHost plainFields "flowchart" eq_refl)
      as (f' & Hr & Hcw & Hch & _ & _ & _ & _ & Hsw & Hsh).
    + rewrite pixelRatioOf_wideHost.
      change (rectWidth (getBoundingClientRect wideHost "flowchart")) with 101.
      lra.
    + rewrite pixelRatioOf_wideHost.
      change (rectHeight (getBoundingClientRect wideHost "flowchart")) with 50.
      lra.
    + rewrite pixelRatioOf_wideHost in Hcw, Hch.
      change (rectWidth (getBoundingClientRect wideHost "flowchart")) with 101
        in Hcw, Hsw.
      change (rectHeight (getBoundingClientRect wideHost "flowchart")) with 50
        in Hch, Hsh.
      rewrite double_wide in Hcw. rewrite double_high in Hch.
      exists f'; rewrite <- Hw, <- Hh; repeat split; assumption.
  - assert (H7 : Zfloor 7 = 7%Z) by (apply Zfloor_eq; lra).
    destruct (resizeCanvas_sets_size zoomedHost plainFields "flowchart" eq_refl)
      as (f' & Hr & Hcw & Hch & _).
    + rewrite pixelRatioOf_zoomedHost.
      change (rectWidth (getBoundingClientRect zoomedHost "flowchart")) with 10.
      lra.
    + rewrite pixelRatioOf_zoomedHost.
      change (rectHeight (getBoundingClientRect zoomedHost "flowchart")) with 10.
      lra.
    + rewrite pixelRatioOf_zoomedHost in Hcw, Hch.
      change (rectWidth (getBoundingClientRect zoomedHost "flowchart")) with 10
        in Hcw.
      change (rectHeight (getBoundingClientRect zoomedHost "flowchart")) with 10
        in Hch.
      rewrite double_ten_times_0_7, H7 in Hcw, Hch.
      exists f'; repeat split; try assumption.
      apply Zfloor_eq; lra.
Defined.

(** C8: on a connector bound to a container, [resizeCanvas] returns, and
    a second call with the same layout and pixel ratio returns the state
    the first one left: same buffer and display size, same transform (the
    ratio once, since assigning the width resets the context), same
    styles, blank bitmap. *)
Theorem resizeCanvas_idempotent (h : Host) (f : Fields) (node : string) :
  flowchart f = Some node ->
  exists f1,
    resizeCanvas h (Ready f) = Normal (Ready f1) /\
    resizeCanvas h (Ready f1) = Normal (Ready f1) /\
    scaleX (context (canvas f1)) = pixelRatioOf h /\
    scaleY (context (canvas f1)) = pixelRatioOf h.
Proof.
  intros E.
  eexists; split; [apply (resizeCanvas_ready h f node E) | ].
  split.
  - rewrite (resizeCanvas_ready h _ node) by exact E. reflexivity.
  - cbn [canvas with_canvas context scaleX scaleY]. split; lra.
Qed.

Lemma resizeCanvas_idempotent_witness :
  exists f1,
    resizeCanvas wideHost (Ready plainFields) = Normal (Ready f1) /\
    resizeCanvas wideHost (Ready f1) = Normal (Ready f1) /\
    scaleX (context (canvas f1)) = 3 / 2 /\
    scaleY (context (canvas f1)) = 3 / 2.
Proof.
  rewrite <- pixelRatioOf_wideHost.
  apply (resizeCanvas_idempotent wideHost plainFields "flowchart").
  reflexivity.
Defined.

(** ** Anchors *)

(** The box of the specification's example, inside its container. *)
Definition boxHost : Host :=
  mkHost (fun id =>
            if String.eqb id "flowchart"
            then Some (mkElement (mkRect 80 30 200 100) None)
            else if String.eqb id "box"
            then Some (mkElement (mkRect 100 50 40 20) None)
            else None)
         None (fun _ => "") (fun _ => true).

(** C3: on a connector bound to a container, for an element of the
    document each anchor has
    [x = elementLeft + elementWidth/2 - containerLeft]; [y] is
    [elementTop + elementHeight/2 - containerTop] for the centre,
    [elementBottom - containerTop] for the bottom and
    [elementTop - containerTop] for the top.  For the box
    [{left:100, top:50, width:40, height:20}] in the container
    [{left:80, top:30}] the bottom anchor is [(40, 40)] and the top anchor
    [(40, 20)].  For an identifier that names no element each anchor is
    [null], on any connector. *)
Theorem anchors_correct :
  (forall (h : Host) (f : Fields) (node elementId : string) (element : Element),
      flowchart f = Some node ->
      getElementById h elementId = Some element ->
      let e := boundingClientRect element in
      let c := getBoundingClientRect h node in
      let x := rectLeft e + rectWidth e / 2 - rectLeft c in
      getElementCenter h (Ready f) elementId =
        Normal (Some (mkPoint x (rectTop e + rectHeight e / 2 - rectTop c))) /\
      getElementBottom h (Ready f) elementId =
        Normal (Some (mkPoint x (rectBottom e - rectTop c))) /\
      getElementTop h (Ready f) elementId =
        Normal (Some (mkPoint x (rectTop e - rectTop c)))) /\
  (exists bx by' tx ty,
      getElementBottom boxHost (Ready plainFields) "box" =
        Normal (Some (mkPoint bx by')) /\
      getElementTop boxHost (Ready plainFields) "box" =
        Normal (Some (mkPoint tx ty)) /\
      bx = 40 /\ by' = 40 /\ tx = 40 /\ ty = 20) /\
  (forall (h : Host) (this : FlowchartConnector) (elementId : string),
      getElementById h elementId = None ->
      getElementCenter h this elementId = Normal None /\
      getElementBottom h this elementId = Normal None /\
      getElementTop h this elementId = Normal None).
Proof.
  split; [ | split].
  - intros h f node elementId element E G e c x.
    unfold getElementCenter, getElementBottom, getElementTop.
    rewrite G, (flowchartRect_ready h f node E).
    repeat split; reflexivity.
  - do 4 eexists.
    split; [reflexivity | ]. split; [reflexivity | ].
    unfold rectBottom, getBoundingClientRect; simpl.
    repeat split; lra.
  - intros h this elementId G.
    unfold getElementCenter, getElementBottom, getElementTop.
    rewrite G. repeat split; reflexivity.
Qed.

Lemma anchors_correct_witness :
  getElementCenter boxHost (Ready plainFields) "box" =
    Normal (Some (mkPoint (100 + 40 / 2 - 80) (50 + 20 / 2 - 30))) /\
  getElementBottom boxHost (Ready plainFields) "box" =
    Normal (Some (mkPoint (100 + 40 / 2 - 80) (50 + 20 - 30))) /\
  getElementTop boxHost (Ready plainFields) "box" =
    Normal (Some (mkPoint (100 + 40 / 2 - 80) (50 - 30))) /\
  getElementTop boxHost Unbound "nowhere" = Normal None.
Proof.
  destruct anchors_correct as (Found & _ & Missing).
  split; [ | split; [ | split]].
  - apply (Found boxHost plainFields "flowchart" "box"
                 (mkElement (mkRect 100 50 40 20) None)); reflexivity.
  - apply (Found boxHost plainFields "flowchart" "box"
                 (mkElement (mkRect 100 50 40 20) None)); reflexivity.
  - apply (Found boxHost plainFields "flowchart" "box"
                 (mkElement (mkRect 100 50 40 20) None)); reflexivity.
  - apply (Missing boxHost Unbound "nowhere"); reflexivity.
Defined.

(** ** Colour tokens *)

(** A text of the shape [var(--name)]: the name is not empty and holds no
    closing parenthesis. *)
Definition is_var_reference (sub : string) : Prop :=
  exists name,
    sub = "var(--" ++ name ++ ")" /\
    name <> "" /\
    forall a b, name <> a ++ String ")" b.

Definition contains_var_reference (s : string) : Prop :=
  exists pre sub post, s = pre ++ sub ++ post /\ is_var_reference sub.

Lemma append_assoc (a b c : string) : (a ++ b) ++ c = a ++ (b ++ c).
Proof. induction a as [| x a IH]; simpl; [reflexivity | now rewrite IH]. Qed.

Lemma strip_prefix_app (p rest : string) : strip_prefix p (p ++ rest) = Some rest.
Proof.
  induction p as [| a p IH]; simpl; [reflexivity | ].
  now rewrite Ascii.eqb_refl.
Qed.

Lemma strip_prefix_sound (p s rest : string) :
  strip_prefix p s = Some rest -> s = p ++ rest.
Proof.
  revert s; induction p as [| a p IH]; intros s H; simpl in *.
  - now injection H as ->.
  - destruct s as [| b s]; [discriminate | ].
    destruct (Ascii.eqb_spec a b) as [-> | _]; [ | discriminate].
    now rewrite (IH s H).
Qed.

Lemma until_paren_sound (s name : string) :
  until_paren s = Some name ->
  (exists post, s = name ++ String ")" post) /\
  forall a b, name <> a ++ String ")" b.
Proof.
  revert name; induction s as [| c r IH]; intros name H; simpl in H.
  - discriminate.
  - destruct (Ascii.eqb_spec c ")") as [-> | Hc].
    + injection H as <-. split; [now exists r | ].
      intros [| x a] b; discriminate.
    + destruct (until_paren r) as [n |]; [ | discriminate].
      injection H as <-.
      destruct (IH n eq_refl) as [[post ->] Hn].
      split; [now exists post | ].
      intros [| x a] b E; simpl in E.
      * injection E as E _. now apply Hc.
      * injection E as _ E. now apply (Hn a b).
Qed.

Lemma until_paren_complete (name post : string) :
  (forall a b, name <> a ++ String ")" b) ->
  until_paren (name ++ String ")" post) = Some name.
Proof.
  induction name as [| c n IH]; intros Hn; simpl.
  - reflexivity.
  - destruct (Ascii.eqb_spec c ")") as [-> | _].
    + exfalso. now apply (Hn "" n).
    + rewrite IH; [reflexivity | ].
      intros a b E. apply (Hn (String c a) b). simpl. now rewrite E.
Qed.

Lemma match_var_here_sound (s g : string) :
  match_var_here s = Some g ->
  exists sub post, s = sub ++ post /\ is_var_reference sub.
Proof.
  unfold match_var_here; intros H.
  destruct (strip_prefix "var(--" s) as [rest |] eqn:P; [ | discriminate].
  destruct (until_paren rest) as [name |] eqn:U; [ | discriminate].
  destruct name as [| c n]; [discriminate | ].
  destruct (until_paren_sound _ _ U) as [[post ->] Hn].
  exists ("var(--" ++ String c n ++ ")"), post. split.
  - rewrite (strip_prefix_sound _ _ _ P), !append_assoc. reflexivity.
  - exists (String c n). repeat split; [discriminate | exact Hn].
Qed.

Lemma match_var_here_complete (sub post : string) :
  is_var_reference sub -> match_var_here (sub ++ post) <> None.
Proof.
  intros (name & -> & Hne & Hn).
  unfold match_var_here.
  rewrite append_assoc, strip_prefix_app, append_assoc.
  change (")" ++ post) with (String ")" post).
  rewrite (until_paren_complete name post Hn).
  destruct name; [contradiction | discriminate].
Qed.

Lemma match_var_unfold (s : string) :
  match_var s =
  match match_var_here s with
  | Some g => Some g
  | None => match s with
            | EmptyString => None
            | String _ r => match_var r
            end
  end.
Proof. destruct s; reflexivity. Qed.

(** The search finds a reference exactly when the text holds one. *)
Lemma match_var_sound (s g : string) :
  match_var s = Some g -> contains_var_reference s.
Proof.
  induction s as [| c r IH]; rewrite match_var_unfold;
    destruct (match_var_here _) as [g' |] eqn:M; intros H.
  - destruct (match_var_here_sound _ _ M) as (sub & post & E & R).
    exists "", sub, post. now split.
  - discriminate.
  - destruct (match_var_here_sound _ _ M) as (sub & post & E & R).
    exists "", sub, post. now split.
  - destruct (IH H) as (pre & sub & post & -> & R).
    exists (String c pre), sub, post. now split.
Qed.

Lemma match_var_complete (s : string) :
  contains_var_reference s -> match_var s <> None.
Proof.
  intros (pre & sub & post & -> & R).
  induction pre as [| c pre IH]; rewrite match_var_unfold.
  - pose proof (match_var_here_complete sub post R) as M. simpl.
    destruct (match_var_here (sub ++ post)); [discriminate | contradiction].
  - destruct (match_var_here _); [discriminate | exact IH].
Qed.

Lemma match_var_None_iff (s : string) :
  match_var s = None <-> ~ contains_var_reference s.
Proof.
  split.
  - intros N C. now apply (match_var_complete s C).
  - intros N. destruct (match_var s) as [g |] eqn:M; [ | reflexivity].
    exfalso. apply N. now apply (match_var_sound s g).
Qed.

(** C10: a colour that starts with [var(] and holds no text of the shape
    [var(--name)] makes [resolveColor] throw a [TypeError], and so does
    [drawArrow] called with it; ["var(x)"] is such a colour. *)
Theorem resolveColor_throws_on_malformed_var (h : Host) (color : string) :
  startsWith "var(" color = true ->
  ~ contains_var_reference color ->
  resolveColor h (Some color) = Throw TypeError /\
  (forall (this : FlowchartConnector) (fromX fromY toX toY : R),
      drawArrow h this fromX fromY toX toY (Some color) = Throw TypeError) /\
  resolveColor h (Some "var(x)") = Throw TypeError.
Proof.
  intros S N.
  assert (T : resolveColor h (Some color) = Throw TypeError).
  { unfold resolveColor. rewrite S.
    now rewrite (proj2 (match_var_None_iff color) N). }
  split; [exact T | split; [ | reflexivity]].
  intros this fromX fromY toX toY.
  unfold drawArrow. cbn [colorOrLineColor]. now rewrite T.
Qed.

Lemma resolveColor_throws_on_malformed_var_witness :
  resolveColor boxHost (Some "var(x)") = Throw TypeError /\
  drawArrow boxHost (Ready plainFields) 0 0 100 0 (Some "var(x)")
    = Throw TypeError.
Proof.
  destruct (resolveColor_throws_on_malformed_var boxHost "var(x)")
    as (T & A & _).
  - reflexivity.
  - apply match_var_None_iff. reflexivity.
  - split; [exact T | apply A].
Defined.

(** ** Arrows *)

(** The point at distance [dist] from [(x, y)] in the direction [angle]. *)
Definition offsetAt (x y dist angle : R) : R * R :=
  (x + dist * cos angle, y + dist * sin angle).

Lemma cos_back (a b : R) : - cos (a - b) = cos (a + PI - b).
Proof. replace (a + PI - b) with (a - b + PI) by lra. now rewrite neg_cos. Qed.

Lemma sin_back (a b : R) : - sin (a - b) = sin (a + PI - b).
Proof. replace (a + PI - b) with (a - b + PI) by lra. now rewrite neg_sin. Qed.

Lemma cos_back' (a b : R) : - cos (a + b) = cos (a + PI + b).
Proof. replace (a + PI + b) with (a + b + PI) by lra. now rewrite neg_cos. Qed.

Lemma sin_back' (a b : R) : - sin (a + b) = sin (a + PI + b).
Proof. replace (a + PI + b) with (a + b + PI) by lra. now rewrite neg_sin. Qed.

(** The corners [drawArrow] computes are the destination moved by the
    head size along the reversed direction turned by 30 degrees. *)
Lemma head_corners (size toX toY angle : R) :
  (toX - size * cos (angle - PI / 6), toY - size * sin (angle - PI / 6))
    = offsetAt toX toY size (angle + PI - PI / 6) /\
  (toX - size * cos (angle + PI / 6), toY - size * sin (angle + PI / 6))
    = offsetAt toX toY size (angle + PI + PI / 6).
Proof.
  unfold offsetAt.
  rewrite <- cos_back, <- sin_back, <- cos_back', <- sin_back'.
  split; f_equal; lra.
Qed.

Lemma offsetAt_distance (x y dist angle : R) :
  let p := offsetAt x y dist angle in
  (fst p - x) * (fst p - x) + (snd p - y) * (snd p - y) = dist * dist.
Proof.
  unfold offsetAt; simpl.
  pose proof (sin2_cos2 angle) as H. unfold Rsqr in H. nra.
Qed.

Lemma atan2_right (x : R) : 0 < x -> atan2 0 x = 0.
Proof.
  intros Hx; unfold atan2.
  destruct (Rlt_dec 0 x) as [_ | N]; [ | contradiction].
  replace (0 / x) with 0 by (field; lra). apply atan_0.
Qed.

(** [atan2] is the direction of the vector: scaled by the length it gives
    the vector back. *)
Lemma hypot_scaled (x y : R) :
  x <> 0 -> sqrt (1 + (y / x)²) * Rabs x = sqrt (x * x + y * y).
Proof.
  intros Hx.
  rewrite <- (sqrt_Rsqr_abs x), <- sqrt_mult.
  - f_equal. unfold Rsqr. field. exact Hx.
  - pose proof (Rle_0_sqr (y / x)). lra.
  - apply Rle_0_sqr.
Qed.

Lemma hypot_pos (x y : R) : x <> 0 \/ y <> 0 -> 0 < sqrt (x * x + y * y).
Proof.
  intros H. apply sqrt_lt_R0.
  destruct H as [H | H]; nra.
Qed.

Lemma atan_direction (x y : R) :
  x <> 0 ->
  sqrt (x * x + y * y) * cos (atan (y / x)) = Rabs x /\
  sqrt (x * x + y * y) * sin (atan (y / x)) = y / x * Rabs x.
Proof.
  intros Hx.
  rewrite cos_atan, sin_atan, <- (hypot_scaled x y Hx).
  assert (S : 0 < sqrt (1 + (y / x)²)).
  { apply sqrt_lt_R0. pose proof (Rle_0_sqr (y / x)). lra. }
  split; field; lra.
Qed.

Lemma atan2_direction (x y : R) :
  x <> 0 \/ y <> 0 ->
  sqrt (x * x + y * y) * cos (atan2 y x) = x /\
  sqrt (x * x + y * y) * sin (atan2 y x) = y.
Proof.
  intros H. unfold atan2.
  destruct (Rlt_dec 0 x) as [Px | Nx].
  - destruct (atan_direction x y ltac:(lra)) as [C S].
    rewrite C, S, Rabs_right by lra. split; [reflexivity | field; lra].
  - destruct (Rlt_dec x 0) as [Mx | Zx].
    + destruct (atan_direction x y ltac:(lra)) as [C S].
      rewrite Rabs_left in C, S by lra.
      destruct (Rle_dec 0 y).
      * rewrite neg_cos, neg_sin. split; [lra | ].
        rewrite Ropp_mult_distr_r_reverse, S. field; lra.
      * replace (atan (y / x) - PI) with (- (- atan (y / x) + PI)) by lra.
        rewrite cos_neg, sin_neg, neg_cos, neg_sin, cos_neg, sin_neg.
        split; [lra | ].
        rewrite !Ropp_involutive, Ropp_mult_distr_r_reverse, S. field; lra.
    + assert (x = 0) by lra. subst x.
      assert (Hy : y <> 0) by (destruct H; lra).
      replace (0 * 0 + y * y) with (Rsqr y) by (unfold Rsqr; lra).
      rewrite sqrt_Rsqr_abs.
      destruct (Rlt_dec 0 y).
      * rewrite cos_PI2, sin_PI2, Rabs_right by lra. lra.
      * destruct (Rlt_dec y 0); [ | lra].
        rewrite cos_neg, sin_neg, cos_PI2, sin_PI2, Rabs_left by lra. lra.
Qed.

(** The context [paintArrow] leaves. *)
Lemma paintArrow_eq (valid : string -> bool) (color : string)
      (width size fromX fromY toX toY : R) (g : Context2D) :
  let angle := atan2 (toY - fromY) (toX - fromX) in
  let head :=
    [ MoveTo (scaleX g * toX) (scaleY g * toY);
      LineTo (scaleX g * (toX - size * cos (angle - PI / 6)))
             (scaleY g * (toY - size * sin (angle - PI / 6)));
      LineTo (scaleX g * (toX - size * cos (angle + PI / 6)))
             (scaleY g * (toY - size * sin (angle + PI / 6)));
      ClosePath ] in
  let stroke' := if valid color then color else strokeStyle g in
  let fill' := if valid color then color else fillStyle g in
  let width' := if Rlt_dec 0 width then width else ctxLineWidth g in
  paintArrow valid color width size fromX fromY toX toY g =
  mkContext (scaleX g) (scaleY g) (lineCap g) (lineJoin g)
            stroke' fill' width' head
            (bitmap g ++
             [ Stroked [ MoveTo (scaleX g * fromX) (scaleY g * fromY);
                         LineTo (scaleX g * toX) (scaleY g * toY) ]
                       stroke' width' (lineCap g) (lineJoin g)
                       (scaleX g) (scaleY g);
               Filled head fill' ]).
Proof.
  intros angle head stroke' fill' width'.
  match goal with
  | |- _ = mkContext _ _ _ _ _ _ _ _ (?l ++ [?X; ?Y])%list =>
      replace (l ++ [X; Y])%list with ((l ++ [X]) ++ [Y])%list
        by (now rewrite <- app_assoc)
  end.
  subst stroke' fill' width' head angle.
  destruct g as [sx sy cap join ss fs lw p b].
  unfold paintArrow, Ctx.setStrokeStyle, Ctx.setFillStyle, Ctx.setLineWidth.
  destruct (valid color), (Rlt_dec 0 width);
    cbv beta iota zeta delta
        [Ctx.beginPath Ctx.moveTo Ctx.lineTo Ctx.closePath Ctx.stroke Ctx.fill
         Ctx.setPath Ctx.paint scaleX scaleY lineCap lineJoin strokeStyle
         fillStyle ctxLineWidth path bitmap app];
    reflexivity.
Qed.

(** What [drawArrow] paints on a bound connector once the colour resolves. *)
Lemma drawArrow_ready (h : Host) (f : Fields) (fromX fromY toX toY : R)
      (color resolved : string) :
  resolveColor h (Some color) = Normal resolved ->
  let g := context (canvas f) in
  let angle := atan2 (toY - fromY) (toX - fromX) in
  exists f',
    drawArrow h (Ready f) fromX fromY toX toY (Some color) = Normal (Ready f') /\
    flowchart f' = flowchart f /\
    connectionType f' = connectionType f /\
    arrowSize f' = arrowSize f /\
    lineWidth f' = lineWidth f /\
    let g' := context (canvas f') in
    scaleX g' = scaleX g /\ scaleY g' = scaleY g /\
    canvasWidth (canvas f') = canvasWidth (canvas f) /\
    canvasHeight (canvas f') = canvasHeight (canvas f) /\
    strokeStyle g' = (if validColor h resolved then resolved else strokeStyle g) /\
    fillStyle g' = (if validColor h resolved then resolved else fillStyle g) /\
    bitmap g' =
      (bitmap g ++
      [ Stroked [ MoveTo (scaleX g * fromX) (scaleY g * fromY);
                  LineTo (scaleX g * toX) (scaleY g * toY) ]
                (strokeStyle g') (ctxLineWidth g')
                (lineCap g) (lineJoin g) (scaleX g) (scaleY g);
        Filled [ MoveTo (scaleX g * toX) (scaleY g * toY);
                 LineTo (scaleX g * (toX - arrowSize f * cos (angle - PI / 6)))
                        (scaleY g * (toY - arrowSize f * sin (angle - PI / 6)));
                 LineTo (scaleX g * (toX - arrowSize f * cos (angle + PI / 6)))
                        (scaleY g * (toY - arrowSize f * sin (angle + PI / 6)));
                 ClosePath ]
               (fillStyle g') ])%list.
Proof.
  intros Hc g angle.
  unfold drawArrow. cbn [colorOrLineColor]. rewrite Hc, bind_Normal.
  eexists; split; [reflexivity | ].
  cbn [on_ctx with_canvas with_context canvas flowchart connectionType
       arrowSize lineWidth context canvasWidth canvasHeight].
  fold g. rewrite paintArrow_eq. cbn [scaleX scaleY strokeStyle fillStyle
                                     ctxLineWidth bitmap].
  repeat split; reflexivity.
Qed.

(** C5: for all endpoints, once the colour resolves, [drawArrow] strokes
    the line and fills one triangle.  The triangle starts at the
    destination, and its two other corners are the destination moved by
    [arrowSize] in the directions 30 degrees (PI/6) either side of the
    reversed line direction [atan2(dy, dx) + PI], which points from the
    destination to the source; both are at distance [arrowSize] from the
    destination.  Nothing else is filled, so no head is drawn at the
    source.  For the arrow from (0,0) to (100,0) with
    [arrowSize] 8 the corners are [(100 - 8 cos(PI/6), 8 sin(PI/6))] and
    [(100 - 8 cos(PI/6), - 8 sin(PI/6))]. *)
Theorem drawArrow_head_geometry :
  (forall (h : Host) (f : Fields) (fromX fromY toX toY : R)
          (color resolved : string),
      resolveColor h (Some color) = Normal resolved ->
      let g := context (canvas f) in
      let back := atan2 (toY - fromY) (toX - fromX) + PI in
      let p1 := offsetAt toX toY (arrowSize f) (back - PI / 6) in
      let p2 := offsetAt toX toY (arrowSize f) (back + PI / 6) in
      exists f' line style,
        drawArrow h (Ready f) fromX fromY toX toY (Some color)
          = Normal (Ready f') /\
        bitmap (context (canvas f')) =
          (bitmap g ++
           [ line;
             Filled [ MoveTo (scaleX g * toX) (scaleY g * toY);
                      LineTo (scaleX g * fst p1) (scaleY g * snd p1);
                      LineTo (scaleX g * fst p2) (scaleY g * snd p2);
                      ClosePath ] style ])%list /\
        (exists style' width cap join,
            line = Stroked [ MoveTo (scaleX g * fromX) (scaleY g * fromY);
                             LineTo (scaleX g * toX) (scaleY g * toY) ]
                           style' width cap join (scaleX g) (scaleY g)) /\
        (fst p1 - toX) * (fst p1 - toX) + (snd p1 - toY) * (snd p1 - toY)
          = arrowSize f * arrowSize f /\
        (fst p2 - toX) * (fst p2 - toX) + (snd p2 - toY) * (snd p2 - toY)
          = arrowSize f * arrowSize f /\
        (toX - fromX <> 0 \/ toY - fromY <> 0 ->
         let len := sqrt ((toX - fromX) * (toX - fromX)
                          + (toY - fromY) * (toY - fromY)) in
         len * cos back = fromX - toX /\ len * sin back = fromY - toY)) /\
  (let back := atan2 (0 - 0) (100 - 0) + PI in
   offsetAt 100 0 8 (back - PI / 6) = (100 - 8 * cos (PI / 6), 8 * sin (PI / 6)) /\
   offsetAt 100 0 8 (back + PI / 6) = (100 - 8 * cos (PI / 6), - 8 * sin (PI / 6))).
Proof.
  split.
  - intros h f fromX fromY toX toY color resolved Hc g back p1 p2.
    destruct (drawArrow_ready h f fromX fromY toX toY color resolved Hc)
      as (f' & Hd & _ & _ & _ & _ & _ & _ & _ & _ & _ & _ & Hb).
    fold g in Hb.
    destruct (head_corners (arrowSize f) toX toY
                (atan2 (toY - fromY) (toX - fromX))) as [H1 H2].
    fold back in H1, H2. fold p1 in H1. fold p2 in H2.
    apply (f_equal fst) in H1 as H1x. apply (f_equal snd) in H1 as H1y.
    apply (f_equal fst) in H2 as H2x. apply (f_equal snd) in H2 as H2y.
    cbn [fst snd] in H1x, H1y, H2x, H2y.
    rewrite H1x, H1y, H2x, H2y in Hb.
    do 3 eexists. split; [exact Hd | ].
    split; [exact Hb | ].
    split; [do 4 eexists; reflexivity | ].
    split; [apply offsetAt_distance | ].
    split; [apply offsetAt_distance | ].
    intros Hne len. unfold back. rewrite neg_cos, neg_sin.
    destruct (atan2_direction (toX - fromX) (toY - fromY) Hne) as [C S].
    fold len in C, S. split; lra.
  - intros back; subst back.
    replace (0 - 0) with 0 by lra. replace (100 - 0) with 100 by lra.
    rewrite atan2_right by lra.
    destruct (head_corners 8 100 0 0) as [H1 H2].
    rewrite <- H1, <- H2.
    replace (0 - PI / 6) with (- (PI / 6)) by lra.
    replace (0 + PI / 6) with (PI / 6) by lra.
    rewrite cos_neg, sin_neg. split; f_equal; lra.
Qed.

(** The host resolves every colour as it stands in this run: the arrow of
    the specification's example, on a context with the identity
    transform. *)
Lemma drawArrow_head_geometry_witness :
  exists f' line style x1 y1 x2 y2,
    drawArrow boxHost (Ready plainFields) 0 0 100 0 (Some "#ed8936")
      = Normal (Ready f') /\
    bitmap (context (canvas f')) =
      [ line;
        Filled [ MoveTo (1 * 100) (1 * 0); LineTo (1 * x1) (1 * y1);
                 LineTo (1 * x2) (1 * y2); ClosePath ] style ] /\
    x1 = 100 - 8 * (sqrt 3 / 2) /\ y1 = 4 /\
    x2 = 100 - 8 * (sqrt 3 / 2) /\ y2 = - 4.
Proof.
  destruct drawArrow_head_geometry as [General [E1 E2]].
  destruct (General boxHost plainFields 0 0 100 0 "#ed8936" "#ed8936" eq_refl)
    as (f' & line & style & Hd & Hb & _).
  exists f', line, style.
  do 4 eexists. split; [exact Hd | ]. split; [exact Hb | ].
  cbn [plainFields arrowSize].
  rewrite E1, E2. cbn [fst snd].
  rewrite cos_PI6, sin_PI6. repeat split; lra.
Defined.

(** ** Connections *)

(** Both ends of a connection are in the document. *)
Definition resolvable (h : Host) (conn : Connection) : bool :=
  match getElementById h (conn_from conn), getElementById h (conn_to conn) with
  | Some _, Some _ => true
  | _, _ => false
  end.

(** The line of a connection in buffer coordinates: from the bottom anchor
    of its source to the top anchor of its target; nothing when an end is
    missing.  It depends on the connector through its container and its
    transform only. *)
Definition lineOf (h : Host) (f : Fields) (conn : Connection)
  : list (list PathCmd) :=
  let g := context (canvas f) in
  match getElementBottom h (Ready f) (conn_from conn),
        getElementTop h (Ready f) (conn_to conn) with
  | Normal (Some p), Normal (Some q) =>
      [ [ MoveTo (scaleX g * pos_x p) (scaleY g * pos_y p);
          LineTo (scaleX g * pos_x q) (scaleY g * pos_y q) ] ]
  | _, _ => []
  end.

(** The paths stroked and the number of shapes filled in a run of paints. *)
Definition strokedPaths (paints : list Paint) : list (list PathCmd) :=
  flat_map (fun d => match d with
                     | Stroked p _ _ _ _ _ _ => [p]
                     | _ => []
                     end) paints.

Definition filledCount (paints : list Paint) : nat :=
  List.length (filter (fun d => match d with
                                | Filled _ _ => true
                                | _ => false
                                end) paints).

Definition colorsResolve (h : Host) (conns : list Connection) : Prop :=
  forall c, In c conns ->
            exists r, resolveColor h (Some (conn_color c)) = Normal r.

Lemma table_colors_resolve (h : Host) (type : string) :
  colorsResolve h (connectionsOf type).
Proof.
  unfold colorsResolve, connectionsOf; intros c Hc.
  destruct (String.eqb type "hachzarah"); simpl in Hc;
    repeat (destruct Hc as [<- | Hc]; [eexists; reflexivity | ]);
    contradiction.
Qed.

Lemma drawConnection_skips (h : Host) (f : Fields) (node : string)
      (conn : Connection) (color : option string) :
  flowchart f = Some node ->
  resolvable h conn = false ->
  drawConnection h (Ready f) (conn_from conn) (conn_to conn) color
    = Normal (Ready f).
Proof.
  intros E R. unfold resolvable in R.
  unfold drawConnection, getElementBottom, getElementTop.
  rewrite (flowchartRect_ready h f node E).
  destruct (getElementById h (conn_from conn)),
           (getElementById h (conn_to conn));
    try discriminate; reflexivity.
Qed.

Lemma drawConnection_draws (h : Host) (f : Fields) (node : string)
      (conn : Connection) (color : string) :
  flowchart f = Some node ->
  resolvable h conn = true ->
  exists p q,
    getElementBottom h (Ready f) (conn_from conn) = Normal (Some p) /\
    getElementTop h (Ready f) (conn_to conn) = Normal (Some q) /\
    drawConnection h (Ready f) (conn_from conn) (conn_to conn) (Some color)
      = drawArrow h (Ready f) (pos_x p) (pos_y p) (pos_x q) (pos_y q)
                  (Some color).
Proof.
  intros E R. unfold resolvable in R.
  unfold drawConnection, getElementBottom, getElementTop.
  rewrite (flowchartRect_ready h f node E).
  destruct (getElementById h (conn_from conn)),
           (getElementById h (conn_to conn));
    try discriminate.
  do 2 eexists. repeat split.
Qed.

Lemma lineOf_skipped (h : Host) (f : Fields) (node : string) (conn : Connection) :
  flowchart f = Some node -> resolvable h conn = false -> lineOf h f conn = [].
Proof.
  intros E R. unfold resolvable in R.
  unfold lineOf, getElementBottom, getElementTop.
  rewrite (flowchartRect_ready h f node E).
  destruct (getElementById h (conn_from conn)),
           (getElementById h (conn_to conn));
    try discriminate; reflexivity.
Qed.

Lemma lineOf_ext (h : Host) (f f' : Fields) (conn : Connection) :
  flowchart f' = flowchart f ->
  scaleX (context (canvas f')) = scaleX (context (canvas f)) ->
  scaleY (context (canvas f')) = scaleY (context (canvas f)) ->
  lineOf h f' conn = lineOf h f conn.
Proof.
  intros E X Y.
  unfold lineOf, getElementBottom, getElementTop, flowchartRect.
  now rewrite E, X, Y.
Qed.

Lemma strokedPaths_app (a b : list Paint) :
  strokedPaths (a ++ b) = (strokedPaths a ++ strokedPaths b)%list.
Proof. unfold strokedPaths. apply flat_map_app. Qed.

Lemma filledCount_app (a b : list Paint) :
  filledCount (a ++ b) = (filledCount a + filledCount b)%nat.
Proof. unfold filledCount. now rewrite filter_app, length_app. Qed.

(** What one call of [drawConnection] adds to the bitmap. *)
Lemma drawConnection_paints (h : Host) (f : Fields) (node : string)
      (conn : Connection) :
  flowchart f = Some node ->
  (exists r, resolveColor h (Some (conn_color conn)) = Normal r) ->
  exists f' paints,
    drawConnection h (Ready f) (conn_from conn) (conn_to conn)
                   (Some (conn_color conn)) = Normal (Ready f') /\
    flowchart f' = flowchart f /\
    connectionType f' = connectionType f /\
    scaleX (context (canvas f')) = scaleX (context (canvas f)) /\
    scaleY (context (canvas f')) = scaleY (context (canvas f)) /\
    canvasWidth (canvas f') = canvasWidth (canvas f) /\
    canvasHeight (canvas f') = canvasHeight (canvas f) /\
    bitmap (context (canvas f')) = (bitmap (context (canvas f)) ++ paints)%list /\
    strokedPaths paints = lineOf h f conn /\
    filledCount paints = List.length (lineOf h f conn).
Proof.
  intros E [r Hr].
  destruct (resolvable h conn) eqn:R.
  - destruct (drawConnection_draws h f node conn (conn_color conn) E R)
      as (p & q & Hp & Hq & Hd).
    destruct (drawArrow_ready h f (pos_x p) (pos_y p) (pos_x q) (pos_y q)
                              (conn_color conn) r Hr)
      as (f' & Ha & Hf & Ht & _ & _ & Hx & Hy & Hw & Hh & _ & _ & Hb).
    exists f'. eexists. rewrite Hd.
    repeat (split; [eassumption | ]).
    unfold lineOf. rewrite Hp, Hq. split; reflexivity.
  - exists f, []. rewrite (drawConnection_skips h f node conn _ E R).
    rewrite (lineOf_skipped h f node conn E R), app_nil_r.
    repeat split; reflexivity.
Qed.

(** What the loop over a table adds to the bitmap: the lines of its
    connections, in the order of the table. *)
Lemma forEachConnection_paints (h : Host) (node : string)
      (conns : list Connection) :
  colorsResolve h conns ->
  forall f,
    flowchart f = Some node ->
    exists f' paints,
      forEachConnection h conns (Ready f) = Normal (Ready f') /\
      flowchart f' = flowchart f /\
      connectionType f' = connectionType f /\
      scaleX (context (canvas f')) = scaleX (context (canvas f)) /\
      scaleY (context (canvas f')) = scaleY (context (canvas f)) /\
      canvasWidth (canvas f') = canvasWidth (canvas f) /\
      canvasHeight (canvas f') = canvasHeight (canvas f) /\
      bitmap (context (canvas f')) = (bitmap (context (canvas f)) ++ paints)%list /\
      strokedPaths paints = flat_map (lineOf h f) conns /\
      filledCount paints = List.length (flat_map (lineOf h f) conns).
Proof.
  induction conns as [| conn rest IH]; intros Hc f E.
  - exists f, []. rewrite app_nil_r. repeat split; reflexivity.
  - destruct (drawConnection_paints h f node conn E (Hc conn (or_introl eq_refl)))
      as (f1 & p1 & D1 & F1 & T1 & X1 & Y1 & W1 & H1 & B1 & S1 & C1).
    destruct (IH (fun c Hin => Hc c (or_intror Hin)) f1 (eq_trans F1 E))
      as (f2 & p2 & D2 & F2 & T2 & X2 & Y2 & W2 & H2 & B2 & S2 & C2).
    exists f2, (p1 ++ p2)%list.
    cbn [forEachConnection]. rewrite D1, bind_Normal, D2.
    assert (L : flat_map (lineOf h f1) rest = flat_map (lineOf h f) rest).
    { apply flat_map_ext; intros c. now apply lineOf_ext. }
    repeat split; try congruence.
    + rewrite B2, B1. now rewrite app_assoc.
    + rewrite strokedPaths_app, S1, S2, L. reflexivity.
    + rewrite filledCount_app, C1, C2, L. cbn [flat_map].
      now rewrite length_app.
Qed.

(** The loop passes over the connections that have a missing end: it does
    what it would do on the table without them. *)
Lemma forEachConnection_filter (h : Host) (node : string)
      (conns : list Connection) :
  forall f,
    flowchart f = Some node ->
    forEachConnection h conns (Ready f)
      = forEachConnection h (filter (resolvable h) conns) (Ready f).
Proof.
  induction conns as [| conn rest IH]; intros f E; [reflexivity | ].
  cbn [forEachConnection filter].
  destruct (resolvable h conn) eqn:R.
  - cbn [forEachConnection].
    destruct (drawConnection_draws h f node conn (conn_color conn) E R)
      as (p & q & _ & _ & ->).
    destruct (resolveColor h (Some (conn_color conn))) as [r | e] eqn:Hr.
    + destruct (drawArrow_ready h f (pos_x p) (pos_y p) (pos_x q) (pos_y q)
                                (conn_color conn) r Hr)
        as (f' & -> & Hf & _).
      rewrite !bind_Normal. apply IH. now rewrite Hf.
    + unfold drawArrow. cbn [colorOrLineColor]. rewrite Hr. reflexivity.
  - rewrite (drawConnection_skips h f node conn _ E R), bind_Normal.
    now apply IH.
Qed.

(** The width strokes are drawn with: [this.lineWidth], or the width the
    context had when that is not a positive number. *)
Definition effectiveWidth (f : Fields) : R :=
  if Rlt_dec 0 (lineWidth f) then lineWidth f
  else ctxLineWidth (context (canvas f)).

(** The stroke and the fill of one connection, when its colour is one the
    canvas accepts. *)
Definition arrowPaints (h : Host) (f : Fields) (conn : Connection)
  : list Paint :=
  let g := context (canvas f) in
  match getElementBottom h (Ready f) (conn_from conn),
        getElementTop h (Ready f) (conn_to conn),
        resolveColor h (Some (conn_color conn)) with
  | Normal (Some p), Normal (Some q), Normal color =>
      let angle := atan2 (pos_y q - pos_y p) (pos_x q - pos_x p) in
      [ Stroked [ MoveTo (scaleX g * pos_x p) (scaleY g * pos_y p);
                  LineTo (scaleX g * pos_x q) (scaleY g * pos_y q) ]
                color (effectiveWidth f) (lineCap g) (lineJoin g)
                (scaleX g) (scaleY g);
        Filled [ MoveTo (scaleX g * pos_x q) (scaleY g * pos_y q);
                 LineTo (scaleX g * (pos_x q - arrowSize f * cos (angle - PI / 6)))
                        (scaleY g * (pos_y q - arrowSize f * sin (angle - PI / 6)));
                 LineTo (scaleX g * (pos_x q - arrowSize f * cos (angle + PI / 6)))
                        (scaleY g * (pos_y q - arrowSize f * sin (angle + PI / 6)));
                 ClosePath ]
               color ]
  | _, _, _ => []
  end.

(** Two connectors that agree on what [arrowPaints] reads. *)
Definition sameBrush (f f' : Fields) : Prop :=
  flowchart f' = flowchart f /\
  arrowSize f' = arrowSize f /\
  lineWidth f' = lineWidth f /\
  effectiveWidth f' = effectiveWidth f /\
  scaleX (context (canvas f')) = scaleX (context (canvas f)) /\
  scaleY (context (canvas f')) = scaleY (context (canvas f)) /\
  lineCap (context (canvas f')) = lineCap (context (canvas f)) /\
  lineJoin (context (canvas f')) = lineJoin (context (canvas f)).

Lemma sameBrush_refl (f : Fields) : sameBrush f f.
Proof. repeat split. Qed.

Lemma sameBrush_trans (f f1 f2 : Fields) :
  sameBrush f f1 -> sameBrush f1 f2 -> sameBrush f f2.
Proof. unfold sameBrush; intuition congruence. Qed.

Lemma arrowPaints_ext (h : Host) (f f' : Fields) (conn : Connection) :
  sameBrush f f' -> arrowPaints h f' conn = arrowPaints h f conn.
Proof.
  intros (E & A & _ & W & X & Y & C & J).
  unfold arrowPaints, getElementBottom, getElementTop, flowchartRect.
  now rewrite E, A, W, X, Y, C, J.
Qed.

Lemma drawArrow_brush (h : Host) (f : Fields) (fromX fromY toX toY : R)
      (color resolved : string) :
  resolveColor h (Some color) = Normal resolved ->
  exists f',
    drawArrow h (Ready f) fromX fromY toX toY (Some color) = Normal (Ready f') /\
    sameBrush f f' /\
    ctxLineWidth (context (canvas f')) = effectiveWidth f.
Proof.
  intros Hc. unfold drawArrow. cbn [colorOrLineColor]. rewrite Hc, bind_Normal.
  eexists; split; [reflexivity | ].
  unfold sameBrush, effectiveWidth.
  cbn [on_ctx with_canvas with_context canvas flowchart connectionType
       arrowSize lineWidth context].
  rewrite paintArrow_eq. cbn [scaleX scaleY lineCap lineJoin ctxLineWidth].
  destruct (Rlt_dec 0 (lineWidth f)); repeat split; reflexivity.
Qed.

Definition colorsValid (h : Host) (conns : list Connection) : Prop :=
  forall c, In c conns ->
            exists r, resolveColor h (Some (conn_color c)) = Normal r /\
                      validColor h r = true.

(** With colours the canvas accepts, a connection adds its own two paints
    whatever was drawn before it. *)
Lemma drawConnection_exact (h : Host) (f : Fields) (node : string)
      (conn : Connection) :
  flowchart f = Some node ->
  (exists r, resolveColor h (Some (conn_color conn)) = Normal r /\
             validColor h r = true) ->
  exists f',
    drawConnection h (Ready f) (conn_from conn) (conn_to conn)
                   (Some (conn_color conn)) = Normal (Ready f') /\
    sameBrush f f' /\
    bitmap (context (canvas f'))
      = (bitmap (context (canvas f)) ++ arrowPaints h f conn)%list.
Proof.
  intros E (r & Hr & Hv).
  destruct (resolvable h conn) eqn:R.
  - destruct (drawConnection_draws h f node conn (conn_color conn) E R)
      as (p & q & Hp & Hq & Hd).
    destruct (drawArrow_brush h f (pos_x p) (pos_y p) (pos_x q) (pos_y q)
                              (conn_color conn) r Hr) as (f' & Ha & Hs & Hw).
    destruct (drawArrow_ready h f (pos_x p) (pos_y p) (pos_x q) (pos_y q)
                              (conn_color conn) r Hr)
      as (f'' & Ha' & _ & _ & _ & _ & _ & _ & _ & _ & Hss & Hfs & Hb).
    rewrite Ha in Ha'. injection Ha' as <-.
    exists f'. rewrite Hd. split; [exact Ha | ]. split; [exact Hs | ].
    rewrite Hb, Hss, Hfs, Hv, Hw.
    unfold arrowPaints. rewrite Hp, Hq, Hr. reflexivity.
  - exists f. rewrite (drawConnection_skips h f node conn _ E R).
    split; [reflexivity | ]. split; [apply sameBrush_refl | ].
    unfold resolvable in R.
    unfold arrowPaints, getElementBottom, getElementTop.
    rewrite (flowchartRect_ready h f node E).
    destruct (getElementById h (conn_from conn)),
             (getElementById h (conn_to conn));
      try discriminate; cbn; now rewrite app_nil_r.
Qed.

Lemma forEachConnection_exact (h : Host) (node : string)
      (conns : list Connection) :
  colorsValid h conns ->
  forall f,
    flowchart f = Some node ->
    exists f',
      forEachConnection h conns (Ready f) = Normal (Ready f') /\
      sameBrush f f' /\
      bitmap (context (canvas f'))
        = (bitmap (context (canvas f)) ++ flat_map (arrowPaints h f) conns)%list.
Proof.
  induction conns as [| conn rest IH]; intros Hc f E.
  - exists f. cbn. rewrite app_nil_r. repeat split.
  - destruct (drawConnection_exact h f node conn E (Hc conn (or_introl eq_refl)))
      as (f1 & D1 & S1 & B1).
    assert (E1 : flowchart f1 = Some node) by (destruct S1 as [-> _]; exact E).
    destruct (IH (fun c Hin => Hc c (or_intror Hin)) f1 E1)
      as (f2 & D2 & S2 & B2).
    exists f2. cbn [forEachConnection flat_map].
    rewrite D1, bind_Normal, D2.
    split; [reflexivity | ]. split; [now apply (sameBrush_trans f f1 f2) | ].
    rewrite B2, B1, <- app_assoc. do 2 f_equal.
    apply flat_map_ext; intros c. now apply arrowPaints_ext.
Qed.

(** ** The full redraw *)

Lemma clearCanvas_brush (f : Fields) :
  sameBrush f (clearCanvas f) /\
  connectionType (clearCanvas f) = connectionType f /\
  canvasWidth (canvas (clearCanvas f)) = canvasWidth (canvas f) /\
  canvasHeight (canvas (clearCanvas f)) = canvasHeight (canvas f).
Proof. unfold sameBrush, effectiveWidth. cbn. repeat split. Qed.

Lemma lineOf_clearCanvas (h : Host) (f : Fields) (conn : Connection) :
  lineOf h (clearCanvas f) conn = lineOf h f conn.
Proof. now apply lineOf_ext. Qed.

Lemma lineOf_resolvable (h : Host) (f : Fields) (node : string)
      (conn : Connection) :
  flowchart f = Some node ->
  resolvable h conn = true ->
  List.length (lineOf h f conn) = 1%nat.
Proof.
  intros E R.
  destruct (drawConnection_draws h f node conn "" E R) as (p & q & Hp & Hq & _).
  unfold lineOf. now rewrite Hp, Hq.
Qed.

Lemma lines_of_resolvable (h : Host) (f : Fields) (node : string)
      (conns : list Connection) :
  flowchart f = Some node ->
  forallb (resolvable h) conns = true ->
  List.length (flat_map (lineOf h f) conns) = List.length conns.
Proof.
  intros E. induction conns as [| c rest IH]; intros A; [reflexivity | ].
  cbn [forallb] in A. apply andb_prop in A as [Hc Hr].
  cbn [flat_map]. rewrite length_app, (lineOf_resolvable h f node c E Hc).
  cbn [List.length]. now rewrite IH.
Qed.

(** The rectangle [drawConnections] blanks, in buffer coordinates. *)
Definition clearedBy (f : Fields) : Paint :=
  let g := context (canvas f) in
  Cleared (scaleX g * 0) (scaleY g * 0)
          (scaleX g * (0 + IZR (canvasWidth (canvas f))))
          (scaleY g * (0 + IZR (canvasHeight (canvas f)))).

(** A full redraw on a bound connector returns; it blanks a rectangle and
    then strokes the lines of its table in the order of the table, with
    one filled head for each line. *)
Lemma drawConnections_paints (h : Host) (f : Fields) (node : string) :
  flowchart f = Some node ->
  exists f' paints,
    drawConnections h (Ready f) = Normal (Ready f') /\
    flowchart f' = flowchart f /\
    bitmap (context (canvas f'))
      = (bitmap (context (canvas f)) ++ clearedBy f :: paints)%list /\
    strokedPaths paints
      = flat_map (lineOf h f) (connectionsOf (connectionType f)) /\
    filledCount paints = List.length (strokedPaths paints).
Proof.
  intros E.
  destruct (clearCanvas_brush f) as ((Ef & _) & Et & _).
  destruct (forEachConnection_paints h node (connectionsOf (connectionType f))
              (table_colors_resolve h _) (clearCanvas f) (eq_trans Ef E))
    as (f' & paints & D & F & _ & _ & _ & _ & _ & B & S & C).
  exists f', paints. unfold drawConnections. rewrite D.
  split; [reflexivity | ]. split; [congruence | ].
  split; [ | split].
  - assert (Hb : bitmap (context (canvas (clearCanvas f)))
                 = (bitmap (context (canvas f)) ++ [clearedBy f])%list)
      by reflexivity.
    rewrite B, Hb, <- app_assoc. reflexivity.
  - rewrite S. apply flat_map_ext; intros c. apply lineOf_clearCanvas.
  - now rewrite C, S.
Qed.

(** A document in which an identifier is found when it is in [present]. *)
Definition hostWith (present : list string) (ratio : option R)
           (container : DOMRect) : Host :=
  mkHost (fun id =>
            if String.eqb id "flowchart" then Some (mkElement container None)
            else if existsb (String.eqb id) present
            then Some (mkElement (mkRect 120 60 40 20) None)
            else None)
         ratio
         (fun name => if String.eqb name "--link-color" then " #3182ce " else "")
         (fun color => negb (String.eqb color "")).

Definition agreeOn (h h' : Host) (ids : list string) : Prop :=
  (forall id, In id ids -> getElementById h' id = getElementById h id) /\
  (forall name, getPropertyValue h' name = getPropertyValue h name).

Lemma arrowPaints_local (h h' : Host) (f : Fields) (node : string)
      (conn : Connection) :
  flowchart f = Some node ->
  agreeOn h h' [conn_from conn; conn_to conn; node] ->
  arrowPaints h' f conn = arrowPaints h f conn.
Proof.
  intros E [A P].
  unfold arrowPaints, getElementBottom, getElementTop, resolveColor.
  rewrite !(flowchartRect_ready _ f node E).
  unfold getBoundingClientRect.
  rewrite (A (conn_from conn)), (A (conn_to conn)), (A node) by (simpl; auto).
  destruct (startsWith "var(" (conn_color conn)); [ | reflexivity].
  destruct (match_var (conn_color conn)); [ | reflexivity].
  now rewrite P.
Qed.

(** ** A redraw with elements missing *)

(** Where the layout puts the two ends of a connection, in the
    coordinates of the container [node]: the middle of the lower edge of
    the source and the middle of the upper edge of the target; [None] when
    one of the two is not in the document.  Written from the boxes, not
    from the methods of the class. *)
Definition endsOf (h : Host) (node : string) (conn : Connection)
  : option ((R * R) * (R * R)) :=
  match getElementById h (conn_from conn), getElementById h (conn_to conn) with
  | Some a, Some b =>
      let c := getBoundingClientRect h node in
      let ra := boundingClientRect a in
      let rb := boundingClientRect b in
      Some ((rectLeft ra + rectWidth ra / 2 - rectLeft c,
             rectTop ra + rectHeight ra - rectTop c),
            (rectLeft rb + rectWidth rb / 2 - rectLeft c,
             rectTop rb - rectTop c))
  | _, _ => None
  end.

(** The line from [p] to [q] and the head at [q], in buffer coordinates
    under the scale [(sx, sy)]. *)
Definition linePath (sx sy : R) (p q : R * R) : list PathCmd :=
  [ MoveTo (sx * fst p) (sy * snd p); LineTo (sx * fst q) (sy * snd q) ].

Definition headPath (sx sy size : R) (p q : R * R) : list PathCmd :=
  let angle := atan2 (snd q - snd p) (fst q - fst p) in
  [ MoveTo (sx * fst q) (sy * snd q);
    LineTo (sx * (fst q - size * cos (angle - PI / 6)))
           (sy * (snd q - size * sin (angle - PI / 6)));
    LineTo (sx * (fst q - size * cos (angle + PI / 6)))
           (sy * (snd q - size * sin (angle + PI / 6)));
    ClosePath ].

(** The line a connection calls for on the connector [f]: none when an end
    is missing. *)
Definition lineAt (h : Host) (node : string) (f : Fields) (conn : Connection)
  : list (list PathCmd) :=
  let g := context (canvas f) in
  match endsOf h node conn with
  | Some (p, q) => [ linePath (scaleX g) (scaleY g) p q ]
  | None => []
  end.

(** The arrow of a connection in its own colour. *)
Definition ownPaints (h : Host) (node : string) (f : Fields) (conn : Connection)
  : list Paint :=
  let g := context (canvas f) in
  match endsOf h node conn, resolveColor h (Some (conn_color conn)) with
  | Some (p, q), Normal color =>
      [ Stroked (linePath (scaleX g) (scaleY g) p q) color (effectiveWidth f)
                (lineCap g) (lineJoin g) (scaleX g) (scaleY g);
        Filled (headPath (scaleX g) (scaleY g) (arrowSize f) p q) color ]
  | _, _ => []
  end.

(** What a walk over [conns] is to paint on the connector [f] when the
    context holds the styles [stroke] and [fill]: for each connection with
    both ends in the document, in the order of the table, its line and its
    head; in its own colour when the canvas accepts it, and otherwise in
    the styles the context holds, which are those of the last arrow drawn
    in an accepted colour. *)
Fixpoint expectedPaints (h : Host) (node : string) (f : Fields)
         (stroke fill : string) (conns : list Connection) : list Paint :=
  let g := context (canvas f) in
  match conns with
  | [] => []
  | conn :: rest =>
      match endsOf h node conn, resolveColor h (Some (conn_color conn)) with
      | Some (p, q), Normal color =>
          let stroke' := if validColor h color then color else stroke in
          let fill' := if validColor h color then color else fill in
          Stroked (linePath (scaleX g) (scaleY g) p q) stroke' (effectiveWidth f)
                  (lineCap g) (lineJoin g) (scaleX g) (scaleY g)
          :: Filled (headPath (scaleX g) (scaleY g) (arrowSize f) p q) fill'
          :: expectedPaints h node f stroke' fill' rest
      | _, _ => expectedPaints h node f stroke fill rest
      end
  end.

(** The styles of the strokes in a run of paints. *)
Definition strokeStyles (paints : list Paint) : list string :=
  flat_map (fun d => match d with
                     | Stroked _ style _ _ _ _ _ => [style]
                     | _ => []
                     end) paints.

Lemma endsOf_resolvable (h : Host) (node : string) (conn : Connection) :
  resolvable h conn = true <-> exists p q, endsOf h node conn = Some (p, q).
Proof.
  unfold resolvable, endsOf.
  destruct (getElementById h (conn_from conn)),
           (getElementById h (conn_to conn)); split;
    try discriminate; try (intros (p & q & D); discriminate);
    try reflexivity.
  intros _. do 2 eexists. reflexivity.
Qed.

Lemma endsOf_skipped (h : Host) (node : string) (conn : Connection) :
  resolvable h conn = false -> endsOf h node conn = None.
Proof.
  unfold resolvable, endsOf.
  destruct (getElementById h (conn_from conn)),
           (getElementById h (conn_to conn)); try discriminate; reflexivity.
Qed.

(** [drawConnection] draws the arrow between the ends the layout gives,
    and does nothing when there are none. *)
Lemma drawConnection_layout (h : Host) (f : Fields) (node : string)
      (conn : Connection) (color : string) :
  flowchart f = Some node ->
  drawConnection h (Ready f) (conn_from conn) (conn_to conn) (Some color)
  = match endsOf h node conn with
    | Some (p, q) =>
        drawArrow h (Ready f) (fst p) (snd p) (fst q) (snd q) (Some color)
    | None => Normal (Ready f)
    end.
Proof.
  intros E.
  unfold drawConnection, getElementBottom, getElementTop, endsOf.
  rewrite (flowchartRect_ready h f node E).
  destruct (getElementById h (conn_from conn)),
           (getElementById h (conn_to conn)); reflexivity.
Qed.

(** The walk over a table paints what [expectedPaints] says, whatever the
    colours are. *)
Lemma forEachConnection_layout (h : Host) (node : string) (f0 : Fields)
      (conns : list Connection) :
  colorsResolve h conns ->
  flowchart f0 = Some node ->
  forall f,
    sameBrush f0 f ->
    exists f',
      forEachConnection h conns (Ready f) = Normal (Ready f') /\
      sameBrush f0 f' /\
      bitmap (context (canvas f'))
        = (bitmap (context (canvas f)) ++
           expectedPaints h node f0 (strokeStyle (context (canvas f)))
                          (fillStyle (context (canvas f))) conns)%list.
Proof.
  intros Hc E0.
  induction conns as [| conn rest IH]; intros f S.
  - exists f. cbn [forEachConnection expectedPaints]. rewrite app_nil_r.
    split; [reflexivity | split; [exact S | reflexivity]].
  - assert (E : flowchart f = Some node) by (destruct S as [-> _]; exact E0).
    cbn [forEachConnection expectedPaints].
    rewrite (drawConnection_layout h f node conn _ E).
    destruct (endsOf h node conn) as [[p q] | ].
    + destruct (Hc conn (or_introl eq_refl)) as [r Hr]. rewrite Hr.
      destruct (drawArrow_brush h f (fst p) (snd p) (fst q) (snd q)
                                (conn_color conn) r Hr) as (f1 & D1 & S1 & W1).
      destruct (drawArrow_ready h f (fst p) (snd p) (fst q) (snd q)
                                (conn_color conn) r Hr)
        as (f1' & D1' & _ & _ & _ & _ & _ & _ & _ & _ & Hss & Hfs & Hb).
      rewrite D1 in D1'. injection D1' as <-.
      destruct (IH (fun c Hin => Hc c (or_intror Hin)) f1
                   (sameBrush_trans f0 f f1 S S1)) as (f2 & D2 & S2 & B2).
      exists f2. rewrite D1, bind_Normal, D2.
      split; [reflexivity | ]. split; [exact S2 | ].
      rewrite B2, Hb, Hss, Hfs, W1, <- app_assoc.
      destruct S as (_ & SA & _ & SW & SX & SY & SC & SJ).
      rewrite SA, SW, SX, SY, SC, SJ. reflexivity.
    + rewrite bind_Normal.
      apply (IH (fun c Hin => Hc c (or_intror Hin)) f S).
Qed.

(** The full redraw: a clearing, then the walk over the table of the
    type. *)
Lemma drawConnections_layout (h : Host) (f : Fields) (node : string) :
  flowchart f = Some node ->
  exists f',
    drawConnections h (Ready f) = Normal (Ready f') /\
    bitmap (context (canvas f'))
      = (bitmap (context (canvas f)) ++ clearedBy f ::
         expectedPaints h node f (strokeStyle (context (canvas f)))
                        (fillStyle (context (canvas f)))
                        (connectionsOf (connectionType f)))%list.
Proof.
  intros E.
  destruct (clearCanvas_brush f) as (Sb & _).
  destruct (forEachConnection_layout h node f (connectionsOf (connectionType f))
              (table_colors_resolve h _) E (clearCanvas f) Sb)
    as (f' & D & _ & B).
  exists f'. split; [exact D | ].
  rewrite B.
  assert (Hb : bitmap (context (canvas (clearCanvas f)))
               = (bitmap (context (canvas f)) ++ [clearedBy f])%list)
    by reflexivity.
  rewrite Hb, <- app_assoc. reflexivity.
Qed.

Lemma strokedPaths_arrow (l hd : list PathCmd) (s fl cap join : string)
      (w sx sy : R) (rest : list Paint) :
  strokedPaths (Stroked l s w cap join sx sy :: Filled hd fl :: rest)
    = l :: strokedPaths rest.
Proof. reflexivity. Qed.

Lemma filledCount_arrow (l hd : list PathCmd) (s fl cap join : string)
      (w sx sy : R) (rest : list Paint) :
  filledCount (Stroked l s w cap join sx sy :: Filled hd fl :: rest)
    = S (filledCount rest).
Proof. reflexivity. Qed.

(** The lines of [expectedPaints] are those of the connections with both
    ends in the document, with one head each. *)
Lemma expectedPaints_lines (h : Host) (node : string) (f : Fields)
      (conns : list Connection) :
  colorsResolve h conns ->
  forall stroke fill,
    strokedPaths (expectedPaints h node f stroke fill conns)
      = flat_map (lineAt h node f) conns /\
    filledCount (expectedPaints h node f stroke fill conns)
      = List.length (filter (resolvable h) conns) /\
    List.length (expectedPaints h node f stroke fill conns)
      = (2 * List.length (filter (resolvable h) conns))%nat.
Proof.
  induction conns as [| conn rest IH]; intros Hc stroke fill.
  - repeat split.
  - cbn [expectedPaints flat_map filter]. unfold lineAt at 1.
    destruct (Hc conn (or_introl eq_refl)) as [r ->].
    destruct (resolvable h conn) eqn:R.
    + apply (endsOf_resolvable h node) in R as (p & q & ->).
      destruct (IH (fun c Hin => Hc c (or_intror Hin))
                   (if validColor h r then r else stroke)
                   (if validColor h r then r else fill)) as (L & F & N).
      rewrite strokedPaths_arrow, filledCount_arrow, L, F.
      cbn [List.length app]. rewrite N.
      split; [reflexivity | split; [reflexivity | lia]].
    + rewrite (endsOf_skipped h node conn R).
      apply (IH (fun c Hin => Hc c (or_intror Hin))).
Qed.

(** With colours the canvas accepts every arrow is in its own colour:
    what is painted for a connection does not depend on the others. *)
Lemma expectedPaints_own (h : Host) (node : string) (f : Fields)
      (conns : list Connection) :
  colorsValid h conns ->
  forall stroke fill,
    expectedPaints h node f stroke fill conns
      = flat_map (ownPaints h node f) conns.
Proof.
  induction conns as [| conn rest IH]; intros Hv stroke fill; [reflexivity | ].
  cbn [expectedPaints flat_map]. unfold ownPaints at 1.
  destruct (Hv conn (or_introl eq_refl)) as (r & -> & V).
  destruct (endsOf h node conn) as [[p q] | ].
  - rewrite V. cbn [app]. do 2 f_equal.
    apply (IH (fun c Hin => Hv c (or_intror Hin))).
  - apply (IH (fun c Hin => Hv c (or_intror Hin))).
Qed.

Lemma endsOf_local (h h' : Host) (node : string) (conn : Connection) :
  agreeOn h h' [conn_from conn; conn_to conn; node] ->
  endsOf h' node conn = endsOf h node conn.
Proof.
  intros [A _]. unfold endsOf, getBoundingClientRect.
  now rewrite (A (conn_from conn)), (A (conn_to conn)), (A node)
    by (simpl; auto).
Qed.

Lemma resolveColor_local (h h' : Host) (color : option string) :
  (forall name, getPropertyValue h' name = getPropertyValue h name) ->
  resolveColor h' color = resolveColor h color.
Proof.
  intros P. unfold resolveColor.
  destruct color as [c | ]; [ | reflexivity].
  destruct (startsWith "var(" c); [ | reflexivity].
  destruct (match_var c); [ | reflexivity].
  now rewrite P.
Qed.

(** A page that has the container and the elements named in [present],
    each in the same box, with the custom properties [style]; the canvas
    accepts every colour but the empty string. *)
Definition pageWith (present : list string) (style : string -> string) : Host :=
  mkHost (fun id =>
            if String.eqb id "flowchart"
            then Some (mkElement (mkRect 80 30 200 100) None)
            else if existsb (String.eqb id) present
            then Some (mkElement (mkRect 120 60 40 20) None)
            else None)
         None style
         (fun color => negb (String.eqb color "")).

(** A page that sets [--category-gradient-start] and leaves the other
    custom properties unset: they resolve to the empty string. *)
Definition greenOnly (name : string) : string :=
  if String.eqb name "--category-gradient-start" then "#48bb78" else "".

(** A page that sets the colours of both answers. *)
Definition greenAndRed (name : string) : string :=
  if String.eqb name "--category-gradient-start" then "#48bb78"
  else if String.eqb name "--category-error-start" then "#f56565"
  else "".

(** C4 as the specification words it, on two pages that differ in one
    element only, which is an end of the first connection of the table:
    the redraw on the page without it paints what the redraw on the page
    with it paints, less the stroke and the fill of that connection. *)
Definition others_drawn_alike (full partial : Host) (f : Fields) : Prop :=
  exists fa fb pa pb,
    drawConnections full (Ready f) = Normal (Ready fa) /\
    drawConnections partial (Ready f) = Normal (Ready fb) /\
    bitmap (context (canvas fa)) = clearedBy f :: pa /\
    bitmap (context (canvas fb)) = clearedBy f :: pb /\
    pb = skipn 2 pa.

(** C4, counterexample: on a page that leaves [--category-error-start]
    unset the canvas rejects the colour of the second connection, whose
    arrow is painted in the style the context holds: the green of the first
    arrow when that was drawn, the black of a fresh context when its target
    [q1-yes] is missing. *)
Lemma others_drawn_alike_fails :
  ~ others_drawn_alike (pageWith ["question1"; "q1-yes"; "q1-no"] greenOnly)
                       (pageWith ["question1"; "q1-no"] greenOnly)
                       plainFields.
Proof.
  intros (fa & fb & pa & pb & Da & Db & Ba & Bb & Same).
  destruct (drawConnections_layout
              (pageWith ["question1"; "q1-yes"; "q1-no"] greenOnly)
              plainFields "flowchart" eq_refl) as (fa' & Da' & Ba').
  destruct (drawConnections_layout
              (pageWith ["question1"; "q1-no"] greenOnly)
              plainFields "flowchart" eq_refl) as (fb' & Db' & Bb').
  rewrite Da in Da'. injection Da' as <-.
  rewrite Db in Db'. injection Db' as <-.
  rewrite Ba in Ba'. rewrite Bb in Bb'.
  cbn [plainFields canvas blankCanvas context defaultContext bitmap app] in Ba', Bb'.
  injection Ba' as ->. injection Bb' as ->.
  apply (f_equal strokeStyles) in Same.
  vm_compute in Same. discriminate.
Qed.

(** A page of the delay flowchart on which the "yes" answer of the first
    question, the "no" answer of the second and the third question are
    missing. *)
Definition partialPage : Host :=
  pageWith ["question1"; "q1-no"; "question2"; "q2-yes"] greenAndRed.

Lemma partialPage_colorsValid : colorsValid partialPage connections_default.
Proof.
  intros c Hc. simpl in Hc.
  repeat (destruct Hc as [<- | Hc];
          [eexists; split; [reflexivity | reflexivity] | ]).
  contradiction.
Qed.

(** C4, amended: on a bound connector, a connection with an end that is
    not in the document leaves the connector as it was: nothing is
    painted, nothing is thrown.  The full redraw returns; after the
    clearing it paints, for each connection of the table with both ends in
    the document and in the order of the table, the line from the middle
    of the lower edge of the source to the middle of the upper edge of the
    target, and one head: two paints for each such connection, none for
    the others.  What is painted for a connection depends on the document
    through its own two ends and the container only.  Its colour is its
    own when the canvas accepts the colour it resolves to; a colour the
    canvas rejects leaves the styles of the context as they are, those of
    the arrow drawn before, so that only with accepted colours is every
    arrow painted the same whatever else is skipped. *)
Theorem drawConnections_skips_missing (h : Host) (f : Fields) (node : string) :
  flowchart f = Some node ->
  let table := connectionsOf (connectionType f) in
  let g := context (canvas f) in
  (forall conn color,
      resolvable h conn = false ->
      drawConnection h (Ready f) (conn_from conn) (conn_to conn) color
        = Normal (Ready f)) /\
  (exists f' paints,
      drawConnections h (Ready f) = Normal (Ready f') /\
      bitmap (context (canvas f')) = (bitmap g ++ clearedBy f :: paints)%list /\
      paints = expectedPaints h node f (strokeStyle g) (fillStyle g) table /\
      strokedPaths paints = flat_map (lineAt h node f) table /\
      filledCount paints = List.length (filter (resolvable h) table) /\
      List.length paints = (2 * List.length (filter (resolvable h) table))%nat /\
      (colorsValid h table -> paints = flat_map (ownPaints h node f) table)) /\
  (forall conn,
      resolvable h conn = false ->
      lineAt h node f conn = [] /\ ownPaints h node f conn = []) /\
  (forall conn a b color,
      getElementById h (conn_from conn) = Some a ->
      getElementById h (conn_to conn) = Some b ->
      resolveColor h (Some (conn_color conn)) = Normal color ->
      let c := getBoundingClientRect h node in
      let ra := boundingClientRect a in
      let rb := boundingClientRect b in
      let p := (rectLeft ra + rectWidth ra / 2 - rectLeft c,
                rectTop ra + rectHeight ra - rectTop c) in
      let q := (rectLeft rb + rectWidth rb / 2 - rectLeft c,
                rectTop rb - rectTop c) in
      lineAt h node f conn
        = [ [ MoveTo (scaleX g * fst p) (scaleY g * snd p);
              LineTo (scaleX g * fst q) (scaleY g * snd q) ] ] /\
      ownPaints h node f conn
        = [ Stroked [ MoveTo (scaleX g * fst p) (scaleY g * snd p);
                      LineTo (scaleX g * fst q) (scaleY g * snd q) ]
                    color (effectiveWidth f) (lineCap g) (lineJoin g)
                    (scaleX g) (scaleY g);
            Filled (headPath (scaleX g) (scaleY g) (arrowSize f) p q) color ]) /\
  (forall h' conn,
      agreeOn h h' [conn_from conn; conn_to conn; node] ->
      lineAt h' node f conn = lineAt h node f conn /\
      ownPaints h' node f conn = ownPaints h node f conn).
Proof.
  intros E table g.
  split; [ | split; [ | split; [ | split]]].
  - intros conn color R. now apply (drawConnection_skips h f node).
  - destruct (drawConnections_layout h f node E) as (f' & D & B).
    exists f'. eexists. split; [exact D | ]. split; [exact B | ].
    split; [reflexivity | ].
    destruct (expectedPaints_lines h node f table (table_colors_resolve h _)
                (strokeStyle g) (fillStyle g)) as (L & F & N).
    split; [exact L | ]. split; [exact F | ]. split; [exact N | ].
    intros V. now apply expectedPaints_own.
  - intros conn R. unfold lineAt, ownPaints.
    now rewrite (endsOf_skipped h node conn R).
  - intros conn a b color A B C c ra rb p q.
    unfold lineAt, ownPaints, endsOf. rewrite A, B, C.
    split; reflexivity.
  - intros h' conn A. unfold lineAt, ownPaints.
    rewrite (endsOf_local h h' node conn A).
    rewrite (resolveColor_local h h' _ (proj2 A)). split; reflexivity.
Qed.

(** On that page the redraw paints two arrows, each from (60, 50) to
    (60, 30): the one to the "no" answer of the first question in red, the
    one to the "yes" answer of the second in green. *)
Lemma drawConnections_skips_missing_witness :
  drawConnection partialPage (Ready plainFields) "question1" "q1-yes"
                 (Some "var(--category-gradient-start)")
    = Normal (Ready plainFields) /\
  exists f' paints,
    drawConnections partialPage (Ready plainFields) = Normal (Ready f') /\
    bitmap (context (canvas f')) = clearedBy plainFields :: paints /\
    strokedPaths paints = [ [ MoveTo 60 50; LineTo 60 30 ];
                            [ MoveTo 60 50; LineTo 60 30 ] ] /\
    strokeStyles paints = [ "#f56565"; "#48bb78" ] /\
    filledCount paints = 2%nat /\
    List.length paints = 4%nat.
Proof.
  destruct (drawConnections_skips_missing partialPage plainFields "flowchart"
              eq_refl) as (Skip & (f' & paints & D & B & _ & L & F & N & Own) & _).
  split.
  - apply (Skip (mkConnection "question1" "q1-yes"
                              "var(--category-gradient-start)")).
    reflexivity.
  - exists f', paints.
    split; [exact D | ]. split; [exact B | ].
    split; [ | split; [ | split; [exact F | exact N]]].
    + rewrite L. cbn. unfold linePath. cbn [fst snd]. repeat f_equal; lra.
    + rewrite (Own partialPage_colorsValid). vm_compute. reflexivity.
Defined.

(** ** The two tables *)

Definition allIds : list string :=
  (map conn_from connections_hachzarah ++ map conn_to connections_hachzarah ++
   map conn_from connections_default ++ map conn_to connections_default)%list.

(** A document that holds every element of both flowcharts. *)
Definition fullHost : Host := hostWith allIds None (mkRect 80 30 200 100).

(** C6 as the specification words it, for the type ["default"]: three
    connections are drawn.  The bitmap of [plainFields] is blank, so the
    lines of the redraw are the lines of the bitmap it leaves. *)
Definition default_draws_three (h : Host) : Prop :=
  exists f',
    drawConnections h (Ready plainFields) = Normal (Ready f') /\
    List.length (strokedPaths (bitmap (context (canvas f')))) = 3%nat.

(** C6, counterexample: with every element in the document, the type
    ["default"] draws six arrows. *)
Lemma default_draws_three_fails : ~ default_draws_three fullHost.
Proof.
  intros (f' & D & L).
  destruct (drawConnections_paints fullHost plainFields "flowchart" eq_refl)
    as (f'' & paints & D' & _ & B & S & _).
  rewrite D in D'. injection D' as <-.
  rewrite B in L. cbn [plainFields canvas context blankCanvas defaultContext
                       bitmap app] in L.
  change (strokedPaths (clearedBy plainFields :: paints))
    with (strokedPaths paints) in L.
  rewrite S in L.
  rewrite (lines_of_resolvable fullHost plainFields "flowchart") in L;
    [discriminate | reflexivity | reflexivity].
Qed.

Lemma tables_disjoint (c d : Connection) :
  In c connections_hachzarah -> In d connections_default ->
  conn_from c <> conn_from d /\ conn_to c <> conn_to d.
Proof.
  intros Hc Hd. simpl in Hc, Hd.
  repeat (destruct Hc as [<- | Hc]);
    try contradiction;
    repeat (destruct Hd as [<- | Hd]);
    try contradiction; split; discriminate.
Qed.

(** C6, amended: the table of ['hachzarah'] has 12 connections, the other
    table has 6 (not 3), and they share no element.  On a bound connector
    the redraw returns; after the clearing it strokes the lines of the 12
    when the type is ['hachzarah'] and the lines of the 6 for every other
    type, with one filled head per line: 12 or 6 arrows when all their
    elements are in the document. *)
Theorem drawConnections_by_type (h : Host) (f : Fields) (node : string) :
  flowchart f = Some node ->
  let table := if String.eqb (connectionType f) "hachzarah"
               then connections_hachzarah else connections_default in
  List.length connections_hachzarah = 12%nat /\
  List.length connections_default = 6%nat /\
  (forall c d, In c connections_hachzarah -> In d connections_default ->
               conn_from c <> conn_from d /\ conn_to c <> conn_to d) /\
  exists f' paints,
    drawConnections h (Ready f) = Normal (Ready f') /\
    bitmap (context (canvas f'))
      = (bitmap (context (canvas f)) ++ clearedBy f :: paints)%list /\
    strokedPaths paints = flat_map (lineOf h f) table /\
    filledCount paints = List.length (strokedPaths paints) /\
    (forallb (resolvable h) table = true ->
     List.length (strokedPaths paints) = List.length table).
Proof.
  intros E table.
  split; [reflexivity | ]. split; [reflexivity | ].
  split; [exact tables_disjoint | ].
  destruct (drawConnections_paints h f node E) as (f' & paints & D & _ & B & S & C).
  exists f', paints. repeat (split; [assumption | ]).
  intros A. rewrite S. now apply (lines_of_resolvable h f node).
Qed.

Lemma drawConnections_by_type_witness :
  exists f' paints,
    drawConnections fullHost
      (Ready (mkFields blankCanvas (Some "flowchart") "hachzarah" "" 3 8))
      = Normal (Ready f') /\
    bitmap (context (canvas f')) =
      clearedBy (mkFields blankCanvas (Some "flowchart") "hachzarah" "" 3 8)
      :: paints /\
    List.length (strokedPaths paints) = 12%nat /\
    filledCount paints = 12%nat.
Proof.
  destruct (drawConnections_by_type fullHost
              (mkFields blankCanvas (Some "flowchart") "hachzarah" "" 3 8)
              "flowchart" eq_refl)
    as (_ & _ & _ & f' & paints & D & B & _ & C & L).
  exists f', paints.
  split; [exact D | ]. split; [exact B | ].
  assert (L' := L eq_refl). split; [exact L' | now rewrite C, L'].
Defined.

(** ** What the clearing covers *)

(** A paint that blanks the whole buffer of a canvas. *)
Definition coversBuffer (c : Canvas) (d : Paint) : Prop :=
  match d with
  | Cleared x0 y0 x1 y1 =>
      x0 <= 0 /\ y0 <= 0 /\
      IZR (canvasWidth c) <= x1 /\ IZR (canvasHeight c) <= y1
  | _ => False
  end.

Lemma toUnsignedLong_nonneg (d : Z) (v : R) :
  (0 <= d)%Z -> (0 <= toUnsignedLong d v)%Z.
Proof.
  intros Hd. unfold toUnsignedLong.
  pose proof (Z.mod_pos_bound (Rtrunc v) 4294967296 eq_refl) as [H0 _].
  destruct (Z.gtb_spec (Rtrunc v mod 4294967296) 2147483647); assumption.
Qed.

(** With a pixel ratio of 1 or more, the rectangle blanked after a resize
    is the whole buffer or more. *)
Lemma clear_covers_from_ratio_one (h : Host) (f f1 : Fields) (node : string) :
  flowchart f = Some node ->
  1 <= pixelRatioOf h ->
  resizeCanvas h (Ready f) = Normal (Ready f1) ->
  coversBuffer (canvas f1) (clearedBy f1).
Proof.
  intros E Hr D.
  rewrite (resizeCanvas_ready h f node E) in D. injection D as <-.
  unfold clearedBy, coversBuffer.
  cbn [canvas with_canvas context scaleX scaleY canvasWidth canvasHeight].
  set (r := pixelRatioOf h) in *.
  pose proof (toUnsignedLong_nonneg 300
                (double (rectWidth (getBoundingClientRect h node) * r))
                ltac:(lia)) as Hw.
  pose proof (toUnsignedLong_nonneg 150
                (double (rectHeight (getBoundingClientRect h node) * r))
                ltac:(lia)) as Hh.
  apply IZR_le in Hw, Hh.
  repeat split; nra.
Qed.

(** The redraws the class runs itself come right after a resize, which
    leaves a blank bitmap: the bitmap then holds the clearing and the
    arrows of this redraw only. *)
Lemma resizeAndRedraw_paints (h : Host) (f : Fields) (node : string) :
  flowchart f = Some node ->
  exists f1 f2 paints,
    resizeCanvas h (Ready f) = Normal (Ready f1) /\
    resizeAndRedraw h (Ready f) = Normal (Ready f2) /\
    flowchart f2 = flowchart f /\
    bitmap (context (canvas f2)) = clearedBy f1 :: paints /\
    strokedPaths paints
      = flat_map (lineOf h f1) (connectionsOf (connectionType f)).
Proof.
  intros E.
  pose proof (resizeCanvas_ready h f node E) as R. cbv zeta in R.
  match type of R with _ = Normal (Ready ?x) => set (f1 := x) in * end.
  destruct (drawConnections_paints h f1 node E) as (f2 & paints & D & F & B & S & _).
  exists f1, f2, paints. unfold resizeAndRedraw. rewrite R, bind_Normal.
  repeat split; assumption.
Qed.

(** A container 200 by 100 pixels seen at a pixel ratio of 1/2 (a page
    zoomed out), with every element of both flowcharts in it. *)
Definition halfHost : Host := hostWith allIds (Some (1 / 2)) (mkRect 0 0 200 100).

Lemma pixelRatioOf_halfHost : pixelRatioOf halfHost = 1 / 2.
Proof.
  unfold pixelRatioOf; simpl.
  destruct (Req_dec_T (1 / 2) 0) as [E | _]; [lra | reflexivity].
Qed.

(** C7, at a pixel ratio of 1/2: after a resize the buffer is 100 by 50;
    a redraw strokes a line that starts at (70, 40); the next redraw
    blanks the rectangle from (0, 0) to (50, 25) only, which is not the
    whole buffer and leaves that line in the bitmap. *)
Theorem redraw_clears_a_quarter_at_half_ratio :
  exists f1 f2 f3 paints paints',
    resizeCanvas halfHost (Ready plainFields) = Normal (Ready f1) /\
    canvasWidth (canvas f1) = 100%Z /\ canvasHeight (canvas f1) = 50%Z /\
    drawConnections halfHost (Ready f1) = Normal (Ready f2) /\
    bitmap (context (canvas f2)) = clearedBy f1 :: paints /\
    drawConnections halfHost (Ready f2) = Normal (Ready f3) /\
    bitmap (context (canvas f3))
      = (clearedBy f1 :: paints ++ clearedBy f2 :: paints')%list /\
    (exists x y rest,
        In (MoveTo x y :: rest) (strokedPaths paints) /\ x = 70 /\ y = 40) /\
    (exists x0 y0 x1 y1,
        clearedBy f2 = Cleared x0 y0 x1 y1 /\
        x0 = 0 /\ y0 = 0 /\ x1 = 50 /\ y1 = 25) /\
    ~ coversBuffer (canvas f2) (clearedBy f2).
Proof.
  pose proof (resizeCanvas_ready halfHost plainFields "flowchart" eq_refl) as R.
  cbv zeta in R. rewrite pixelRatioOf_halfHost in R.
  change (getBoundingClientRect halfHost "flowchart")
    with (mkRect 0 0 200 100) in R.
  cbn [rectWidth rectHeight] in R.
  replace (200 * (1 / 2)) with 100 in R by lra.
  replace (100 * (1 / 2)) with 50 in R by lra.
  rewrite !double_whole in R by (cbn; lia).
  rewrite !toUnsignedLong_floor in R by lra.
  replace (Zfloor 100) with 100%Z in R by (symmetry; apply Zfloor_eq; lra).
  replace (Zfloor 50) with 50%Z in R by (symmetry; apply Zfloor_eq; lra).
  match type of R with _ = Normal (Ready ?x) => set (f1 := x) in * end.
  destruct (drawConnections_paints halfHost f1 "flowchart" eq_refl)
    as (f2 & paints & D2 & F2 & B2 & S2 & _).
  destruct (drawConnections_paints halfHost f2 "flowchart" (eq_trans F2 eq_refl))
    as (f3 & paints' & D3 & _ & B3 & _ & _).
  destruct (forEachConnection_paints halfHost "flowchart"
              (connectionsOf (connectionType f1))
              (table_colors_resolve halfHost _) (clearCanvas f1) eq_refl)
    as (f2' & p2 & D2' & _ & _ & X2 & Y2 & W2 & H2 & _).
  unfold drawConnections in D2. rewrite D2' in D2. injection D2 as ->.
  exists f1, f2, f3, paints, paints'.
  split; [exact R | ]. split; [reflexivity | ]. split; [reflexivity | ].
  split; [unfold drawConnections; exact D2' | ].
  split; [exact B2 | ]. split; [exact D3 | ].
  split; [rewrite B3, B2; reflexivity | ].
  assert (C : clearedBy f2
              = Cleared (1 * (1 / 2) * 0) (1 * (1 / 2) * 0)
                        (1 * (1 / 2) * (0 + 100)) (1 * (1 / 2) * (0 + 50))).
  { unfold clearedBy. rewrite X2, Y2, W2, H2. reflexivity. }
  split; [ | split].
  - rewrite S2. do 3 eexists. split; [left; reflexivity | ].
    unfold rectBottom; cbn. split; lra.
  - do 4 eexists. split; [exact C | ]. repeat split; lra.
  - rewrite C. unfold coversBuffer. rewrite W2. cbn. lra.
Qed.

(** ** Construction *)

(** A page with the canvas and without the container. *)
Definition canvasOnlyHost : Host :=
  mkHost (fun id => if String.eqb id "flowchart-canvas"
                    then Some (mkElement (mkRect 0 0 300 150) (Some blankCanvas))
                    else None)
         None (fun _ => "") (fun _ => true).

(** Without the canvas the constructor returns an object that nothing was
    bound to and registers no listener, so resize events do nothing to the
    window; the methods of that object throw when called. *)
Lemma constructor_without_canvas (h : Host) (canvasId flowchartId : string)
      (type : option string) :
  getElementById h canvasId = None ->
  constructor h canvasId flowchartId type = Normal (mkInstance Unbound false) /\
  (forall layout eager events,
      runResizes layout eager events (open (mkInstance Unbound false))
        = open (mkInstance Unbound false)) /\
  resizeCanvas h Unbound = Throw TypeError /\
  drawConnections h Unbound = Throw TypeError.
Proof.
  intros G. unfold constructor. rewrite G.
  split; [reflexivity | ]. split; [ | split; reflexivity].
  intros layout eager events.
  induction events as [| now rest IH]; [reflexivity | exact IH].
Qed.

(** With the canvas and without the container the constructor throws: the
    first thing [init] does is to read the box of [this.flowchart]. *)
Lemma constructor_without_container (h : Host) (canvasId flowchartId : string)
      (type : option string) (node : Element) (cv : Canvas) :
  getElementById h canvasId = Some node ->
  asCanvas node = Some cv ->
  getElementById h flowchartId = None ->
  constructor h canvasId flowchartId type = Throw TypeError.
Proof.
  intros G C F. unfold constructor. now rewrite G, C, F.
Qed.

(** C1, on a page that has the canvas and not the container: the
    construction does not complete, a [TypeError] leaves the
    constructor. *)
Theorem constructor_throws_without_container :
  getElementById canvasOnlyHost "flowchart-canvas" <> None /\
  getElementById canvasOnlyHost "flowchart" = None /\
  constructor canvasOnlyHost "flowchart-canvas" "flowchart" None
    = Throw TypeError /\
  ~ completes (constructor canvasOnlyHost "flowchart-canvas" "flowchart" None).
Proof.
  split; [discriminate | ]. split; [reflexivity | ]. split; [reflexivity | ].
  intros [i H]. discriminate H.
Qed.

(** A construction that returns with a listener has bound both nodes. *)
Lemma constructor_listening (h : Host) (canvasId flowchartId : string)
      (type : option string) (i : Instance) :
  constructor h canvasId flowchartId type = Normal i ->
  listening i = true ->
  exists f, self i = Ready f /\ flowchart f = Some flowchartId.
Proof.
  unfold constructor.
  destruct (getElementById h canvasId) as [node |];
    [ | intros H; injection H as <-; discriminate].
  destruct (asCanvas node) as [cv |]; [ | discriminate].
  destruct (getElementById h flowchartId) as [e |] eqn:F; [ | discriminate].
  set (f0 := mkFields _ _ _ _ _ _).
  destruct (resizeAndRedraw_paints h f0 flowchartId eq_refl)
    as (f1 & f2 & paints & R & D & E & _).
  unfold resizeAndRedraw in D. rewrite R, bind_Normal in D.
  unfold init. rewrite R, bind_Normal, D, bind_Normal.
  intros H _. injection H as <-.
  exists f2. split; [reflexivity | exact E].
Qed.

(** The timer callback of such a connector returns whatever the layout
    has become. *)
Lemma resizeAndRedraw_after_construction (h h' : Host)
      (canvasId flowchartId : string) (type : option string) (i : Instance) :
  constructor h canvasId flowchartId type = Normal i ->
  listening i = true ->
  completes (resizeAndRedraw h' (self i)).
Proof.
  intros C L.
  destruct (constructor_listening h canvasId flowchartId type i C L)
    as (f & -> & E).
  destruct (resizeAndRedraw_paints h' f flowchartId E)
    as (_ & f2 & _ & _ & D & _).
  now exists (Ready f2).
Qed.

(** ** The debounce *)

Local Close Scope R_scope.

(** One timer waits, set by the last resize event, at [t]. *)
Definition armed (w : Window) (t : nat) (log : list nat) (i : Instance) : Prop :=
  exists id, w = mkWindow i (Some id) [mkTimer id (t + 100)] (S id) log.

(** No timer waits but the one [resizeTimeout] names. *)
Definition tidy (w : Window) : Prop :=
  timers w = [] \/
  exists id due, timers w = [mkTimer id due] /\ resizeTimeout w = Some id.

Lemma isDue_before (eager : bool) (now due : nat) :
  now < due -> isDue eager now (mkTimer 0 due) = false.
Proof.
  intros H. unfold isDue; cbn [timer_due].
  destruct eager; [apply Nat.leb_gt | apply Nat.ltb_ge]; lia.
Qed.

Lemma isDue_after (eager : bool) (now due : nat) :
  due < now -> isDue eager now (mkTimer 0 due) = true.
Proof.
  intros H. unfold isDue; cbn [timer_due].
  destruct eager; [apply Nat.leb_le | apply Nat.ltb_lt]; lia.
Qed.

Lemma isDue_id (eager : bool) (now id due : nat) :
  isDue eager now (mkTimer id due) = isDue eager now (mkTimer 0 due).
Proof. reflexivity. Qed.

Lemma advance_waiting (layout : nat -> Host) (eager : bool) (now t : nat)
      (w : Window) (log : list nat) (i : Instance) :
  armed w t log i -> now < t + 100 ->
  advance layout eager now w = w.
Proof.
  intros [id ->] H. unfold advance. cbn [timers filter].
  rewrite isDue_id, (isDue_before eager now (t + 100) H). reflexivity.
Qed.

Lemma resizeListener_armed (now : nat) (w : Window) :
  tidy w ->
  exists id,
    resizeListener now w
      = mkWindow (instance w) (Some id) [mkTimer id (now + 100)] (S id)
                 (redraws w) /\
    id = nextTimerId w.
Proof.
  intros T. exists (nextTimerId w). split; [ | reflexivity].
  destruct w as [i rt tms nid log]. cbn [instance redraws nextTimerId].
  destruct T as [E | (id & due & E & Rt)]; cbn [timers resizeTimeout] in *;
    subst.
  - destruct rt; reflexivity.
  - unfold resizeListener, clearTimeout.
    cbn [resizeTimeout timers filter timer_id].
    rewrite Nat.eqb_refl. reflexivity.
Qed.

Lemma armed_tidy (w : Window) (t : nat) (log : list nat) (i : Instance) :
  armed w t log i -> tidy w.
Proof. intros [id ->]. right. now exists id, (t + 100). Qed.

Lemma armed_step (layout : nat -> Host) (eager : bool) (now t : nat)
      (w : Window) (log : list nat) (i : Instance) :
  listening i = true ->
  armed w t log i -> now < t + 100 ->
  armed (dispatchResize now (advance layout eager now w)) now log i.
Proof.
  intros L A H. rewrite (advance_waiting layout eager now t w log i A H).
  destruct (resizeListener_armed now w (armed_tidy w t log i A)) as (id & E & _).
  destruct A as [id0 ->]. unfold dispatchResize. cbn [instance] in *.
  rewrite L, E. now exists id.
Qed.

Lemma open_step (layout : nat -> Host) (eager : bool) (now : nat) (i : Instance) :
  listening i = true ->
  armed (dispatchResize now (advance layout eager now (open i))) now [] i.
Proof.
  intros L. unfold dispatchResize, advance, open. cbn. rewrite L.
  now exists 1.
Qed.

Lemma ascending_tail (t : nat) (events : list nat) :
  ascending (t :: events) -> ascending events.
Proof. destruct events as [| u r]; [trivial | now intros [_ H]]. Qed.

Lemma last_cons_default (u : nat) (l : list nat) (d d' : nat) :
  last (u :: l) d = last (u :: l) d'.
Proof.
  revert u. induction l as [| v l IH]; intros u; [reflexivity | ].
  change (last (u :: v :: l) d) with (last (v :: l) d).
  change (last (u :: v :: l) d') with (last (v :: l) d').
  apply IH.
Qed.

Lemma ascending_le_last (u : nat) (l : list nat) :
  ascending (u :: l) -> u <= last (u :: l) u.
Proof.
  revert u. induction l as [| v l IH]; intros u Asc; [simpl; lia | ].
  destruct Asc as [Huv Asc].
  change (last (u :: v :: l) u) with (last (v :: l) u).
  rewrite (last_cons_default v l u v).
  specialize (IH v Asc). lia.
Qed.

Lemma armed_run (layout : nat -> Host) (eager : bool) (bound : nat)
      (log : list nat) (i : Instance) :
  listening i = true ->
  forall events w t,
    armed w t log i ->
    ascending (t :: events) ->
    last (t :: events) t < bound ->
    bound <= t + 100 ->
    armed (runResizes layout eager events w) (last (t :: events) t) log i.
Proof.
  intros L. induction events as [| u rest IH]; intros w t A Asc B Bt.
  - exact A.
  - assert (Hu : t <= u) by (destruct Asc as [H _]; exact H).
    assert (Hl : last (t :: u :: rest) t = last (u :: rest) u)
      by apply (last_cons_default u rest t u).
    rewrite Hl in *.
    assert (Hub : u <= last (u :: rest) u)
      by (apply ascending_le_last; now apply ascending_tail in Asc).
    cbn [runResizes]. apply IH.
    + apply (armed_step layout eager u t w log i L A). lia.
    + now apply ascending_tail in Asc.
    + exact B.
    + lia.
Qed.

Lemma advance_fires (layout : nat -> Host) (eager : bool) (now t : nat)
      (w : Window) (log : list nat) (i : Instance) :
  armed w t log i -> t + 100 < now ->
  redraws (advance layout eager now w) = (log ++ [t + 100])%list /\
  timers (advance layout eager now w) = [] /\
  self (instance (advance layout eager now w))
    = match resizeAndRedraw (layout (t + 100)) (self i) with
      | Normal s => s
      | Throw _ => self i
      end.
Proof.
  intros [id ->] H. unfold advance. cbn [timers filter].
  rewrite isDue_id, (isDue_after eager now (t + 100) H). cbn.
  repeat split.
Qed.

Lemma runCallbacks_keep (layout : nat -> Host) (due : list Timer) :
  forall w,
    timers (fold_left (runCallback layout) due w) = timers w /\
    resizeTimeout (fold_left (runCallback layout) due w) = resizeTimeout w /\
    listening (instance (fold_left (runCallback layout) due w))
      = listening (instance w).
Proof.
  induction due as [| t rest IH]; intros w; [repeat split | ].
  cbn [fold_left]. destruct (IH (runCallback layout w t)) as (A & B & C).
  rewrite A, B, C. repeat split.
Qed.

Lemma advance_tidy (layout : nat -> Host) (eager : bool) (now : nat)
      (w : Window) :
  tidy w -> tidy (advance layout eager now w).
Proof.
  intros T. unfold advance, tidy.
  match goal with |- context [fold_left _ ?d ?w0] =>
    destruct (runCallbacks_keep layout d w0) as (A & B & _) end.
  rewrite A, B. cbn [timers resizeTimeout].
  destruct T as [-> | (id & due & -> & Rt)]; [now left | ].
  cbn [filter]. destruct (isDue eager now (mkTimer id due)); cbn [negb].
  - now left.
  - right. now exists id, due.
Qed.

Lemma dispatchResize_tidy (now : nat) (w : Window) :
  tidy w -> tidy (dispatchResize now w).
Proof.
  intros T. unfold dispatchResize.
  destruct (listening (instance w)); [ | exact T].
  destruct (resizeListener_armed now w T) as (id & -> & _).
  right. now exists id, (now + 100).
Qed.

Lemma runResizes_tidy (layout : nat -> Host) (eager : bool) (events : list nat) :
  forall w, tidy w -> tidy (runResizes layout eager events w).
Proof.
  induction events as [| now rest IH]; intros w T; [exact T | ].
  cbn [runResizes]. apply IH, dispatchResize_tidy, advance_tidy, T.
Qed.

Lemma advance_listening (layout : nat -> Host) (eager : bool) (now : nat)
      (w : Window) :
  listening (instance (advance layout eager now w)) = listening (instance w).
Proof.
  unfold advance.
  match goal with |- context [fold_left _ ?d ?w0] =>
    destruct (runCallbacks_keep layout d w0) as (_ & _ & C) end.
  exact C.
Qed.

Lemma dispatchResize_listening (now : nat) (w : Window) :
  listening (instance (dispatchResize now w)) = listening (instance w).
Proof.
  unfold dispatchResize. destruct (listening (instance w)) eqn:L; [ | exact L].
  destruct w as [i rt tms nid log]. destruct rt; exact L.
Qed.

Lemma runResizes_listening (layout : nat -> Host) (eager : bool)
      (events : list nat) :
  forall w,
    listening (instance (runResizes layout eager events w))
      = listening (instance w).
Proof.
  induction events as [| now rest IH]; intros w; [reflexivity | ].
  cbn [runResizes].
  now rewrite IH, dispatchResize_listening, advance_listening.
Qed.

Lemma tidy_length (w : Window) : tidy w -> List.length (timers w) <= 1.
Proof. intros [-> | (id & due & -> & _)]; simpl; lia. Qed.

(** C9: after a construction that registered the listener, resize events
    at times that never go back and all lie within 100 ms of the first
    leave one timer; its callback, [resizeCanvas] then [drawConnections],
    runs once, 100 ms after the last event, and not before.  Whatever the
    events, at most one timer waits at any time, and each resize event
    leaves the timer it sets as the only one. *)
Theorem resize_debounced (layout : nat -> Host) (eager : bool)
        (i : Instance) (first : nat) (rest : list nat) :
  listening i = true ->
  ascending (first :: rest) ->
  last (first :: rest) first < first + 100 ->
  let w := runResizes layout eager (first :: rest) (open i) in
  let quiet := last (first :: rest) first + 100 in
  (forall now, now < quiet ->
               redraws (advance layout eager now w) = [] /\
               List.length (timers (advance layout eager now w)) = 1) /\
  (forall now, quiet < now ->
               redraws (advance layout eager now w) = [quiet] /\
               timers (advance layout eager now w) = [] /\
               self (instance (advance layout eager now w))
                 = match resizeAndRedraw (layout quiet) (self i) with
                   | Normal s => s
                   | Throw _ => self i
                   end) /\
  (forall events now,
      let w' := runResizes layout eager events (open i) in
      List.length (timers w') <= 1 /\
      List.length (timers (advance layout eager now w')) <= 1 /\
      exists id,
        timers (dispatchResize now (advance layout eager now w'))
          = [mkTimer id (now + 100)]).
Proof.
  intros L Asc Win w quiet.
  assert (A : armed w (last (first :: rest) first) [] i).
  { unfold w. cbn [runResizes].
    apply (armed_run layout eager (first + 100) [] i L rest _ first);
      [apply (open_step layout eager first i L) | exact Asc | exact Win | lia]. }
  split; [ | split].
  - intros now H.
    rewrite (advance_waiting layout eager now _ w [] i A H).
    destruct A as [id ->]. split; reflexivity.
  - intros now H.
    destruct (advance_fires layout eager now _ w [] i A H) as (R & T & S).
    now rewrite R, T, S.
  - intros events now w'.
    assert (T : tidy w') by (apply runResizes_tidy; now left).
    pose proof (advance_tidy layout eager now w' T) as T'.
    split; [now apply tidy_length | ]. split; [now apply tidy_length | ].
    assert (Lw : listening (instance (advance layout eager now w')) = true).
    { rewrite advance_listening. unfold w'. now rewrite runResizes_listening. }
    unfold dispatchResize. rewrite Lw.
    destruct (resizeListener_armed now _ T') as (id & -> & _).
    now exists id.
Qed.

(** Four resize events within 100 ms: one redraw, at 199 ms. *)
Lemma resize_debounced_witness :
  redraws (advance (fun _ => boxHost) true 150
             (runResizes (fun _ => boxHost) true [0; 30; 60; 99]
                         (open (mkInstance (Ready plainFields) true)))) = [] /\
  redraws (advance (fun _ => boxHost) true 250
             (runResizes (fun _ => boxHost) true [0; 30; 60; 99]
                         (open (mkInstance (Ready plainFields) true)))) = [199].
Proof.
  destruct (resize_debounced (fun _ => boxHost) true
              (mkInstance (Ready plainFields) true) 0 [30; 60; 99])
    as (Before & After & _).
  - reflexivity.
  - cbn. lia.
  - cbn. lia.
  - split.
    + apply (Before 150). cbn. lia.
    + apply (After 250). cbn. lia.
Defined.

(** * More on the class *)

Local Open Scope R_scope.

(** ** What drawing leaves alone *)

Lemma with_canvas_twice (c c' : Canvas) (f : Fields) :
  with_canvas c' (with_canvas c f) = with_canvas c' f.
Proof. reflexivity. Qed.

Lemma with_canvas_self (f : Fields) : with_canvas (canvas f) f = f.
Proof. now destruct f. Qed.

Lemma drawConnection_fields (h : Host) (f : Fields) (a b : string)
      (color : option string) (s : FlowchartConnector) :
  drawConnection h (Ready f) a b color = Normal s ->
  exists c, s = Ready (with_canvas c f).
Proof.
  unfold drawConnection.
  destruct (getElementBottom h (Ready f) a) as [p | e]; [ | discriminate].
  destruct (getElementTop h (Ready f) b) as [q | e]; [ | discriminate].
  cbn [bind].
  assert (Same : Normal (Ready f) = Normal s -> exists c, s = Ready (with_canvas c f)).
  { intros H. injection H as <-. exists (canvas f). now rewrite with_canvas_self. }
  destruct p as [p |]; [ | exact Same].
  destruct q as [q |]; [ | exact Same].
  unfold drawArrow.
  destruct (resolveColor h _) as [r | e]; [ | discriminate].
  cbn [bind]. intros H. injection H as <-. now eexists.
Qed.

Lemma forEachConnection_fields (h : Host) (conns : list Connection) :
  forall f s,
    forEachConnection h conns (Ready f) = Normal s ->
    exists c, s = Ready (with_canvas c f).
Proof.
  induction conns as [| conn rest IH]; intros f s H.
  - injection H as <-. exists (canvas f). now rewrite with_canvas_self.
  - cbn [forEachConnection] in H.
    destruct (drawConnection h (Ready f) _ _ _) as [s1 | e] eqn:D;
      [ | discriminate].
    destruct (drawConnection_fields h f _ _ _ s1 D) as [c1 ->].
    rewrite bind_Normal in H.
    destruct (IH _ s H) as [c2 ->]. now exists c2.
Qed.

(** A redraw changes the canvas and nothing else of the connector. *)
Lemma drawConnections_fields (h : Host) (f : Fields) (s : FlowchartConnector) :
  drawConnections h (Ready f) = Normal s ->
  exists c, s = Ready (with_canvas c f).
Proof.
  unfold drawConnections. intros H.
  destruct (forEachConnection_fields h _ _ s H) as [c ->]. now exists c.
Qed.

(** A resize does not look at the canvas it is given. *)
Lemma resizeCanvas_with_canvas (h : Host) (f : Fields) (c : Canvas) :
  resizeCanvas h (Ready (with_canvas c f)) = resizeCanvas h (Ready f).
Proof.
  unfold resizeCanvas, flowchartRect. cbn [with_canvas flowchart].
  destruct (flowchart f); reflexivity.
Qed.

(** The callback of the resize timer is idempotent: on a bound connector
    it returns, and run again on the same layout it returns the state it
    left the first time. *)
Theorem resizeAndRedraw_idempotent (h : Host) (f : Fields) (node : string) :
  flowchart f = Some node ->
  exists f2,
    resizeAndRedraw h (Ready f) = Normal (Ready f2) /\
    resizeAndRedraw h (Ready f2) = Normal (Ready f2).
Proof.
  intros E.
  destruct (resizeAndRedraw_paints h f node E)
    as (f1 & f2 & paints & R & D & _).
  exists f2. split; [exact D | ].
  unfold resizeAndRedraw in D. rewrite R, bind_Normal in D.
  destruct (drawConnections_fields h f1 _ D) as [c2 E2].
  injection E2 as ->.
  pose proof (resizeCanvas_ready h f node E) as R'. cbv zeta in R'.
  rewrite R in R'. injection R' as ->.
  unfold resizeAndRedraw.
  rewrite with_canvas_twice, resizeCanvas_with_canvas, R, bind_Normal.
  rewrite with_canvas_twice in D. exact D.
Qed.

Lemma resizeAndRedraw_idempotent_witness :
  exists f2,
    resizeAndRedraw fullHost (Ready plainFields) = Normal (Ready f2) /\
    resizeAndRedraw fullHost (Ready f2) = Normal (Ready f2).
Proof.
  apply (resizeAndRedraw_idempotent fullHost plainFields "flowchart").
  reflexivity.
Defined.

(** ** Redrawing twice *)

Lemma colorsValid_resolve (h : Host) (conns : list Connection) :
  colorsValid h conns -> colorsResolve h conns.
Proof. intros V c Hc. destruct (V c Hc) as (r & Hr & _). now exists r. Qed.

(** What a full redraw adds to the bitmap when the canvas accepts the
    colours of the table. *)
Lemma drawConnections_exact (h : Host) (f : Fields) (node : string) :
  flowchart f = Some node ->
  colorsValid h (connectionsOf (connectionType f)) ->
  exists f',
    drawConnections h (Ready f) = Normal (Ready f') /\
    sameBrush f f' /\
    connectionType f' = connectionType f /\
    canvasWidth (canvas f') = canvasWidth (canvas f) /\
    canvasHeight (canvas f') = canvasHeight (canvas f) /\
    bitmap (context (canvas f'))
      = (bitmap (context (canvas f)) ++ clearedBy f ::
         flat_map (arrowPaints h f) (connectionsOf (connectionType f)))%list.
Proof.
  intros E V.
  destruct (clearCanvas_brush f) as (Sb & Et & Ew & Eh).
  assert (Ec : flowchart (clearCanvas f) = Some node)
    by (destruct Sb as [-> _]; exact E).
  destruct (forEachConnection_exact h node _ V (clearCanvas f) Ec)
    as (f' & D & S' & B).
  destruct (forEachConnection_paints h node _ (colorsValid_resolve h _ V)
              (clearCanvas f) Ec)
    as (f'' & _ & D' & _ & T & _ & _ & W & H & _).
  rewrite D in D'. injection D' as <-.
  exists f'. unfold drawConnections.
  split; [exact D | ]. split; [now apply (sameBrush_trans f (clearCanvas f) f') | ].
  split; [congruence | ]. split; [congruence | ]. split; [congruence | ].
  assert (Hb : bitmap (context (canvas (clearCanvas f)))
               = (bitmap (context (canvas f)) ++ [clearedBy f])%list)
    by reflexivity.
  rewrite B, Hb, <- app_assoc. cbn [app].
  rewrite (flat_map_ext (arrowPaints h (clearCanvas f)) (arrowPaints h f));
    [reflexivity | ].
  intros c. now apply arrowPaints_ext.
Qed.

Lemma clearedBy_ext (f f' : Fields) :
  sameBrush f f' ->
  canvasWidth (canvas f') = canvasWidth (canvas f) ->
  canvasHeight (canvas f') = canvasHeight (canvas f) ->
  clearedBy f' = clearedBy f.
Proof.
  intros (_ & _ & _ & _ & X & Y & _) W H. unfold clearedBy.
  now rewrite X, Y, W, H.
Qed.

(** Two full redraws in a row on an unchanged document: when the canvas
    accepts the colours of the table, the second one blanks the same
    rectangle and paints the same strokes and fills as the first, whatever
    was on the canvas before. *)
Theorem drawConnections_repeatable (h : Host) (f : Fields) (node : string) :
  flowchart f = Some node ->
  colorsValid h (connectionsOf (connectionType f)) ->
  exists f1 f2 paints,
    drawConnections h (Ready f) = Normal (Ready f1) /\
    drawConnections h (Ready f1) = Normal (Ready f2) /\
    bitmap (context (canvas f1))
      = (bitmap (context (canvas f)) ++ paints)%list /\
    bitmap (context (canvas f2))
      = (bitmap (context (canvas f1)) ++ paints)%list /\
    paints = clearedBy f ::
             flat_map (arrowPaints h f) (connectionsOf (connectionType f)).
Proof.
  intros E V.
  destruct (drawConnections_exact h f node E V)
    as (f1 & D1 & S1 & T1 & W1 & H1 & B1).
  assert (E1 : flowchart f1 = Some node) by (destruct S1 as [-> _]; exact E).
  assert (V1 : colorsValid h (connectionsOf (connectionType f1)))
    by (rewrite T1; exact V).
  destruct (drawConnections_exact h f1 node E1 V1)
    as (f2 & D2 & _ & _ & _ & _ & B2).
  exists f1, f2. eexists.
  split; [exact D1 | ]. split; [exact D2 | ].
  split; [exact B1 | ]. split; [ | reflexivity].
  rewrite B2, T1, (clearedBy_ext f f1 S1 W1 H1).
  rewrite (flat_map_ext (arrowPaints h f1) (arrowPaints h f));
    [reflexivity | ].
  intros c. now apply arrowPaints_ext.
Qed.

(** Every element is in the document and every colour variable has a
    value the canvas accepts. *)
Definition themedHost : Host :=
  mkHost (fun id =>
            if String.eqb id "flowchart"
            then Some (mkElement (mkRect 80 30 200 100) None)
            else if String.eqb id "flowchart-canvas"
            then Some (mkElement (mkRect 80 30 200 100) (Some blankCanvas))
            else Some (mkElement (mkRect 120 60 40 20) None))
         (Some 2)
         (fun name => " #48bb78 ")
         (fun color => negb (String.eqb color "")).

Lemma themedHost_colorsValid (type : string) :
  colorsValid themedHost (connectionsOf type).
Proof.
  unfold colorsValid, connectionsOf; intros c Hc.
  destruct (String.eqb type "hachzarah"); simpl in Hc;
    repeat (destruct Hc as [<- | Hc]; [eexists; split; reflexivity | ]);
    contradiction.
Qed.

Lemma drawConnections_repeatable_witness :
  exists f1 f2 paints,
    drawConnections themedHost (Ready plainFields) = Normal (Ready f1) /\
    drawConnections themedHost (Ready f1) = Normal (Ready f2) /\
    bitmap (context (canvas f1)) = paints /\
    bitmap (context (canvas f2)) = (paints ++ paints)%list.
Proof.
  destruct (drawConnections_repeatable themedHost plainFields "flowchart"
              eq_refl (themedHost_colorsValid _))
    as (f1 & f2 & paints & D1 & D2 & B1 & B2 & _).
  exists f1, f2, paints.
  split; [exact D1 | ]. split; [exact D2 | ]. split; [exact B1 | ].
  rewrite B2. now rewrite B1.
Defined.

(** Drawing touches the context of the canvas and nothing else. *)
Lemma forEachConnection_ctx (h : Host) (conns : list Connection) :
  forall f s,
    forEachConnection h conns (Ready f) = Normal s ->
    exists g, s = Ready (on_ctx (fun _ => g) f).
Proof.
  assert (Self : forall f, Ready f = Ready (on_ctx (fun _ => context (canvas f)) f)).
  { intros [[w hh sw sh g] fl ct lc lw sz]. reflexivity. }
  induction conns as [| conn rest IH]; intros f s H.
  - injection H as <-. eexists. apply Self.
  - cbn [forEachConnection] in H.
    destruct (drawConnection h (Ready f) _ _ _) as [s1 | e] eqn:D;
      [ | discriminate].
    rewrite bind_Normal in H.
    assert (S1 : exists g, s1 = Ready (on_ctx (fun _ => g) f)).
    { revert D. unfold drawConnection.
      destruct (getElementBottom h (Ready f) _) as [p | e]; [ | discriminate].
      destruct (getElementTop h (Ready f) _) as [q | e]; [ | discriminate].
      cbn [bind].
      destruct p as [p |];
        [ | intros D; injection D as <-; eexists; apply Self].
      destruct q as [q |];
        [ | intros D; injection D as <-; eexists; apply Self].
      unfold drawArrow.
      destruct (resolveColor h _) as [r | e]; [ | discriminate].
      cbn [bind]. intros D. injection D as <-. now eexists. }
    destruct S1 as [g1 ->].
    destruct (IH _ s H) as [g2 ->]. now exists g2.
Qed.

(** ** A construction that binds *)

(** On a page that has the canvas and the container, the constructor
    returns a bound connector and registers the resize listener.  The
    connector has line width 3, arrow size 8, the type given (["default"]
    when left out) and the trimmed [--primary-color] as its line colour;
    the buffer of the canvas has the size the canvas makes of the double
    products of the container's sizes and the pixel ratio, its display size
    is that of the container, its transform is the ratio, and it holds the
    first redraw: a clearing, then the lines of the table of its type. *)
Theorem constructor_binds (h : Host) (canvasId flowchartId : string)
        (type : option string) (node container : Element) (cv : Canvas) :
  getElementById h canvasId = Some node ->
  asCanvas node = Some cv ->
  getElementById h flowchartId = Some container ->
  let rect := boundingClientRect container in
  let r := pixelRatioOf h in
  exists f paints,
    constructor h canvasId flowchartId type = Normal (mkInstance (Ready f) true) /\
    flowchart f = Some flowchartId /\
    connectionType f = match type with Some t => t | None => "default" end /\
    lineWidth f = 3 /\ arrowSize f = 8 /\
    lineColor f = trim (getPropertyValue h "--primary-color") /\
    canvasWidth (canvas f) = toUnsignedLong 300 (double (rectWidth rect * r)) /\
    canvasHeight (canvas f) = toUnsignedLong 150 (double (rectHeight rect * r)) /\
    styleWidth (canvas f) = Some (px (rectWidth rect)) /\
    styleHeight (canvas f) = Some (px (rectHeight rect)) /\
    scaleX (context (canvas f)) = r /\ scaleY (context (canvas f)) = r /\
    bitmap (context (canvas f)) = Cleared 0 0 (r * IZR (canvasWidth (canvas f)))
                                          (r * IZR (canvasHeight (canvas f)))
                                  :: paints /\
    strokedPaths paints = flat_map (lineOf h f) (connectionsOf (connectionType f)).
Proof.
  intros G C F rect r.
  unfold constructor. rewrite G, C, F.
  set (f0 := mkFields _ _ _ _ _ _).
  pose proof (resizeCanvas_ready h f0 flowchartId eq_refl) as R. cbv zeta in R.
  unfold getBoundingClientRect in R. rewrite F in R. fold rect r in R.
  match type of R with _ = Normal (Ready ?x) => set (f1 := x) in * end.
  destruct (forEachConnection_paints h flowchartId
              (connectionsOf (connectionType f1))
              (table_colors_resolve h _) (clearCanvas f1) eq_refl)
    as (f2 & paints & D & Ef & Et & X & Y & W & H & B & S & _).
  exists f2, paints.
  unfold init. rewrite R, bind_Normal. unfold drawConnections.
  rewrite D, bind_Normal.
  destruct (forEachConnection_ctx h _ _ _ D) as [g2 E2].
  injection E2 as E2.
  assert (Line : flat_map (lineOf h f2) (connectionsOf (connectionType f2))
                 = flat_map (lineOf h (clearCanvas f1))
                            (connectionsOf (connectionType f1))).
  { rewrite Et. apply flat_map_ext; intros c. now apply lineOf_ext. }
  rewrite Line, B, W, H, X, Y.
  rewrite E2.
  cbn [on_ctx with_canvas with_context canvas flowchart connectionType
       lineWidth arrowSize lineColor canvasWidth canvasHeight styleWidth
       styleHeight context clearCanvas f1 f0 scaleX scaleY bitmap
       Ctx.clearRect Ctx.paint app].
  repeat (split; [reflexivity | ]).
  split; [lra | ]. split; [lra | ]. split; [ | exact S].
  f_equal. f_equal; lra.
Qed.

Lemma constructor_binds_witness :
  exists f paints,
    constructor themedHost "flowchart-canvas" "flowchart" (Some "hachzarah")
      = Normal (mkInstance (Ready f) true) /\
    connectionType f = "hachzarah" /\
    lineWidth f = 3 /\ arrowSize f = 8 /\
    lineColor f = "#48bb78" /\
    canvasWidth (canvas f) = 400%Z /\ canvasHeight (canvas f) = 200%Z /\
    scaleX (context (canvas f)) = 2 /\
    bitmap (context (canvas f))
      = Cleared 0 0 (2 * IZR (canvasWidth (canvas f)))
                (2 * IZR (canvasHeight (canvas f))) :: paints /\
    List.length (strokedPaths paints) = 12%nat.
Proof.
  assert (P : pixelRatioOf themedHost = 2).
  { unfold pixelRatioOf; simpl.
    destruct (Req_dec_T 2 0) as [E | _]; [lra | reflexivity]. }
  destruct (constructor_binds themedHost "flowchart-canvas" "flowchart"
              (Some "hachzarah")
              (mkElement (mkRect 80 30 200 100) (Some blankCanvas))
              (mkElement (mkRect 80 30 200 100) None) blankCanvas
              eq_refl eq_refl eq_refl)
    as (f & paints & C & Ef & Et & Lw & As & Lc & Cw & Ch & _ & _ & X & _ & B & S).
  rewrite P in X, B, Cw, Ch.
  cbn [boundingClientRect rectWidth rectHeight] in Cw, Ch.
  replace (200 * 2) with 400 in Cw by lra.
  replace (100 * 2) with 200 in Ch by lra.
  rewrite double_whole in Cw, Ch by (cbn; lia).
  rewrite toUnsignedLong_floor in Cw, Ch by lra.
  replace (Zfloor 400) with 400%Z in Cw by (symmetry; apply Zfloor_eq; lra).
  replace (Zfloor 200) with 200%Z in Ch by (symmetry; apply Zfloor_eq; lra).
  exists f, paints.
  repeat (split; [assumption | ]).
  rewrite S, Et.
  apply (lines_of_resolvable themedHost f "flowchart"); [exact Ef | reflexivity].
Defined.

(** ** Colours that resolve *)

Fixpoint last_char (s : string) : option ascii :=
  match s with
  | EmptyString => None
  | String c EmptyString => Some c
  | String _ r => last_char r
  end.

Definition first_char (s : string) : option ascii :=
  match s with
  | EmptyString => None
  | String c _ => Some c
  end.

Lemma trim_start_first (s : string) (c : ascii) :
  first_char (trim_start s) = Some c -> is_space c = false.
Proof.
  induction s as [| a r IH]; [discriminate | ].
  cbn [trim_start]. destruct (is_space a) eqn:A; [exact IH | ].
  cbn. intros H. now injection H as <-.
Qed.

Lemma trim_end_first (s : string) (a : ascii) (r : string) :
  is_space a = false ->
  first_char (trim_end (String a r)) = Some a.
Proof.
  intros A. cbn [trim_end]. destruct (trim_end r); [now rewrite A | reflexivity].
Qed.

Lemma trim_end_last (s : string) (c : ascii) :
  last_char (trim_end s) = Some c -> is_space c = false.
Proof.
  induction s as [| a r IH]; [discriminate | ].
  cbn [trim_end]. destruct (trim_end r) as [| b t] eqn:T.
  - destruct (is_space a) eqn:A; [discriminate | ].
    cbn. intros H. now injection H as <-.
  - intros H. apply IH. exact H.
Qed.

(** [trim] leaves no white space at either end. *)
Lemma trim_ends (s : string) :
  (forall c, first_char (trim s) = Some c -> is_space c = false) /\
  (forall c, last_char (trim s) = Some c -> is_space c = false).
Proof.
  unfold trim. split; [ | intros c; apply trim_end_last].
  intros c H.
  destruct (trim_start s) as [| a r] eqn:T; [discriminate | ].
  assert (A : is_space a = false)
    by (apply (trim_start_first s); now rewrite T).
  rewrite (trim_end_first r a r A) in H. now injection H as <-.
Qed.

(** [resolveColor] throws in one case only: the colour starts with
    [var(] and holds no text of the shape [var(--name)].  A colour that
    does not start with [var(] comes back as it is. *)
Theorem resolveColor_throws_iff (h : Host) (color : string) :
  (resolveColor h (Some color) = Throw TypeError <->
   startsWith "var(" color = true /\ ~ contains_var_reference color) /\
  (startsWith "var(" color = false ->
   resolveColor h (Some color) = Normal color).
Proof.
  unfold resolveColor.
  destruct (startsWith "var(" color) eqn:S.
  - split; [ | discriminate].
    destruct (match_var color) as [g |] eqn:M.
    + split; [discriminate | ].
      intros [_ N]. exfalso. apply N. now apply (match_var_sound color g).
    + split; [ | reflexivity].
      intros _. split; [reflexivity | ]. now apply match_var_None_iff.
  - split; [ | reflexivity]. split; [discriminate | ]. intros [H _]. discriminate.
Qed.

Lemma match_var_here_leading (body post : string) :
  body <> "" ->
  (forall a b, body <> a ++ String ")" b) ->
  match_var_here ("var(--" ++ body ++ ")" ++ post) = Some ("--" ++ body).
Proof.
  intros Hne Hn. unfold match_var_here.
  rewrite strip_prefix_app.
  change (")" ++ post) with (String ")" post).
  rewrite (until_paren_complete body post Hn).
  destruct body; [contradiction | reflexivity].
Qed.

(** A colour that begins with [var(--], then a text without closing
    parenthesis that is not empty, then [)]: the variable looked up is the
    whole text between the parentheses, whatever follows, and the result
    is its value without white space at either end.  So for
    [var(--a, red)] the name looked up is [--a, red]. *)
Theorem resolveColor_leading_reference (h : Host) (body post : string) :
  body <> "" ->
  (forall a b, body <> a ++ String ")" b) ->
  let value := trim (getPropertyValue h ("--" ++ body)) in
  resolveColor h (Some ("var(--" ++ body ++ ")" ++ post)) = Normal value /\
  (forall c, first_char value = Some c -> is_space c = false) /\
  (forall c, last_char value = Some c -> is_space c = false).
Proof.
  intros Hne Hn value.
  split; [ | apply trim_ends].
  unfold resolveColor.
  change (startsWith "var(" ("var(--" ++ body ++ ")" ++ post)) with true.
  rewrite match_var_unfold, (match_var_here_leading body post Hne Hn).
  reflexivity.
Qed.

Lemma resolveColor_leading_reference_witness :
  resolveColor
    (mkHost (fun _ => None) None
            (fun name => if String.eqb name "--a, red" then "  teal " else "blue")
            (fun _ => true))
    (Some "var(--a, red) 1px") = Normal "teal".
Proof.
  apply (resolveColor_leading_reference
           (mkHost (fun _ => None) None
                   (fun name => if String.eqb name "--a, red"
                                then "  teal " else "blue")
                   (fun _ => true))
           "a, red" " 1px").
  - discriminate.
  - intros a b. revert b.
    do 7 (destruct a as [| ? a]; [intros b H; discriminate H | ]);
      intros b H; simpl in H; repeat (injection H as ? H); discriminate.
Defined.

(** ** Lines in buffer coordinates *)

(** After a resize and redraw at pixel ratio [r], each connection of the
    table whose two elements are in the document has its line in the
    bitmap, from [r] times the bottom anchor of its source to [r] times
    the top anchor of its target, both taken relative to the container in
    CSS pixels. *)
Theorem lines_scaled_by_ratio (h : Host) (f : Fields) (node : string)
        (conn : Connection) (a b : Element) :
  flowchart f = Some node ->
  In conn (connectionsOf (connectionType f)) ->
  getElementById h (conn_from conn) = Some a ->
  getElementById h (conn_to conn) = Some b ->
  let r := pixelRatioOf h in
  let c := getBoundingClientRect h node in
  let ra := boundingClientRect a in
  let rb := boundingClientRect b in
  exists f2 x0 y0 x1 y1,
    resizeAndRedraw h (Ready f) = Normal (Ready f2) /\
    In [MoveTo x0 y0; LineTo x1 y1]
       (strokedPaths (bitmap (context (canvas f2)))) /\
    x0 = r * (rectLeft ra + rectWidth ra / 2 - rectLeft c) /\
    y0 = r * (rectTop ra + rectHeight ra - rectTop c) /\
    x1 = r * (rectLeft rb + rectWidth rb / 2 - rectLeft c) /\
    y1 = r * (rectTop rb - rectTop c).
Proof.
  intros E Hin Ga Gb r c ra rb.
  destruct (resizeAndRedraw_paints h f node E)
    as (f1 & f2 & paints & R & D & _ & B & S).
  pose proof (resizeCanvas_ready h f node E) as R'. cbv zeta in R'.
  rewrite R in R'. injection R' as E1.
  exists f2. do 4 eexists. split; [exact D | ].
  split.
  - rewrite B.
    change (strokedPaths (clearedBy f1 :: paints)) with (strokedPaths paints).
    rewrite S. apply in_flat_map. exists conn. split; [exact Hin | ].
    unfold lineOf, getElementBottom, getElementTop.
    rewrite Ga, Gb.
    assert (Ef : flowchart f1 = Some node) by (rewrite E1; exact E).
    rewrite (flowchartRect_ready h f1 node Ef). cbn [bind].
    left. reflexivity.
  - rewrite E1. unfold rectBottom.
    cbn [with_canvas canvas context scaleX scaleY pos_x pos_y].
    fold r c ra rb. repeat split; lra.
Qed.

Lemma lines_scaled_by_ratio_witness :
  exists f2,
    resizeAndRedraw themedHost (Ready plainFields) = Normal (Ready f2) /\
    exists x0 y0 x1 y1,
      In [MoveTo x0 y0; LineTo x1 y1]
         (strokedPaths (bitmap (context (canvas f2)))) /\
      x0 = 120 /\ y0 = 100 /\ x1 = 120 /\ y1 = 60.
Proof.
  assert (P : pixelRatioOf themedHost = 2).
  { unfold pixelRatioOf; simpl.
    destruct (Req_dec_T 2 0) as [E | _]; [lra | reflexivity]. }
  destruct (lines_scaled_by_ratio themedHost plainFields "flowchart"
              (mkConnection "question1" "q1-yes" "var(--category-gradient-start)")
              (mkElement (mkRect 120 60 40 20) None)
              (mkElement (mkRect 120 60 40 20) None)
              eq_refl (or_introl eq_refl) eq_refl eq_refl)
    as (f2 & x0 & y0 & x1 & y1 & D & I & -> & -> & -> & ->).
  exists f2. split; [exact D | ].
  do 4 eexists. split; [exact I | ].
  rewrite P. unfold getBoundingClientRect. cbn. repeat split; lra.
Defined.

(** ** Resize events far apart, and a connector without canvas *)

Local Close Scope R_scope.

(** One timer waits, set at [t], on a window that listens. *)
Definition waiting (w : Window) (t : nat) (log : list nat) : Prop :=
  exists id next i,
    w = mkWindow i (Some id) [mkTimer id (t + 100)] next log /\
    listening i = true.

Lemma waiting_tidy (w : Window) (t : nat) (log : list nat) :
  waiting w t log -> tidy w.
Proof. intros (id & next & i & -> & _). right. now exists id, (t + 100). Qed.

Lemma waiting_fires_then_rearms (layout : nat -> Host) (eager : bool)
      (now t : nat) (w : Window) (log : list nat) :
  waiting w t log -> t + 100 < now ->
  waiting (dispatchResize now (advance layout eager now w)) now
          (log ++ [t + 100]).
Proof.
  intros (id & next & i & -> & L) H.
  unfold advance. cbn [timers filter].
  rewrite isDue_id, (isDue_after eager now (t + 100) H).
  cbn [negb fold_left instance resizeTimeout nextTimerId redraws].
  unfold runCallback. cbn [instance self listening resizeTimeout timers
                           nextTimerId redraws timer_due].
  unfold dispatchResize. cbn [instance listening]. rewrite L.
  unfold resizeListener, clearTimeout, setTimeout.
  cbn [resizeTimeout timers filter instance nextTimerId redraws app].
  eexists _, _, _. split; reflexivity.
Qed.

(** Every gap between two events is more than 100 ms. *)
Fixpoint spaced (events : list nat) : Prop :=
  match events with
  | [] => True
  | t :: rest =>
      match rest with
      | [] => True
      | u :: _ => t + 100 < u /\ spaced rest
      end
  end.

Lemma waiting_run (layout : nat -> Host) (eager : bool) :
  forall events w t log,
    waiting w t log ->
    spaced (t :: events) ->
    waiting (runResizes layout eager events w) (last events t)
            (log ++ removelast (map (fun u => u + 100) (t :: events))).
Proof.
  induction events as [| u rest IH]; intros w t log W Sp.
  - cbn. now rewrite app_nil_r.
  - destruct Sp as [Hu Sp].
    pose proof (waiting_fires_then_rearms layout eager u t w log W Hu) as W'.
    specialize (IH _ u _ W' Sp).
    cbn [runResizes].
    replace (last (u :: rest) t) with (last rest u)
      by (destruct rest; [reflexivity | ];
          symmetry; apply (last_cons_default n rest t u)).
    replace (log ++ removelast (map (fun u0 => u0 + 100) (t :: u :: rest)))%list
      with ((log ++ [t + 100])
              ++ removelast (map (fun u0 => u0 + 100) (u :: rest)))%list
      by (rewrite <- app_assoc; reflexivity).
    exact IH.
Qed.

(** When every resize event comes more than 100 ms after the one before,
    none is merged with another: each gets its own resize and redraw,
    100 ms after it. *)
Theorem resize_events_apart (layout : nat -> Host) (eager : bool)
        (i : Instance) (first : nat) (rest : list nat) (horizon : nat) :
  listening i = true ->
  spaced (first :: rest) ->
  last rest first + 100 < horizon ->
  let w := advance layout eager horizon
                   (runResizes layout eager (first :: rest) (open i)) in
  redraws w = map (fun t => t + 100) (first :: rest) /\
  timers w = [].
Proof.
  intros L Sp Hz w.
  assert (W0 : waiting (dispatchResize first (advance layout eager first (open i)))
                       first []).
  { destruct (open_step layout eager first i L) as [id E].
    rewrite E. now exists id, (S id), i. }
  pose proof (waiting_run layout eager rest _ first [] W0 Sp) as W.
  destruct W as (id & next & i' & E & L').
  unfold w. cbn [runResizes]. rewrite E.
  unfold advance. cbn [timers filter].
  rewrite isDue_id, (isDue_after eager horizon _ Hz).
  cbn [negb fold_left]. unfold runCallback.
  cbn [redraws timers timer_due app].
  split; [ | reflexivity].
  clear. generalize first. induction rest as [| u rest IH]; intros t.
  - reflexivity.
  - change (last (u :: rest) t) with (last (u :: rest) t).
    replace (last (u :: rest) t) with (last rest u)
      by (destruct rest; [reflexivity | ];
          symmetry; apply (last_cons_default n rest t u)).
    cbn [map]. cbn [map] in IH.
    change (removelast (t + 100 :: u + 100 :: map (fun u0 => u0 + 100) rest))
      with (t + 100 :: removelast (u + 100 :: map (fun u0 => u0 + 100) rest)).
    cbn [app]. f_equal. apply IH.
Qed.

Lemma resize_events_apart_witness :
  redraws (advance (fun _ => boxHost) true 1000
             (runResizes (fun _ => boxHost) true [0; 150; 400]
                         (open (mkInstance (Ready plainFields) true))))
    = [100; 250; 500].
Proof.
  apply (resize_events_apart (fun _ => boxHost) true
           (mkInstance (Ready plainFields) true) 0 [150; 400] 1000).
  - reflexivity.
  - cbn. lia.
  - cbn. lia.
Defined.

(** Without the canvas the constructor returns an object bound to
    nothing and registers no listener: whatever resize events come and
    however long one waits, no timer is set and nothing is redrawn. *)
Theorem unbound_connector_is_inert (h : Host) (canvasId flowchartId : string)
        (type : option string) (layout : nat -> Host) (eager : bool)
        (events : list nat) (horizon : nat) :
  getElementById h canvasId = None ->
  exists i,
    constructor h canvasId flowchartId type = Normal i /\
    self i = Unbound /\
    advance layout eager horizon (runResizes layout eager events (open i))
      = open i.
Proof.
  intros G. exists (mkInstance Unbound false).
  unfold constructor. rewrite G.
  split; [reflexivity | ]. split; [reflexivity | ].
  induction events as [| now rest IH]; [reflexivity | exact IH].
Qed.

Lemma unbound_connector_is_inert_witness :
  exists i,
    constructor boxHost "flowchart-canvas" "flowchart" None = Normal i /\
    self i = Unbound /\
    advance (fun _ => boxHost) true 5000
            (runResizes (fun _ => boxHost) true [10; 20; 900] (open i))
      = open i.
Proof.
  apply (unbound_connector_is_inert boxHost "flowchart-canvas" "flowchart" None).
  reflexivity.
Defined.

(** * The slide show

    The second half of the file: the globals [currentSlide], [slides],
    [totalSlides], [slideshowContainer] and [isRTL], the navigation
    functions and the listeners of the document.  The deck is the page
    once [initializeApp] has run: [slides] is the list of the [.slide]
    elements, so the guards [if (!slides) return] pass, and [totalSlides]
    is its length.  A [TypeError] is kept together with the state the page
    is left in, since the statements before it have taken effect.  Slide
    indices are integers; the arithmetic of the code on them is exact for
    safe integers (up to 2^53 in magnitude), the range the statements
    about indices outside the deck are kept to. *)

Local Open Scope Z_scope.

Record Deck : Type := mkDeck {
  currentSlide : Z;
  (** for each [.slide], whether it has the class [active] *)
  slides : list bool;
  isRTL : bool;
  (** the number [#current-slide] shows; [None] when the page has no such
      element, and so for the two buttons *)
  currentSlideText : option Z;
  prevBtnDisabled : option bool;
  nextBtnDisabled : option bool;
  (** the vertical position last asked of [window.scrollTo] *)
  scrollTop : R;
  (** the box of [#slideshow-container], [None] when the global is [null] *)
  slideshowContainer : option DOMRect;
  (** the classes [show-nav-prev] and [show-nav-next] of the body *)
  showNavPrev : bool;
  showNavNext : bool
}.

Definition totalSlides (d : Deck) : Z := Z.of_nat (List.length (slides d)).

Inductive Outcome : Type :=
| Done (d : Deck)
| Raised (d : Deck).

Definition andThen (o : Outcome) (k : Deck -> Outcome) : Outcome :=
  match o with
  | Done d => k d
  | Raised d => Raised d
  end.

(** [slides[i]]: [undefined] outside the list. *)
Definition slideAt (l : list bool) (i : Z) : option bool :=
  if i <? 0 then None else nth_error l (Z.to_nat i).

Fixpoint replaceNth (n : nat) (v : bool) (l : list bool) : list bool :=
  match l with
  | [] => []
  | x :: r =>
      match n with
      | O => v :: r
      | S k => x :: replaceNth k v r
      end
  end.

(** [slides[i].classList.add('active')] and [.remove('active')] *)
Definition setActive (i : Z) (v : bool) (l : list bool) : list bool :=
  if i <? 0 then l else replaceNth (Z.to_nat i) v l.

Definition showSlide (n : Z) (d : Deck) : Outcome :=
  match slideAt (slides d) (currentSlide d) with
  | None => Raised d
  | Some _ =>
      let cleared := setActive (currentSlide d) false (slides d) in
      let current := Z.rem (n + totalSlides d) (totalSlides d) in
      let d1 := mkDeck current cleared (isRTL d) (currentSlideText d)
                       (prevBtnDisabled d) (nextBtnDisabled d) (scrollTop d)
                       (slideshowContainer d) (showNavPrev d) (showNavNext d) in
      match slideAt cleared current with
      | None => Raised d1
      | Some _ =>
          let shown := setActive current true cleared in
          let d2 := mkDeck current shown (isRTL d) (currentSlideText d)
                           (prevBtnDisabled d) (nextBtnDisabled d) (scrollTop d)
                           (slideshowContainer d) (showNavPrev d) (showNavNext d) in
          match currentSlideText d with
          | None => Raised d2
          | Some _ =>
              let d3 := mkDeck current shown (isRTL d) (Some (current + 1))
                               (prevBtnDisabled d) (nextBtnDisabled d) 0%R
                               (slideshowContainer d) (showNavPrev d)
                               (showNavNext d) in
              match prevBtnDisabled d with
              | None => Raised d3
              | Some _ =>
                  let d4 := mkDeck current shown (isRTL d) (Some (current + 1))
                                   (Some (current =? 0)) (nextBtnDisabled d) 0%R
                                   (slideshowContainer d) (showNavPrev d)
                                   (showNavNext d) in
                  match nextBtnDisabled d with
                  | None => Raised d4
                  | Some _ =>
                      Done (mkDeck current shown (isRTL d) (Some (current + 1))
                                   (Some (current =? 0))
                                   (Some (current =? totalSlides d - 1)) 0%R
                                   (slideshowContainer d) (showNavPrev d)
                                   (showNavNext d))
                  end
              end
          end
      end
  end.

Definition nextSlide (d : Deck) : Outcome :=
  if currentSlide d <? totalSlides d - 1
  then showSlide (currentSlide d + 1) d
  else Done d.

Definition previousSlide (d : Deck) : Outcome :=
  if currentSlide d >? 0
  then showSlide (currentSlide d - 1) d
  else Done d.

Definition goToSlide (slideNumber : Z) (d : Deck) : Outcome :=
  let slideIndex := slideNumber - 1 in
  if (slideIndex >=? 0) && (slideIndex <? totalSlides d)
  then showSlide slideIndex d
  else Done d.

(** The globals of the touch listeners. *)
Record Touches : Type := mkTouches {
  touchStartX : R;
  touchEndX : R;
  touchStartY : R;
  touchEndY : R
}.

Definition Rltb (x y : R) : bool := if Rlt_dec x y then true else false.

Definition handleSwipe (t : Touches) (d : Deck) : Outcome :=
  let horizontalDiff := (touchEndX t - touchStartX t)%R in
  let verticalDiff := (touchEndY t - touchStartY t)%R in
  let minSwipeDistance := 80%R in
  if Rltb (Rabs verticalDiff) (Rabs horizontalDiff)
     && Rltb minSwipeDistance (Rabs horizontalDiff)
  then
    if isRTL d then
      if Rltb 0 horizontalDiff then nextSlide d else previousSlide d
    else
      if Rltb horizontalDiff 0 then nextSlide d else previousSlide d
  else Done d.

(** The [touchstart] and [touchend] listeners, given [screenX] and
    [screenY] of the first changed touch. *)
Definition touchstart (x y : R) (t : Touches) : Touches :=
  mkTouches x (touchEndX t) y (touchEndY t).

Definition touchend (x y : R) (t : Touches) (d : Deck) : Touches * Outcome :=
  let t := mkTouches (touchStartX t) x (touchStartY t) y in
  (t, handleSwipe t d).

(** The [keydown] listener; [e.preventDefault()] for the space bar acts
    on the event only. *)
Definition keydown (key : string) (d : Deck) : Outcome :=
  andThen (if String.eqb key "ArrowLeft" || String.eqb key "ArrowDown"
           then nextSlide d else Done d) (fun d =>
  andThen (if String.eqb key "ArrowRight" || String.eqb key "ArrowUp"
           then previousSlide d else Done d) (fun d =>
  andThen (if String.eqb key "Home" then showSlide 0 d else Done d) (fun d =>
  andThen (if String.eqb key "End"
           then showSlide (totalSlides d - 1) d else Done d) (fun d =>
  if String.eqb key " " then nextSlide d else Done d)))).

(** What the [click] and [mousemove] listeners read of the event:
    whether [e.target.closest(...)] finds a button, link or form control,
    a [.slide], the [.navigation-controls]; and [e.clientX]. *)
Record Pointer : Type := mkPointer {
  onControl : bool;
  inSlide : bool;
  inNavigationControls : bool;
  clientX : R
}.

Definition click (e : Pointer) (d : Deck) : Outcome :=
  match slideshowContainer d with
  | None => Done d
  | Some containerRect =>
      if onControl e then Done d
      else if inSlide e && negb (inNavigationControls e) then
        let clickX := (clientX e - rectLeft containerRect)%R in
        let containerWidth := rectWidth containerRect in
        let margin := (containerWidth * (15 / 100))%R in
        if isRTL d then
          if Rltb clickX margin then nextSlide d
          else if Rltb (containerWidth - margin) clickX then previousSlide d
          else Done d
        else
          if Rltb clickX margin then previousSlide d
          else if Rltb (containerWidth - margin) clickX then nextSlide d
          else Done d
      else Done d
  end.

Definition setHints (prev next : bool) (d : Deck) : Deck :=
  mkDeck (currentSlide d) (slides d) (isRTL d) (currentSlideText d)
         (prevBtnDisabled d) (nextBtnDisabled d) (scrollTop d)
         (slideshowContainer d) prev next.

Definition mousemove (e : Pointer) (d : Deck) : Deck :=
  match slideshowContainer d with
  | None => d
  | Some containerRect =>
      if inSlide e then
        let mouseX := (clientX e - rectLeft containerRect)%R in
        let containerWidth := rectWidth containerRect in
        let margin := (containerWidth * (15 / 100))%R in
        let d := setHints false false d in
        if isRTL d then
          if Rltb mouseX margin && (currentSlide d <? totalSlides d - 1)
          then setHints (showNavPrev d) true d
          else if Rltb (containerWidth - margin) mouseX && (currentSlide d >? 0)
          then setHints true (showNavNext d) d
          else d
        else
          if Rltb mouseX margin && (currentSlide d >? 0)
          then setHints true (showNavNext d) d
          else if Rltb (containerWidth - margin) mouseX
                  && (currentSlide d <? totalSlides d - 1)
          then setHints (showNavPrev d) true d
          else d
      else d
  end.

(** The [mouseleave] listener of the container. *)
Definition mouseleave (d : Deck) : Deck := setHints false false d.

(** ** Exactly one slide is shown *)

Lemma replaceNth_length (n : nat) (v : bool) (l : list bool) :
  List.length (replaceNth n v l) = List.length l.
Proof.
  revert n; induction l as [| x r IH]; intros [| k]; cbn; auto.
Qed.

Lemma replaceNth_nth (n i : nat) (v : bool) (l : list bool) :
  (n < List.length l)%nat ->
  nth i (replaceNth n v l) false = if Nat.eqb i n then v else nth i l false.
Proof.
  revert n i; induction l as [| x r IH]; intros n i H; cbn in H; [lia | ].
  destruct n as [| k], i as [| j]; cbn; try reflexivity.
  apply IH. lia.
Qed.

Lemma setActive_length (i : Z) (v : bool) (l : list bool) :
  List.length (setActive i v l) = List.length l.
Proof.
  unfold setActive. destruct (i <? 0); [reflexivity | apply replaceNth_length].
Qed.

Lemma setActive_nth (i : Z) (j : nat) (v : bool) (l : list bool) :
  0 <= i < Z.of_nat (List.length l) ->
  nth j (setActive i v l) false
    = if Z.of_nat j =? i then v else nth j l false.
Proof.
  intros H. unfold setActive.
  destruct (Z.ltb_spec i 0); [lia | ].
  rewrite replaceNth_nth by lia.
  destruct (Nat.eqb_spec j (Z.to_nat i)), (Z.eqb_spec (Z.of_nat j) i);
    try reflexivity; lia.
Qed.

Lemma slideAt_in_range (l : list bool) (i : Z) :
  0 <= i < Z.of_nat (List.length l) -> exists b, slideAt l i = Some b.
Proof.
  intros H. unfold slideAt. destruct (Z.ltb_spec i 0); [lia | ].
  destruct (nth_error l (Z.to_nat i)) as [b |] eqn:E; [now exists b | ].
  apply nth_error_None in E. lia.
Qed.

Lemma slideAt_negative (l : list bool) (i : Z) : i < 0 -> slideAt l i = None.
Proof.
  intros H. unfold slideAt. destruct (Z.ltb_spec i 0); [reflexivity | lia].
Qed.

(** The three elements [showSlide] writes to are in the page. *)
Definition controlsPresent (d : Deck) : Prop :=
  currentSlideText d <> None /\
  prevBtnDisabled d <> None /\
  nextBtnDisabled d <> None.

(** The deck [showSlide] leaves when nothing is missing. *)
Definition shown (current : Z) (d : Deck) : Deck :=
  mkDeck current
         (setActive current true (setActive (currentSlide d) false (slides d)))
         (isRTL d) (Some (current + 1)) (Some (current =? 0))
         (Some (current =? totalSlides d - 1)) 0%R
         (slideshowContainer d) (showNavPrev d) (showNavNext d).

Lemma showSlide_done (n : Z) (d : Deck) :
  controlsPresent d ->
  0 <= currentSlide d < totalSlides d ->
  0 <= Z.rem (n + totalSlides d) (totalSlides d) ->
  showSlide n d = Done (shown (Z.rem (n + totalSlides d) (totalSlides d)) d).
Proof.
  intros (Ht & Hp & Hn) Hc Hr.
  assert (Hb : Z.rem (n + totalSlides d) (totalSlides d) < totalSlides d).
  { pose proof (Z.rem_bound_abs (n + totalSlides d) (totalSlides d)) as B.
    assert (totalSlides d <> 0) by lia. specialize (B H).
    pose proof (Z.rem_bound_pos_pos (Z.abs (n + totalSlides d)) (totalSlides d)).
    rewrite Z.abs_eq in B by exact Hr. lia. }
  unfold showSlide, shown.
  destruct (slideAt_in_range (slides d) (currentSlide d) Hc) as [b ->].
  destruct (slideAt_in_range (setActive (currentSlide d) false (slides d))
              (Z.rem (n + totalSlides d) (totalSlides d))) as [b' ->].
  { rewrite setActive_length. fold (totalSlides d). lia. }
  destruct (currentSlideText d); [ | contradiction].
  destruct (prevBtnDisabled d); [ | contradiction].
  destruct (nextBtnDisabled d); [ | contradiction].
  reflexivity.
Qed.

(** The current slide is in the deck and is the one slide shown, and the
    counter and the two buttons agree with it. *)
Definition inSync (d : Deck) : Prop :=
  0 <= currentSlide d < totalSlides d /\
  (forall i : nat,
      nth i (slides d) false = true <-> Z.of_nat i = currentSlide d) /\
  currentSlideText d = Some (currentSlide d + 1) /\
  prevBtnDisabled d = Some (currentSlide d =? 0) /\
  nextBtnDisabled d = Some (currentSlide d =? totalSlides d - 1).

(** What no navigation changes. *)
Definition sameShow (d d' : Deck) : Prop :=
  List.length (slides d') = List.length (slides d) /\
  isRTL d' = isRTL d /\
  slideshowContainer d' = slideshowContainer d.

(** An outcome that is a deck in sync of the same show. *)
Definition keeps (d : Deck) (o : Outcome) : Prop :=
  exists d', o = Done d' /\ inSync d' /\ sameShow d d'.

Lemma sameShow_refl (d : Deck) : sameShow d d.
Proof. repeat split. Qed.

Lemma sameShow_trans (a b c : Deck) : sameShow a b -> sameShow b c -> sameShow a c.
Proof. unfold sameShow. intuition congruence. Qed.

Lemma sameShow_total (d d' : Deck) : sameShow d d' -> totalSlides d' = totalSlides d.
Proof. intros [L _]. unfold totalSlides. now rewrite L. Qed.

Lemma keeps_self (d : Deck) : inSync d -> keeps d (Done d).
Proof. intros I. exists d. split; [reflexivity | split; [exact I | apply sameShow_refl]]. Qed.

Lemma keeps_andThen (d : Deck) (o : Outcome) (k : Deck -> Outcome) :
  keeps d o ->
  (forall d1, inSync d1 -> keeps d1 (k d1)) ->
  keeps d (andThen o k).
Proof.
  intros (d1 & -> & I1 & S1) K.
  destruct (K d1 I1) as (d2 & E & I2 & S2).
  exists d2. cbn [andThen]. split; [exact E | ].
  split; [exact I2 | now apply (sameShow_trans d d1 d2)].
Qed.

Lemma rem_wrap (k t : Z) : 0 <= k < t -> Z.rem (k + t) t = k.
Proof.
  intros H. rewrite Z.rem_mod_nonneg by lia.
  replace (k + t) with (k + 1 * t) by lia.
  rewrite Z_mod_plus_full. now apply Z.mod_small.
Qed.

(** From a deck whose current slide is the only one that may be shown,
    [showSlide] of an index no lower than minus the number of slides
    returns a deck in sync, on that index taken modulo the number of
    slides. *)
Lemma showSlide_in_sync (n : Z) (d : Deck) :
  controlsPresent d ->
  0 <= currentSlide d < totalSlides d ->
  (forall i : nat, Z.of_nat i <> currentSlide d -> nth i (slides d) false = false) ->
  - totalSlides d <= n ->
  exists d',
    showSlide n d = Done d' /\ inSync d' /\ sameShow d d' /\
    currentSlide d' = (n + totalSlides d) mod totalSlides d /\
    showNavPrev d' = showNavPrev d /\ showNavNext d' = showNavNext d.
Proof.
  intros C Hc Ho Hn.
  assert (R : Z.rem (n + totalSlides d) (totalSlides d)
              = (n + totalSlides d) mod totalSlides d)
    by (apply Z.rem_mod_nonneg; lia).
  pose proof (Z.mod_pos_bound (n + totalSlides d) (totalSlides d) ltac:(lia))
    as B.
  rewrite (showSlide_done n d C Hc) by (rewrite R; lia).
  rewrite R. set (c := (n + totalSlides d) mod totalSlides d) in *.
  exists (shown c d). split; [reflexivity | ].
  assert (T : totalSlides (shown c d) = totalSlides d).
  { unfold totalSlides, shown. cbn [slides]. now rewrite !setActive_length. }
  split; [ | split; [ | repeat split]].
  - unfold inSync. rewrite T. cbn [shown currentSlide slides currentSlideText
                                   prevBtnDisabled nextBtnDisabled].
    split; [exact B | ]. split; [ | repeat split].
    intros i. rewrite setActive_nth
      by (rewrite setActive_length; fold (totalSlides d); exact B).
    destruct (Z.eqb_spec (Z.of_nat i) c) as [-> | Ne]; [tauto | ].
    rewrite setActive_nth by exact Hc.
    destruct (Z.eqb_spec (Z.of_nat i) (currentSlide d)) as [E | Ne'].
    + split; [discriminate | contradiction].
    + rewrite (Ho i Ne'). split; [discriminate | contradiction].
  - unfold sameShow, shown. cbn [slides isRTL slideshowContainer].
    rewrite !setActive_length. repeat split.
Qed.

Lemma inSync_ready (d : Deck) :
  inSync d ->
  controlsPresent d /\
  0 <= currentSlide d < totalSlides d /\
  (forall i : nat, Z.of_nat i <> currentSlide d -> nth i (slides d) false = false).
Proof.
  intros (Hc & Ha & Ht & Hp & Hn).
  split; [ | split; [exact Hc | ]].
  - unfold controlsPresent. rewrite Ht, Hp, Hn. repeat split; discriminate.
  - intros i Ne. destruct (nth i (slides d) false) eqn:A; [ | reflexivity].
    exfalso. apply Ne. now apply Ha.
Qed.

Lemma showSlide_keeps (n : Z) (d : Deck) :
  inSync d -> 0 <= n < totalSlides d ->
  exists d',
    showSlide n d = Done d' /\ inSync d' /\ sameShow d d' /\
    currentSlide d' = n /\
    showNavPrev d' = showNavPrev d /\ showNavNext d' = showNavNext d.
Proof.
  intros I Hn. destruct (inSync_ready d I) as (C & Hc & Ho).
  destruct (showSlide_in_sync n d C Hc Ho ltac:(lia))
    as (d' & E & I' & S & Cur & Hints).
  exists d'. repeat (split; [assumption | ]). split; [ | exact Hints].
  rewrite Cur. replace (n + totalSlides d) with (n + 1 * totalSlides d) by lia.
  rewrite Z_mod_plus_full. now apply Z.mod_small.
Qed.

Lemma nextSlide_keeps (d : Deck) :
  inSync d ->
  exists d',
    nextSlide d = Done d' /\ inSync d' /\ sameShow d d' /\
    currentSlide d'
      = (if currentSlide d <? totalSlides d - 1
         then currentSlide d + 1 else currentSlide d).
Proof.
  intros I. unfold nextSlide.
  destruct (Z.ltb_spec (currentSlide d) (totalSlides d - 1)) as [L | G].
  - pose proof I as [Hc _].
    destruct (showSlide_keeps (currentSlide d + 1) d I ltac:(lia))
      as (d' & E & I2 & S & Cur & _).
    exists d'. split; [exact E | ]. split; [exact I2 | ].
    split; [exact S | exact Cur].
  - exists d. split; [reflexivity | ]. split; [exact I | ].
    split; [apply sameShow_refl | reflexivity].
Qed.

Lemma previousSlide_keeps (d : Deck) :
  inSync d ->
  exists d',
    previousSlide d = Done d' /\ inSync d' /\ sameShow d d' /\
    currentSlide d'
      = (if currentSlide d >? 0 then currentSlide d - 1 else currentSlide d).
Proof.
  intros I. unfold previousSlide.
  destruct (Z.gtb_spec (currentSlide d) 0) as [L | G].
  - pose proof I as [Hc _].
    destruct (showSlide_keeps (currentSlide d - 1) d I ltac:(lia))
      as (d' & E & I2 & S & Cur & _).
    exists d'. split; [exact E | ]. split; [exact I2 | ].
    split; [exact S | exact Cur].
  - exists d. split; [reflexivity | ]. split; [exact I | ].
    split; [apply sameShow_refl | reflexivity].
Qed.

Lemma weaken_keeps (d : Deck) (o : Outcome) (P : Deck -> Prop) :
  (exists d', o = Done d' /\ inSync d' /\ sameShow d d' /\ P d') -> keeps d o.
Proof. intros (d' & E & I & S & _). now exists d'. Qed.

Lemma goToSlide_keeps (n : Z) (d : Deck) :
  inSync d ->
  exists d',
    goToSlide n d = Done d' /\ inSync d' /\ sameShow d d' /\
    currentSlide d'
      = (if (1 <=? n) && (n <=? totalSlides d) then n - 1 else currentSlide d).
Proof.
  intros I. unfold goToSlide.
  destruct (Z.geb_spec (n - 1) 0) as [G | G];
    destruct (Z.ltb_spec (n - 1) (totalSlides d)) as [L | L];
    destruct (Z.leb_spec 1 n) as [A | A];
    destruct (Z.leb_spec n (totalSlides d)) as [B | B]; try lia; cbn [andb].
  - destruct (showSlide_keeps (n - 1) d I ltac:(lia))
      as (d' & E & I2 & S & Cur & _).
    exists d'. split; [exact E | ]. split; [exact I2 | ].
    split; [exact S | exact Cur].
  - exists d. split; [reflexivity | ]. split; [exact I | ].
    split; [apply sameShow_refl | reflexivity].
  - exists d. split; [reflexivity | ]. split; [exact I | ].
    split; [apply sameShow_refl | reflexivity].
  - exists d. split; [reflexivity | ]. split; [exact I | ].
    split; [apply sameShow_refl | reflexivity].
Qed.

Lemma handleSwipe_keeps (t : Touches) (d : Deck) :
  inSync d -> keeps d (handleSwipe t d).
Proof.
  intros I. unfold handleSwipe.
  destruct (_ && _); [ | now apply keeps_self].
  destruct (isRTL d), (Rltb _ _);
    first [ apply (weaken_keeps d _ _ (nextSlide_keeps d I))
          | apply (weaken_keeps d _ _ (previousSlide_keeps d I)) ].
Qed.

Lemma click_keeps (e : Pointer) (d : Deck) :
  inSync d -> keeps d (click e d).
Proof.
  intros I. unfold click.
  destruct (slideshowContainer d) as [rect |]; [ | now apply keeps_self].
  destruct (onControl e); [now apply keeps_self | ].
  destruct (_ && _); [ | now apply keeps_self].
  destruct (isRTL d), (Rltb _ _); try destruct (Rltb _ _);
    first [ apply (weaken_keeps d _ _ (nextSlide_keeps d I))
          | apply (weaken_keeps d _ _ (previousSlide_keeps d I))
          | now apply keeps_self ].
Qed.

Lemma keydown_keeps (key : string) (d : Deck) :
  inSync d -> keeps d (keydown key d).
Proof.
  intros I. unfold keydown.
  assert (N : forall d1, inSync d1 -> keeps d1 (nextSlide d1))
    by (intros d1 I1; apply (weaken_keeps d1 _ _ (nextSlide_keeps d1 I1))).
  assert (P : forall d1, inSync d1 -> keeps d1 (previousSlide d1))
    by (intros d1 I1; apply (weaken_keeps d1 _ _ (previousSlide_keeps d1 I1))).
  assert (Sh : forall n d1, inSync d1 -> 0 <= n < totalSlides d1 ->
                            keeps d1 (showSlide n d1)).
  { intros n d1 I1 Hn.
    destruct (showSlide_keeps n d1 I1 Hn) as (d' & E & I2 & S & _).
    now exists d'. }
  apply keeps_andThen.
  { destruct (_ || _); [now apply N | now apply keeps_self]. }
  intros d1 I1. apply keeps_andThen.
  { destruct (_ || _); [now apply P | now apply keeps_self]. }
  intros d2 I2. apply keeps_andThen.
  { destruct (String.eqb key "Home"); [ | now apply keeps_self].
    apply Sh; [exact I2 | destruct I2 as [H _]; lia]. }
  intros d3 I3. apply keeps_andThen.
  { destruct (String.eqb key "End"); [ | now apply keeps_self].
    apply Sh; [exact I3 | destruct I3 as [H _]; lia]. }
  intros d4 I4.
  destruct (String.eqb key " "); [now apply N | now apply keeps_self].
Qed.

Lemma setHints_keeps (p n : bool) (d : Deck) :
  inSync d -> inSync (setHints p n d) /\ sameShow d (setHints p n d).
Proof. intros I. split; [exact I | unfold sameShow; repeat split]. Qed.

Lemma mousemove_keeps (e : Pointer) (d : Deck) :
  inSync d -> inSync (mousemove e d) /\ sameShow d (mousemove e d).
Proof.
  intros I. unfold mousemove.
  destruct (slideshowContainer d) as [rect |];
    [ | split; [exact I | apply sameShow_refl]].
  destruct (inSlide e); [ | split; [exact I | apply sameShow_refl]].
  cbv zeta.
  destruct (isRTL (setHints false false d));
    repeat match goal with
           | |- context [if ?c then _ else _] => destruct c
           end;
    (split; [exact I | unfold sameShow; repeat split]).
Qed.

(** What a visitor can do to the deck. *)
Inductive Command : Type :=
| CallNext
| CallPrevious
| CallGoTo (slideNumber : Z)
| Key (key : string)
| Swipe (t : Touches)
| Click (e : Pointer)
| MouseMove (e : Pointer)
| MouseLeave.

Definition step (c : Command) (d : Deck) : Outcome :=
  match c with
  | CallNext => nextSlide d
  | CallPrevious => previousSlide d
  | CallGoTo n => goToSlide n d
  | Key key => keydown key d
  | Swipe t => handleSwipe t d
  | Click e => click e d
  | MouseMove e => Done (mousemove e d)
  | MouseLeave => Done (mouseleave d)
  end.

Fixpoint run (cmds : list Command) (d : Deck) : Outcome :=
  match cmds with
  | [] => Done d
  | c :: rest => andThen (step c d) (run rest)
  end.

Lemma step_keeps (c : Command) (d : Deck) : inSync d -> keeps d (step c d).
Proof.
  intros I. destruct c as [| | n | key | t | e | e |]; cbn [step].
  - apply (weaken_keeps d _ _ (nextSlide_keeps d I)).
  - apply (weaken_keeps d _ _ (previousSlide_keeps d I)).
  - apply (weaken_keeps d _ _ (goToSlide_keeps n d I)).
  - now apply keydown_keeps.
  - now apply handleSwipe_keeps.
  - now apply click_keeps.
  - destruct (mousemove_keeps e d I) as [I' S]. now exists (mousemove e d).
  - destruct (setHints_keeps false false d I) as [I' S].
    now exists (mouseleave d).
Qed.

(** Whatever the visitor does (calls of [nextSlide], [previousSlide] and
    [goToSlide] with any number, keys, swipes, clicks, mouse moves), from
    a deck in sync no [TypeError] is raised and the deck stays in sync:
    the current slide is in the deck and is the only slide with the class
    [active], the counter shows its number, the "previous" button is
    disabled on the first slide only and the "next" button on the last
    only; the number of slides and the direction do not change. *)
Theorem navigation_stays_in_sync (cmds : list Command) (d : Deck) :
  inSync d ->
  exists d', run cmds d = Done d' /\ inSync d' /\ sameShow d d'.
Proof.
  revert d. induction cmds as [| c rest IH]; intros d I.
  - exists d. split; [reflexivity | split; [exact I | apply sameShow_refl]].
  - cbn [run]. apply (keeps_andThen d (step c d) (run rest)).
    + now apply step_keeps.
    + intros d1 I1. exact (IH d1 I1).
Qed.

(** A deck of three slides on its first slide, read left to right, with
    a container 1000 pixels wide. *)
Definition threeSlides : Deck :=
  mkDeck 0 [true; false; false] false (Some 1) (Some true) (Some false) 0%R
         (Some (mkRect 0 0 1000 600)) false false.

Lemma threeSlides_inSync : inSync threeSlides.
Proof.
  unfold inSync, totalSlides.
  cbn [threeSlides currentSlide slides currentSlideText prevBtnDisabled
       nextBtnDisabled List.length].
  split; [lia | ]. split; [ | repeat split].
  intros [| [| [| i]]]; cbn [nth]; split; intros H;
    first [reflexivity | discriminate | lia | (destruct i; discriminate)].
Qed.

Lemma navigation_stays_in_sync_witness :
  exists d',
    run [Key "End"; CallNext; Key "ArrowUp"; CallGoTo 7; Key "x"] threeSlides
      = Done d' /\
    inSync d' /\ sameShow threeSlides d'.
Proof.
  apply (navigation_stays_in_sync _ threeSlides threeSlides_inSync).
Defined.

(** ** The ends of the deck *)

(** [nextSlide] on the last slide and [previousSlide] on the first leave
    the deck as it is, while [showSlide] wraps: one past the last slide
    is the first, one before the first is the last.  [goToSlide] takes
    the numbers 1 to [totalSlides] and leaves the deck as it is for any
    other. *)
Theorem navigation_at_the_ends (d : Deck) :
  inSync d ->
  (currentSlide d = totalSlides d - 1 -> nextSlide d = Done d) /\
  (currentSlide d = 0 -> previousSlide d = Done d) /\
  (exists d', showSlide (totalSlides d) d = Done d' /\ currentSlide d' = 0) /\
  (exists d', showSlide (-1) d = Done d' /\
              currentSlide d' = totalSlides d - 1) /\
  (forall n, n < 1 \/ totalSlides d < n -> goToSlide n d = Done d) /\
  (forall n, 1 <= n <= totalSlides d ->
             exists d', goToSlide n d = Done d' /\ currentSlide d' = n - 1).
Proof.
  intros I. destruct (inSync_ready d I) as (C & Hc & Ho).
  split; [ | split; [ | split; [ | split; [ | split]]]].
  - intros E. unfold nextSlide.
    destruct (Z.ltb_spec (currentSlide d) (totalSlides d - 1)); [lia | reflexivity].
  - intros E. unfold previousSlide.
    destruct (Z.gtb_spec (currentSlide d) 0); [lia | reflexivity].
  - destruct (showSlide_in_sync (totalSlides d) d C Hc Ho ltac:(lia))
      as (d' & E & _ & _ & Cur & _).
    exists d'. split; [exact E | ]. rewrite Cur.
    replace (totalSlides d + totalSlides d) with (0 + 2 * totalSlides d) by lia.
    rewrite Z_mod_plus_full. apply Z.mod_0_l. lia.
  - destruct (showSlide_in_sync (-1) d C Hc Ho ltac:(lia))
      as (d' & E & _ & _ & Cur & _).
    exists d'. split; [exact E | ]. rewrite Cur.
    rewrite Z.mod_small; lia.
  - intros n Hn. unfold goToSlide.
    destruct (Z.geb_spec (n - 1) 0);
      destruct (Z.ltb_spec (n - 1) (totalSlides d)); try reflexivity; lia.
  - intros n Hn.
    destruct (goToSlide_keeps n d I) as (d' & E & _ & _ & Cur).
    exists d'. split; [exact E | ]. rewrite Cur.
    destruct (Z.leb_spec 1 n); destruct (Z.leb_spec n (totalSlides d));
      try reflexivity; lia.
Qed.

Lemma navigation_at_the_ends_witness :
  previousSlide threeSlides = Done threeSlides /\
  goToSlide 4 threeSlides = Done threeSlides /\
  exists d', showSlide (-1) threeSlides = Done d' /\ currentSlide d' = 2.
Proof.
  destruct (navigation_at_the_ends threeSlides threeSlides_inSync)
    as (_ & First & _ & Wrap & Out & _).
  split; [apply First; reflexivity | ].
  split; [apply Out; right; cbn; lia | exact Wrap].
Defined.

Lemma inSync_slides_eq (a b : Deck) :
  inSync a -> inSync b ->
  List.length (slides b) = List.length (slides a) ->
  currentSlide b = currentSlide a ->
  slides b = slides a.
Proof.
  intros (_ & Ha & _) (_ & Hb & _) L C.
  apply (nth_ext _ _ false false); [exact L | ].
  intros n _.
  destruct (nth n (slides b) false) eqn:B, (nth n (slides a) false) eqn:A;
    try reflexivity.
  - apply Hb in B. rewrite C in B. apply Ha in B. congruence.
  - apply Ha in A. rewrite <- C in A. apply Hb in A. congruence.
Qed.

(** Going back one slide and forward again, or forward and back, shows
    the slide one started from, with the same counter and buttons. *)
Theorem previous_next_round_trip (d : Deck) :
  inSync d ->
  (0 < currentSlide d ->
   exists d1 d2,
     previousSlide d = Done d1 /\ nextSlide d1 = Done d2 /\
     currentSlide d2 = currentSlide d /\ slides d2 = slides d /\
     currentSlideText d2 = currentSlideText d /\
     prevBtnDisabled d2 = prevBtnDisabled d /\
     nextBtnDisabled d2 = nextBtnDisabled d) /\
  (currentSlide d < totalSlides d - 1 ->
   exists d1 d2,
     nextSlide d = Done d1 /\ previousSlide d1 = Done d2 /\
     currentSlide d2 = currentSlide d /\ slides d2 = slides d /\
     currentSlideText d2 = currentSlideText d /\
     prevBtnDisabled d2 = prevBtnDisabled d /\
     nextBtnDisabled d2 = nextBtnDisabled d).
Proof.
  intros I.
  assert (Back : forall d2, inSync d2 -> sameShow d d2 ->
                            currentSlide d2 = currentSlide d ->
                            currentSlide d2 = currentSlide d /\
                            slides d2 = slides d /\
                            currentSlideText d2 = currentSlideText d /\
                            prevBtnDisabled d2 = prevBtnDisabled d /\
                            nextBtnDisabled d2 = nextBtnDisabled d).
  { intros d2 I2 S2 C2. pose proof (sameShow_total d d2 S2) as T.
    split; [exact C2 | ].
    split; [apply inSync_slides_eq; [exact I | exact I2 | apply S2 | exact C2] | ].
    destruct I as (_ & _ & Ht & Hp & Hn), I2 as (_ & _ & Ht2 & Hp2 & Hn2).
    rewrite Ht, Hp, Hn, Ht2, Hp2, Hn2, C2, T. repeat split. }
  split; intros H.
  - destruct (previousSlide_keeps d I) as (d1 & E1 & I1 & S1 & C1).
    destruct (nextSlide_keeps d1 I1) as (d2 & E2 & I2 & S2 & C2).
    exists d1, d2. split; [exact E1 | ]. split; [exact E2 | ].
    apply Back; [exact I2 | now apply (sameShow_trans d d1 d2) | ].
    rewrite C2, C1, (sameShow_total d d1 S1).
    destruct I as [Hc _].
    destruct (Z.gtb_spec (currentSlide d) 0); [ | lia].
    destruct (Z.ltb_spec (currentSlide d - 1) (totalSlides d - 1)); lia.
  - destruct (nextSlide_keeps d I) as (d1 & E1 & I1 & S1 & C1).
    destruct (previousSlide_keeps d1 I1) as (d2 & E2 & I2 & S2 & C2).
    exists d1, d2. split; [exact E1 | ]. split; [exact E2 | ].
    apply Back; [exact I2 | now apply (sameShow_trans d d1 d2) | ].
    rewrite C2, C1.
    destruct I as [Hc _].
    destruct (Z.ltb_spec (currentSlide d) (totalSlides d - 1)); [ | lia].
    destruct (Z.gtb_spec (currentSlide d + 1) 0); lia.
Qed.

Lemma previous_next_round_trip_witness :
  exists d1 d2,
    nextSlide threeSlides = Done d1 /\ previousSlide d1 = Done d2 /\
    currentSlide d2 = 0 /\ slides d2 = [true; false; false].
Proof.
  destruct (previous_next_round_trip threeSlides threeSlides_inSync)
    as (_ & Forward).
  destruct Forward as (d1 & d2 & E1 & E2 & C & S & _); [cbn; lia | ].
  now exists d1, d2.
Defined.

(** [showSlide] of an index more than one deck length below zero (and
    not a multiple of the length) raises a [TypeError] after it has
    taken the class [active] off the current slide: no slide is shown any
    more, [currentSlide] is negative, and from then on every call of
    [showSlide], and [nextSlide] with it, raises as well.  The index is a
    safe integer, at least -2^53: there the sum [n + totalSlides] of the
    code is exact, as it is here; below, the sum of two doubles rounds and
    can land on a multiple of the length. *)
Theorem showSlide_below_range (n : Z) (d : Deck) :
  inSync d ->
  - 9007199254740992 <= n ->
  n < - totalSlides d ->
  Z.rem (n + totalSlides d) (totalSlides d) <> 0 ->
  exists d',
    showSlide n d = Raised d' /\
    currentSlide d' < 0 /\
    (forall i : nat, nth i (slides d') false = false) /\
    (forall m, showSlide m d' = Raised d') /\
    nextSlide d' = Raised d'.
Proof.
  intros I _ Hn Hr. destruct (inSync_ready d I) as (C & Hc & Ho).
  set (c := Z.rem (n + totalSlides d) (totalSlides d)) in *.
  assert (Neg : c < 0).
  { unfold c.
    replace (n + totalSlides d) with (- (- (n + totalSlides d))) by lia.
    rewrite Z.rem_opp_l by lia.
    pose proof (Z.rem_bound_pos (- (n + totalSlides d)) (totalSlides d)
                  ltac:(lia) ltac:(lia)) as B.
    unfold c in Hr.
    replace (n + totalSlides d) with (- (- (n + totalSlides d))) in Hr by lia.
    rewrite Z.rem_opp_l in Hr by lia. lia. }
  unfold showSlide. fold c.
  destruct (slideAt_in_range (slides d) (currentSlide d) Hc) as [b ->].
  rewrite (slideAt_negative _ c Neg).
  eexists. split; [reflexivity | ].
  cbn [currentSlide slides].
  split; [exact Neg | ].
  assert (Off : forall i : nat,
             nth i (setActive (currentSlide d) false (slides d)) false = false).
  { intros i. rewrite setActive_nth by exact Hc.
    destruct (Z.eqb_spec (Z.of_nat i) (currentSlide d)); [reflexivity | ].
    now apply Ho. }
  split; [exact Off | ].
  assert (All : forall m,
             showSlide m
               (mkDeck c (setActive (currentSlide d) false (slides d))
                       (isRTL d) (currentSlideText d) (prevBtnDisabled d)
                       (nextBtnDisabled d) (scrollTop d) (slideshowContainer d)
                       (showNavPrev d) (showNavNext d))
             = Raised
                 (mkDeck c (setActive (currentSlide d) false (slides d))
                         (isRTL d) (currentSlideText d) (prevBtnDisabled d)
                         (nextBtnDisabled d) (scrollTop d) (slideshowContainer d)
                         (showNavPrev d) (showNavNext d))).
  { intros m. unfold showSlide. cbn [currentSlide slides].
    now rewrite (slideAt_negative _ c Neg). }
  split; [exact All | ].
  unfold nextSlide. cbn [currentSlide].
  match goal with |- (if ?b then _ else _) = _ => destruct b eqn:L end.
  - apply All.
  - apply Z.ltb_ge in L. unfold totalSlides in L. cbn [slides] in L.
    rewrite setActive_length in L. unfold totalSlides in Hc. lia.
Qed.

Lemma showSlide_below_range_witness :
  exists d',
    showSlide (-4) threeSlides = Raised d' /\
    currentSlide d' = -1 /\ slides d' = [false; false; false] /\
    nextSlide d' = Raised d'.
Proof.
  destruct (showSlide_below_range (-4) threeSlides threeSlides_inSync)
    as (d' & E & _ & _ & _ & N); [lia | cbn; lia | cbn; lia | ].
  exists d'. split; [exact E | ].
  assert (E' := E). cbn in E'. injection E' as <-.
  split; [reflexivity | ]. split; [reflexivity | exact N].
Defined.

(** ** Swipes, clicks and hints *)

Local Open Scope R_scope.













(** * The quiz

    A [.question]: its answer box (whether it has the class [show];
    [None] when the question has none), the text of its "show answer"
    button ([None] when it has none), its options with their letter and
    their classes [correct] and [incorrect], and the letter the listener
    set-up read off the answer box.  The texts of the button are kept as
    the bytes of their UTF-8 encoding. *)

Local Close Scope R_scope.
Local Open Scope nat_scope.

Record Choice : Type := mkChoice {
  letter : string;
  correct : bool;
  incorrect : bool
}.

Record Question : Type := mkQuestion {
  answerBox : option bool;
  showAnswerBtn : option string;
  options : list Choice;
  correctAnswer : string
}.

Definition showLabel : string := "הצג תשובה".
Definition hideLabel : string := "הסתר תשובה".

Definition markCorrect (c : Choice) : Choice :=
  mkChoice (letter c) true (incorrect c).

Definition markIncorrect (c : Choice) : Choice :=
  mkChoice (letter c) (correct c) true.

Definition unmark (c : Choice) : Choice := mkChoice (letter c) false false.

Fixpoint updateAt (k : nat) (f : Choice -> Choice) (l : list Choice)
  : list Choice :=
  match l with
  | [] => []
  | c :: r =>
      match k with
      | O => f c :: r
      | S j => c :: updateAt j f r
      end
  end.

(** The [click] listener of the option at position [k]. *)
Definition optionClick (k : nat) (q : Question) : Question :=
  match nth_error (options q) k with
  | None => q
  | Some option =>
      if correct option || incorrect option then q
      else if String.eqb (letter option) (correctAnswer q) then
        mkQuestion (answerBox q) (showAnswerBtn q)
                   (updateAt k markCorrect (options q)) (correctAnswer q)
      else
        let marked := updateAt k markIncorrect (options q) in
        let box := match answerBox q with
                   | Some _ => Some true
                   | None => None
                   end in
        let btn := match answerBox q, showAnswerBtn q with
                   | Some _, Some _ => Some hideLabel
                   | _, b => b
                   end in
        mkQuestion box btn
                   (map (fun opt =>
                           if String.eqb (letter opt) (correctAnswer q)
                           then markCorrect opt else opt) marked)
                   (correctAnswer q)
  end.

(** [toggleAnswer(button, event)] for the button of the question, whose
    next sibling is the answer box; [None] is the [TypeError] of a button
    with nothing after it. *)
Definition toggleAnswer (q : Question) : option Question :=
  match answerBox q with
  | None => None
  | Some true =>
      Some (mkQuestion (Some false)
                       (match showAnswerBtn q with
                        | Some _ => Some showLabel
                        | None => None
                        end)
                       (map unmark (options q)) (correctAnswer q))
  | Some false =>
      Some (mkQuestion (Some true)
                       (match showAnswerBtn q with
                        | Some _ => Some hideLabel
                        | None => None
                        end)
                       (options q) (correctAnswer q))
  end.

Inductive QuizAction : Type :=
| Pick (k : nat)
| Toggle.

(** A handler that throws leaves the question as it was. *)
Definition quizStep (a : QuizAction) (q : Question) : Question :=
  match a with
  | Pick k => optionClick k q
  | Toggle =>
      match toggleAnswer q with
      | Some q' => q'
      | None => q
      end
  end.

Definition runQuiz (actions : list QuizAction) (q : Question) : Question :=
  fold_left (fun q a => quizStep a q) actions q.

(** ** The marks are right *)

(** Green is on options with the right letter only, red on options with
    another letter only; when an option is red the answer box, if there
    is one, is open; and the button says "hide" when the box is open and
    "show" when it is closed. *)
Definition graded (q : Question) : Prop :=
  (forall c, In c (options q) ->
             (correct c = true -> letter c = correctAnswer q) /\
             (incorrect c = true -> letter c <> correctAnswer q)) /\
  ((exists c, In c (options q) /\ incorrect c = true) ->
   answerBox q <> Some false) /\
  (forall b t, answerBox q = Some b -> showAnswerBtn q = Some t ->
               t = if b then hideLabel else showLabel).

Lemma updateAt_In (k : nat) (f : Choice -> Choice) (l : list Choice) (c : Choice) :
  In c (updateAt k f l) ->
  In c l \/ exists o, nth_error l k = Some o /\ c = f o.
Proof.
  revert k; induction l as [| x r IH]; intros k H;
    [destruct k; now cbn in H | ].
  destruct k as [| j]; cbn in H.
  - destruct H as [<- | H]; [right; now exists x | left; now right].
  - destruct H as [<- | H]; [left; now left | ].
    destruct (IH j H) as [H' | (o & E & ->)]; [left; now right | ].
    right. now exists o.
Qed.

Lemma updateAt_map_letter (k : nat) (f : Choice -> Choice) (l : list Choice) :
  (forall c, letter (f c) = letter c) ->
  map letter (updateAt k f l) = map letter l.
Proof.
  intros H. revert k; induction l as [| x r IH]; intros [| j]; cbn;
    rewrite ?H, ?IH; reflexivity.
Qed.

Lemma optionClick_graded (k : nat) (q : Question) :
  graded q -> graded (optionClick k q).
Proof.
  intros (G & Rv & Lb). unfold optionClick.
  destruct (nth_error (options q) k) as [o |] eqn:N; [ | now split].
  destruct (correct o || incorrect o) eqn:M; [now split | ].
  apply orb_false_elim in M as [Mc Mi].
  pose proof (nth_error_In _ _ N) as Ino.
  destruct (String.eqb_spec (letter o) (correctAnswer q)) as [E | Ne].
  - split; [ | split]; cbn [options answerBox showAnswerBtn correctAnswer].
    + intros c Hc.
      destruct (updateAt_In _ _ _ _ Hc) as [H | (o' & E' & ->)];
        [now apply G | ].
      rewrite N in E'. injection E' as <-.
      cbn. split; [intros _; exact E | ]. rewrite Mi. discriminate.
    + intros (c & Hc & Hi). apply Rv.
      destruct (updateAt_In _ _ _ _ Hc) as [H | (o' & E' & ->)];
        [now exists c | ].
      rewrite N in E'. injection E' as <-. cbn in Hi. congruence.
    + exact Lb.
  - split; [ | split]; cbn [options answerBox showAnswerBtn correctAnswer].
    + intros c Hc. apply in_map_iff in Hc as (c0 & <- & Hc0).
      assert (G0 : (correct c0 = true -> letter c0 = correctAnswer q) /\
                   (incorrect c0 = true -> letter c0 <> correctAnswer q)).
      { destruct (updateAt_In _ _ _ _ Hc0) as [H | (o' & E' & ->)];
          [now apply G | ].
        rewrite N in E'. injection E' as <-.
        cbn. split; [rewrite Mc; discriminate | intros _; exact Ne]. }
      destruct (String.eqb_spec (letter c0) (correctAnswer q)) as [E0 | Ne0].
      * cbn. split; [intros _; exact E0 | apply G0].
      * exact G0.
    + destruct (answerBox q); discriminate.
    + intros b t. destruct (answerBox q) as [b0 |] eqn:A; [ | discriminate].
      intros Hb. injection Hb as <-.
      destruct (showAnswerBtn q); [ | discriminate].
      intros Ht. now injection Ht as <-.
Qed.

Lemma toggleAnswer_graded (q q' : Question) :
  graded q -> toggleAnswer q = Some q' -> graded q'.
Proof.
  intros (G & Rv & Lb). unfold toggleAnswer.
  destruct (answerBox q) as [[|] |] eqn:A; [ | | discriminate];
    intros H; injection H as <-;
    (split; [ | split]); cbn [options answerBox showAnswerBtn correctAnswer].
  - intros c Hc. apply in_map_iff in Hc as (c0 & <- & _).
    cbn. split; discriminate.
  - intros (c & Hc & Hi). apply in_map_iff in Hc as (c0 & <- & _).
    discriminate Hi.
  - intros b t Hb. injection Hb as <-.
    destruct (showAnswerBtn q); [ | discriminate].
    intros Ht. now injection Ht as <-.
  - exact G.
  - discriminate.
  - intros b t Hb. injection Hb as <-.
    destruct (showAnswerBtn q); [ | discriminate].
    intros Ht. now injection Ht as <-.
Qed.

Lemma quizStep_graded (a : QuizAction) (q : Question) :
  graded q -> graded (quizStep a q).
Proof.
  intros G. destruct a as [k |]; cbn [quizStep].
  - now apply optionClick_graded.
  - destruct (toggleAnswer q) as [q' |] eqn:T; [ | exact G].
    now apply (toggleAnswer_graded q q').
Qed.

Lemma quizStep_letters (a : QuizAction) (q : Question) :
  map letter (options (quizStep a q)) = map letter (options q) /\
  correctAnswer (quizStep a q) = correctAnswer q.
Proof.
  destruct a as [k |]; cbn [quizStep].
  - unfold optionClick.
    destruct (nth_error (options q) k) as [o |]; [ | now split].
    destruct (correct o || incorrect o); [now split | ].
    destruct (String.eqb (letter o) (correctAnswer q));
      cbn [options correctAnswer].
    + split; [ | reflexivity]. now apply updateAt_map_letter.
    + split; [ | reflexivity]. rewrite map_map.
      rewrite <- (updateAt_map_letter k markIncorrect (options q))
        by reflexivity.
      apply map_ext. intros c. now destruct (String.eqb _ _).
  - unfold toggleAnswer.
    destruct (answerBox q) as [[|] |]; cbn [options correctAnswer];
      try now split.
    split; [ | reflexivity]. rewrite map_map. now apply map_ext.
Qed.

(** Whatever options are picked and however often the answer is toggled,
    a question that is graded stays graded: an option is green only if
    its letter is the correct one and red only if it is not (so never
    both), a red option comes with an open answer box, and the button
    text follows the box.  The letters and the correct answer do not
    change. *)
Theorem quiz_stays_graded (actions : list QuizAction) (q : Question) :
  graded q ->
  graded (runQuiz actions q) /\
  map letter (options (runQuiz actions q)) = map letter (options q) /\
  correctAnswer (runQuiz actions q) = correctAnswer q /\
  (forall c, In c (options (runQuiz actions q)) ->
             correct c && incorrect c = false).
Proof.
  revert q. induction actions as [| a rest IH]; intros q G.
  - cbn [runQuiz fold_left]. split; [exact G | ].
    split; [reflexivity | ]. split; [reflexivity | ].
    intros c Hc. destruct G as (G & _). destruct (G c Hc) as [Gc Gi].
    destruct (correct c), (incorrect c); try reflexivity.
    exfalso. now apply Gi; [ | apply Gc].
  - change (runQuiz (a :: rest) q) with (runQuiz rest (quizStep a q)).
    destruct (IH _ (quizStep_graded a q G)) as (G' & L & C & N).
    destruct (quizStep_letters a q) as [L1 C1].
    split; [exact G' | ]. split; [congruence | ]. split; [congruence | exact N].
Qed.

(** A question with four options, nothing picked, the answer closed. *)
Definition freshQuestion : Question :=
  mkQuestion (Some false) (Some showLabel)
             [ mkChoice "a" false false; mkChoice "b" false false;
               mkChoice "c" false false; mkChoice "d" false false ]
             "b".

Lemma freshQuestion_graded : graded freshQuestion.
Proof.
  split; [ | split].
  - intros c Hc. cbn in Hc.
    repeat (destruct Hc as [<- | Hc]; [split; discriminate | ]). contradiction.
  - intros (c & Hc & Hi). cbn in Hc.
    repeat (destruct Hc as [<- | Hc]; [discriminate Hi | ]). contradiction.
  - intros b t Hb Ht. cbn in Hb, Ht. injection Hb as <-. now injection Ht as <-.
Qed.

Lemma quiz_stays_graded_witness :
  graded (runQuiz [Pick 2; Pick 1; Toggle; Pick 0; Toggle] freshQuestion) /\
  options (runQuiz [Pick 2] freshQuestion)
    = [ mkChoice "a" false false; mkChoice "b" true false;
        mkChoice "c" false true; mkChoice "d" false false ].
Proof.
  split; [ | reflexivity].
  apply (quiz_stays_graded _ freshQuestion freshQuestion_graded).
Defined.

Lemma updateAt_nth_error (k : nat) (f : Choice -> Choice) (l : list Choice)
      (o : Choice) :
  nth_error l k = Some o -> nth_error (updateAt k f l) k = Some (f o).
Proof.
  revert k; induction l as [| x r IH]; intros [| j] H; cbn in *;
    try discriminate.
  - now injection H as <-.
  - now apply IH.
Qed.

(** A pick is final: picking the same option again changes nothing. *)
Theorem optionClick_twice (k : nat) (q : Question) :
  optionClick k (optionClick k q) = optionClick k q.
Proof.
  unfold optionClick at 2 3.
  destruct (nth_error (options q) k) as [o |] eqn:N.
  - destruct (correct o || incorrect o) eqn:M.
    + unfold optionClick. now rewrite N, M.
    + destruct (String.eqb (letter o) (correctAnswer q)) eqn:E.
      * unfold optionClick. cbn [options].
        rewrite (updateAt_nth_error k markCorrect _ o N). reflexivity.
      * unfold optionClick. cbn [options].
        rewrite nth_error_map, (updateAt_nth_error k markIncorrect _ o N).
        cbn [option_map letter markIncorrect]. rewrite E.
        cbn [incorrect]. now rewrite orb_true_r.
  - unfold optionClick. now rewrite N.
Qed.

(** Opening and closing the answer of a question nobody has touched
    gives the question back. *)
Theorem toggleAnswer_twice (q : Question) :
  answerBox q = Some false ->
  showAnswerBtn q = Some showLabel ->
  (forall c, In c (options q) -> correct c = false /\ incorrect c = false) ->
  exists q1, toggleAnswer q = Some q1 /\ toggleAnswer q1 = Some q.
Proof.
  intros A B U. unfold toggleAnswer at 1. rewrite A, B.
  eexists. split; [reflexivity | ].
  unfold toggleAnswer. cbn [answerBox showAnswerBtn options correctAnswer].
  destruct q as [box btn opts ans]. cbn in *. subst box btn.
  do 2 f_equal.
  induction opts as [| c r IH]; [reflexivity | ].
  cbn [map]. rewrite IH by (intros c' H; apply U; now right).
  destruct (U c (or_introl eq_refl)) as [Hc Hi].
  destruct c as [l cc ci]. cbn in *. now subst.
Qed.

Lemma toggleAnswer_twice_witness :
  exists q1, toggleAnswer freshQuestion = Some q1 /\
             toggleAnswer q1 = Some freshQuestion.
Proof.
  apply (toggleAnswer_twice freshQuestion); [reflexivity | reflexivity | ].
  intros c Hc. cbn in Hc.
  repeat (destruct Hc as [<- | Hc]; [split; reflexivity | ]). contradiction.
Defined.


(** * The navigation controls

    [handleNavigationVisibility]: the class [visible] of
    [.navigation-controls] ([None] when the page has none), the variable
    [hideTimer], and the timers of the host that wait.  Two callbacks are
    ever given to [setTimeout]: the one of [hideNavigation], which takes
    the class off, and [hideNavigation] itself. *)

Inductive NavCallback : Type :=
| RemoveVisible
| CallHideNavigation.

Record NavTimer : Type := mkNavTimer {
  nav_id : nat;
  nav_due : nat;
  nav_callback : NavCallback
}.

Record Nav : Type := mkNav {
  navVisible : option bool;
  hideTimer : option nat;
  isTouchDevice : bool;
  navTimers : list NavTimer;
  navNextId : nat
}.

Definition addVisible (v : option bool) : option bool :=
  match v with
  | Some _ => Some true
  | None => None
  end.

Definition removeVisible (v : option bool) : option bool :=
  match v with
  | Some _ => Some false
  | None => None
  end.

Definition showNavigation (n : Nav) : Nav :=
  match hideTimer n with
  | Some id =>
      mkNav (addVisible (navVisible n)) None (isTouchDevice n)
            (filter (fun t => negb (Nat.eqb (nav_id t) id)) (navTimers n))
            (navNextId n)
  | None =>
      mkNav (addVisible (navVisible n)) None (isTouchDevice n)
            (navTimers n) (navNextId n)
  end.

Definition hideNavigation (now : nat) (n : Nav) : Nav :=
  let id := navNextId n in
  mkNav (navVisible n) (Some id) (isTouchDevice n)
        (navTimers n
         ++ [mkNavTimer id (now + (if isTouchDevice n then 3000 else 500))
                        RemoveVisible])
        (S id).

(** A timer that waits runs, at the time it is due. *)
Definition fire (t : NavTimer) (n : Nav) : Nav :=
  let n := mkNav (navVisible n) (hideTimer n) (isTouchDevice n)
                 (filter (fun u => negb (Nat.eqb (nav_id u) (nav_id t)))
                         (navTimers n))
                 (navNextId n) in
  match nav_callback t with
  | RemoveVisible =>
      mkNav (removeVisible (navVisible n)) (hideTimer n) (isTouchDevice n)
            (navTimers n) (navNextId n)
  | CallHideNavigation => hideNavigation (nav_due t) n
  end.

Definition Rleb (x y : R) : bool := if Rle_dec x y then true else false.


(** The [touchstart] listener of the document, on touch devices. *)
Definition navTouchstart (clientY innerHeight : R) (now : nat) (n : Nav) : Nav :=
  if isTouchDevice n then
    if Rleb (innerHeight - clientY) (innerHeight * (2 / 10))
    then hideNavigation now (showNavigation n)
    else n
  else n.

(** The listeners on the controls: [touchstart] and the [click] of their
    buttons on touch devices, [mouseenter] and [mouseleave] elsewhere. *)
Definition controlsTouchstart (n : Nav) : Nav :=
  match navVisible n with
  | Some _ => if isTouchDevice n then showNavigation n else n
  | None => n
  end.

Definition setNavTimeout (now delay : nat) (cb : NavCallback) (n : Nav) : Nav :=
  mkNav (navVisible n) (hideTimer n) (isTouchDevice n)
        (navTimers n ++ [mkNavTimer (navNextId n) (now + delay) cb])
        (S (navNextId n)).

Definition controlsButtonClick (now : nat) (n : Nav) : Nav :=
  match navVisible n with
  | Some _ =>
      if isTouchDevice n then setNavTimeout now 500 CallHideNavigation n else n
  | None => n
  end.

Definition controlsMouseenter (n : Nav) : Nav :=
  match navVisible n with
  | Some _ =>
      if isTouchDevice n then n
      else showNavigation (match hideTimer n with
                           | Some id =>
                               mkNav (navVisible n) None (isTouchDevice n)
                                     (filter (fun t => negb (Nat.eqb (nav_id t) id))
                                             (navTimers n))
                                     (navNextId n)
                           | None => n
                           end)
  | None => n
  end.

Definition controlsMouseleave (now : nat) (n : Nav) : Nav :=
  match navVisible n with
  | Some _ => if isTouchDevice n then n else hideNavigation now n
  | None => n
  end.

(** The last two statements of [handleNavigationVisibility]. *)
Definition navStart (now : nat) (n : Nav) : Nav :=
  setNavTimeout now 2000 CallHideNavigation (showNavigation n).

(** ** Timers that pile up *)

(** The timers set by mouse moves far from the bottom, at the given
    times, when the first of them gets the identifier [start]. *)
Fixpoint farTimers (start : nat) (times : list nat) : list NavTimer :=
  match times with
  | [] => []
  | t :: rest => mkNavTimer start (t + 500) RemoveVisible :: farTimers (S start) rest
  end.


Lemma farTimers_app (start : nat) (a b : list nat) :
  farTimers start (a ++ b)
    = (farTimers start a ++ farTimers (start + List.length a) b)%list.
Proof.
  revert start; induction a as [| t a IH]; intros start; cbn.
  - now rewrite Nat.add_0_r.
  - rewrite IH. now replace (S start + List.length a) with (start + S (List.length a)) by lia.
Qed.








(** After the page has loaded and with nothing else happening, the
    controls are shown, then hidden again: the timer set on load calls
    [hideNavigation] after 2000 ms, whose own timer takes the class
    [visible] off 500 ms later, or 3000 ms later on a touch device; no
    timer is left. *)
Theorem controls_hide_after_load (now : nat) (n : Nav) :
  navTimers n = [] ->
  hideTimer n = None ->
  let loaded := navStart now n in
  let delay := if isTouchDevice n then 3000 else 500 in
  navVisible loaded = addVisible (navVisible n) /\
  exists t1 t2,
    navTimers loaded = [t1] /\ nav_due t1 = now + 2000 /\
    navTimers (fire t1 loaded) = [t2] /\ nav_due t2 = now + 2000 + delay /\
    navVisible (fire t1 loaded) = addVisible (navVisible n) /\
    navVisible (fire t2 (fire t1 loaded)) = removeVisible (navVisible n) /\
    navTimers (fire t2 (fire t1 loaded)) = [].
Proof.
  intros Tm Ht loaded delay.
  destruct n as [v ht td tms nid]. cbn in Tm, Ht. subst tms ht.
  assert (L : loaded = mkNav (addVisible v) None td
                             [mkNavTimer nid (now + 2000) CallHideNavigation]
                             (S nid))
    by reflexivity.
  assert (F1 : fire (mkNavTimer nid (now + 2000) CallHideNavigation) loaded
               = mkNav (addVisible v) (Some (S nid)) td
                       [mkNavTimer (S nid) (now + 2000 + delay) RemoveVisible]
                       (S (S nid))).
  { rewrite L. unfold fire, hideNavigation.
    cbn [nav_id nav_due nav_callback navTimers filter navVisible hideTimer
         isTouchDevice navNextId].
    rewrite Nat.eqb_refl. reflexivity. }
  assert (F2 : fire (mkNavTimer (S nid) (now + 2000 + delay) RemoveVisible)
                    (mkNav (addVisible v) (Some (S nid)) td
                       [mkNavTimer (S nid) (now + 2000 + delay) RemoveVisible]
                       (S (S nid)))
               = mkNav (removeVisible v) (Some (S nid)) td [] (S (S nid))).
  { unfold fire.
    cbn [nav_id nav_due nav_callback navTimers filter navVisible hideTimer
         isTouchDevice navNextId].
    rewrite Nat.eqb_refl. destruct v; reflexivity. }
  split; [rewrite L; reflexivity | ].
  exists (mkNavTimer nid (now + 2000) CallHideNavigation),
         (mkNavTimer (S nid) (now + 2000 + delay) RemoveVisible).
  rewrite F1, F2, L. repeat split.
Qed.

Lemma controls_hide_after_load_witness :
  exists t1 t2,
    navTimers (navStart 0 (mkNav (Some false) None true [] 1)) = [t1] /\
    navTimers (fire t1 (navStart 0 (mkNav (Some false) None true [] 1))) = [t2] /\
    nav_due t2 = 5000 /\
    navVisible (fire t2 (fire t1 (navStart 0 (mkNav (Some false) None true [] 1))))
      = Some false.
Proof.
  destruct (controls_hide_after_load 0 (mkNav (Some false) None true [] 1)
              eq_refl eq_refl)
    as (_ & t1 & t2 & T1 & _ & T2 & D2 & _ & V & _).
  exists t1, t2. repeat split; assumption.
Defined.
